(** * Calculator: a recursive-descent evaluator of arithmetic expressions

    Shallow embedding of [Basics/Calculator/Calculator.cpp] (class [Parser])
    and the properties its specification states about it.

    The C++ class keeps the input [expr] (immutable) and the cursor [pos]
    (mutable).  Here [expr] is a parameter and every member function is a
    function from the cursor before the call to the outcome of the call: a
    value together with the cursor after it, or the exception thrown.
    Recursion between the grammar levels is bounded by a [fuel] argument that
    every call decrements; [evaluate] supplies fuel linear in the input
    length and the termination theorem shows that it is never exhausted. *)

From Stdlib Require Import Ascii String DecimalString List Arith Bool ZArith Lia.
From Stdlib Require Import Floats.PrimFloat Floats.SpecFloat Floats.FloatOps.
Import ListNotations.

(** ** Characters: <cctype> in the "C" locale (the program never calls
    [setlocale]).  A [char] is one byte; the bytes above 127 belong to no
    class. *)

Definition isspace (c : ascii) : bool :=
  let n := nat_of_ascii c in
  (n =? 32) || ((9 <=? n) && (n <=? 13)).

Definition isdigit (c : ascii) : bool :=
  let n := nat_of_ascii c in
  (48 <=? n) && (n <=? 57).

Definition is_point (c : ascii) : bool := Ascii.eqb c ".".

(** ** Numbers: [double] is IEEE 754 binary64 *)

Definition double := float.

(** What the C and C++ standards leave to the implementation of the
    library: the values of [std::pow], and whether [strtod] reports a range
    error for a text whose value underflows. *)
Class Libm := {
  pow : double -> double -> double;
  strtod_underflow_erange : list ascii -> bool
}.

Module Stod.

Definition digit_value (c : ascii) : Z := Z.of_nat (nat_of_ascii c) - 48.

Definition digits (text : list ascii) : list ascii := filter isdigit text.

(** The digits of the text read as one decimal integer. *)
Definition mantissa (text : list ascii) : Z :=
  fold_left (fun m c => 10 * m + digit_value c)%Z (digits text) 0%Z.

(** The number of digits after the decimal point. *)
Fixpoint fraction_digits (text : list ascii) : nat :=
  match text with
  | [] => 0
  | c :: rest =>
      if is_point c then length (digits rest) else fraction_digits rest
  end.

Definition of_Z (z : Z) : spec_float :=
  match z with
  | Z0 => S754_zero false
  | Zpos p => S754_finite false p 0
  | Zneg _ => S754_nan
  end.

(** [m / 10^k] rounded to the nearest binary64 value, ties to even. *)
Definition nearest (m : Z) (k : nat) : spec_float :=
  SFdiv prec emax (of_Z m) (of_Z (10 ^ Z.of_nat k)).

Definition is_infinite (x : spec_float) : bool :=
  match x with S754_infinity _ => true | _ => false end.

(** Zero or subnormal. *)
Definition is_tiny (x : spec_float) : bool :=
  match x with
  | S754_zero _ => true
  | S754_finite _ m _ => Z.ltb (Zpos (digits2_pos m)) prec
  | _ => false
  end.

(** [m / 10^k] lies below the smallest normal number, 2^-1022; such a value
    underflows even when it rounds up to that number. *)
Definition below_normal (m : Z) (k : nat) : bool :=
  (m * 2 ^ 1022 <? 10 ^ Z.of_nat k)%Z.

End Stod.

(** [std::stod] on a text made of digits and at most one decimal point, the
    only texts [parseNumber] passes to it.  The value is the decimal number
    rounded to the nearest [double].  [None] stands for the exception:
    [std::invalid_argument] when [strtod] converts nothing (no digit), and
    [std::out_of_range] when it sets [ERANGE], which it does on overflow
    and, where the library says so, on underflow: for a text other than
    zero whose value is below the smallest normal number, whether the
    rounded result is zero, subnormal or that number. *)
Definition stod `{Libm} (text : list ascii) : option double :=
  match Stod.digits text with
  | [] => None
  | _ :: _ =>
      let m := Stod.mantissa text in
      let k := Stod.fraction_digits text in
      let r := Stod.nearest m k in
      if Stod.is_infinite r then None
      else if (Stod.is_tiny r || Stod.below_normal m k)
              && negb (Z.eqb m 0) && strtod_underflow_erange text
      then None
      else Some (SF2Prim r)
  end.

(** ** Exceptions

    The program throws [std::runtime_error] with a message; one constructor
    per [throw] statement, [message] gives the [std::string] it is built
    from and [what] the C string [main] prints. *)

Inductive EvalError : Type :=
| UnexpectedToken (pos : nat) (c : ascii)
| DivisionByZero (pos : nat)
| UnmatchedParenthesis (pos : nat)
| ExpectedNumber (pos : nat)
| MalformedNumber (pos : nat)
| NumberConversionError (pos : nat).

Definition to_string (n : nat) : string :=
  NilEmpty.string_of_uint (Nat.to_uint n).

Definition message (e : EvalError) : string :=
  match e with
  | UnexpectedToken pos c =>
      "Unexpected token at position " ++ to_string pos ++ ": '"
        ++ String c "'"
  | DivisionByZero pos => "Division by zero at position " ++ to_string pos
  | UnmatchedParenthesis pos =>
      "Missing closing parenthesis at position " ++ to_string pos
  | ExpectedNumber pos => "Expected a number at position " ++ to_string pos
  | MalformedNumber pos =>
      "Invalid number format at position " ++ to_string pos
  | NumberConversionError pos =>
      "Number conversion error at position " ++ to_string pos
  end%string.

(** [std::string::c_str] read as a C string: the characters in front of the
    first NUL. *)
Fixpoint c_str (s : string) : string :=
  match s with
  | EmptyString => EmptyString
  | String c rest =>
      if Ascii.eqb c Ascii.zero then EmptyString else String c (c_str rest)
  end.

(** [ex.what()], a [const char*]: the message up to its first NUL, which
    it holds only when the unexpected token is the NUL character. *)
Definition what (e : EvalError) : string := c_str (message e).

(** The position an exception reports. *)
Definition reported (e : EvalError) : nat :=
  match e with
  | UnexpectedToken pos _ | DivisionByZero pos | UnmatchedParenthesis pos
  | ExpectedNumber pos | MalformedNumber pos | NumberConversionError pos => pos
  end.

(** ** Outcomes and the cursor monad *)

Inductive result (A : Type) : Type :=
| Ok (a : A)
| Throw (e : EvalError)
| OutOfFuel.

Arguments Ok {A} a.
Arguments Throw {A} e.
Arguments OutOfFuel {A}.

(** A member function: from the cursor before the call to the returned
    value and the cursor after it. *)
Definition Parser (A : Type) : Type := nat -> result (A * nat).

Definition ret {A} (a : A) : Parser A := fun pos => Ok (a, pos).

Definition throw {A} (e : nat -> EvalError) : Parser A :=
  fun pos => Throw (e pos).

Definition bind {A B} (c : Parser A) (k : A -> Parser B) : Parser B :=
  fun pos =>
    match c pos with
    | Ok (a, pos') => k a pos'
    | Throw e => Throw e
    | OutOfFuel => OutOfFuel
    end.

Declare Scope parser_scope.
Delimit Scope parser_scope with parser.
Notation "x <- c ;; k" := (bind c (fun x => k))
  (at level 61, c at next level, right associativity) : parser_scope.
Notation "c ;; k" := (bind c (fun _ => k))
  (at level 61, right associativity) : parser_scope.

Section Parser.

Context `{Libm}.

(** [std::string expr] *)
Variable expr : list ascii.

(** [expr.substr(start, n)] *)
Definition substr (start n : nat) : list ascii := firstn n (skipn start expr).

(** [while (pos < expr.size() && std::isspace(expr[pos])) ++pos;]
    The loop runs at most [expr.size() - pos] times. *)
Fixpoint skipWhitespace_loop (n pos : nat) : nat :=
  match n with
  | 0 => pos
  | S n' =>
      match nth_error expr pos with
      | Some c => if isspace c then skipWhitespace_loop n' (S pos) else pos
      | None => pos
      end
  end.

Definition skipWhitespace_pos (pos : nat) : nat :=
  skipWhitespace_loop (length expr - pos) pos.

Definition skipWhitespace : Parser unit :=
  fun pos => Ok (tt, skipWhitespace_pos pos).

(** [pos < expr.length() ? expr[pos] : '\0'] *)
Definition currentChar (pos : nat) : ascii :=
  match nth_error expr pos with
  | Some c => c
  | None => Ascii.zero
  end.

Definition match_ (expected : ascii) : Parser bool :=
  (skipWhitespace ;;
   fun pos =>
     match nth_error expr pos with
     | Some c => if Ascii.eqb c expected then Ok (true, S pos)
                 else Ok (false, pos)
     | None => Ok (false, pos)
     end)%parser.

(** The lexing loop of [parseNumber]: the cursor after the last character
    of the literal, or the exception for a second decimal point. *)
Fixpoint scanNumber (n : nat) (decimalPointSeen : bool) (pos : nat)
  : result nat :=
  match n with
  | 0 => Ok pos
  | S n' =>
      match nth_error expr pos with
      | Some c =>
          if isdigit c || is_point c then
            if is_point c then
              if decimalPointSeen then Throw (MalformedNumber pos)
              else scanNumber n' true (S pos)
            else scanNumber n' decimalPointSeen (S pos)
          else Ok pos
      | None => Ok pos
      end
  end.

Definition parseNumber : Parser double :=
  (skipWhitespace ;;
   fun start =>
     match scanNumber (length expr - start) false start with
     | Ok pos =>
         if start =? pos then Throw (ExpectedNumber pos)
         else
           match stod (substr start (pos - start)) with
           | Some number => Ok (number, pos)
           | None => Throw (NumberConversionError start)
           end
     | Throw e => Throw e
     | OutOfFuel => OutOfFuel
     end)%parser.

(** The grammar levels.  [parseExpression_loop] and [parseTerm_loop] are
    the [while (true)] loops of [parseExpression] and [parseTerm], with
    the accumulated [value] as argument. *)
Fixpoint parseExpression (fuel : nat) : Parser double :=
  match fuel with
  | 0 => fun _ => OutOfFuel
  | S fuel =>
      (value <- parseTerm fuel ;;
       parseExpression_loop fuel value)%parser
  end

with parseExpression_loop (fuel : nat) (value : double) : Parser double :=
  match fuel with
  | 0 => fun _ => OutOfFuel
  | S fuel =>
      (skipWhitespace ;;
       plus <- match_ "+" ;;
       if plus : bool then
         rhs <- parseTerm fuel ;;
         parseExpression_loop fuel (value + rhs)%float
       else
         minus <- match_ "-" ;;
         if minus : bool then
           rhs <- parseTerm fuel ;;
           parseExpression_loop fuel (value - rhs)%float
         else ret value)%parser
  end

with parseTerm (fuel : nat) : Parser double :=
  match fuel with
  | 0 => fun _ => OutOfFuel
  | S fuel =>
      (value <- parseExponent fuel ;;
       parseTerm_loop fuel value)%parser
  end

with parseTerm_loop (fuel : nat) (value : double) : Parser double :=
  match fuel with
  | 0 => fun _ => OutOfFuel
  | S fuel =>
      (skipWhitespace ;;
       times <- match_ "*" ;;
       if times : bool then
         rhs <- parseExponent fuel ;;
         parseTerm_loop fuel (value * rhs)%float
       else
         over <- match_ "/" ;;
         if over : bool then
           rhs <- parseExponent fuel ;;
           if (rhs =? 0)%float then throw DivisionByZero
           else parseTerm_loop fuel (value / rhs)%float
         else ret value)%parser
  end

with parseExponent (fuel : nat) : Parser double :=
  match fuel with
  | 0 => fun _ => OutOfFuel
  | S fuel =>
      (base <- parsePrimary fuel ;;
       skipWhitespace ;;
       hat <- match_ "^" ;;
       if hat : bool then
         exponent <- parseExponent fuel ;;
         ret (pow base exponent)
       else ret base)%parser
  end

with parsePrimary (fuel : nat) : Parser double :=
  match fuel with
  | 0 => fun _ => OutOfFuel
  | S fuel =>
      (skipWhitespace ;;
       plus <- match_ "+" ;;
       if plus : bool then parsePrimary fuel
       else
         minus <- match_ "-" ;;
         if minus : bool then
           value <- parsePrimary fuel ;;
           ret (- value)%float
         else
           paren <- match_ "(" ;;
           if paren : bool then
             value <- parseExpression fuel ;;
             skipWhitespace ;;
             closed <- match_ ")" ;;
             if closed : bool then ret value
             else throw UnmatchedParenthesis
           else parseNumber)%parser
  end.

(** [Parser::parse] *)
Definition parse (fuel : nat) : Parser double :=
  (result <- parseExpression fuel ;;
   skipWhitespace ;;
   fun pos =>
     if negb (pos =? length expr)
     then Throw (UnexpectedToken pos (currentChar pos))
     else Ok (result, pos))%parser.

End Parser.

(** Fuel that the evaluation of an input of [n] characters never exhausts. *)
Definition enough (n : nat) : nat := 4 * n + 4.

(** [Parser parser(input); parser.parse()]: a fresh cursor at 0, discarded
    at the end. *)
Definition evaluate `{Libm} (expression : string) : result double :=
  let expr := list_ascii_of_string expression in
  match parse expr (enough (length expr)) 0 with
  | Ok (value, _) => Ok value
  | Throw e => Throw e
  | OutOfFuel => OutOfFuel
  end.

(** The grammar levels as one family, for statements about all of them.
    [rank] orders them by the calls they can make without consuming input:
    a level calls only levels of lower rank before a character is consumed. *)
Inductive level : Type :=
| Primary
| Exponent
| TermLoop (value : double)
| Term
| ExpressionLoop (value : double)
| Expression.

Definition run_level `{Libm} (expr : list ascii) (l : level) (fuel : nat)
  : Parser double :=
  match l with
  | Primary => parsePrimary expr fuel
  | Exponent => parseExponent expr fuel
  | TermLoop value => parseTerm_loop expr fuel value
  | Term => parseTerm expr fuel
  | ExpressionLoop value => parseExpression_loop expr fuel value
  | Expression => parseExpression expr fuel
  end.

Definition rank (l : level) : nat :=
  match l with
  | Primary => 1
  | Exponent | TermLoop _ => 2
  | Term | ExpressionLoop _ => 3
  | Expression => 4
  end.

(** [c'] does whatever [c] does, wherever [c] has fuel enough. *)
Definition extends {A} (c c' : Parser A) : Prop :=
  forall pos, c pos <> OutOfFuel -> c' pos = c pos.

Definition never_exhausted {A} (c : Parser A) : Prop :=
  forall pos, c pos <> OutOfFuel.

(** [c] completes from every cursor [pos] for which [fuel] covers four
    calls per remaining character and [k] more. *)
Definition runs (expr : list ascii) (k fuel : nat) {A} (c : Parser A) : Prop :=
  forall pos, pos <= length expr ->
    4 * (length expr - pos) + k <= fuel -> c pos <> OutOfFuel.

(** [c] consumes at least one character whenever it returns. *)
Definition consumes (expr : list ascii) {A} (c : Parser A) : Prop :=
  forall pos a pos',
    pos <= length expr -> c pos = Ok (a, pos') -> pos < pos'.

(** ** Numeric literals, for statements about inputs built from them *)

Definition is_numeric (c : ascii) : bool := isdigit c || is_point c.

(** Digits with at most one decimal point, at least one character: the
    texts on which the lexing loop of [parseNumber] neither stops early nor
    throws. *)
Definition literal_chars (t : list ascii) : bool :=
  match t with
  | [] => false
  | _ :: _ => forallb is_numeric t && (length (filter is_point t) <=? 1)
  end.

Definition literal (s : string) : bool :=
  literal_chars (list_ascii_of_string s).

Definition literal_value `{Libm} (s : string) : option double :=
  stod (list_ascii_of_string s).

(** What follows a literal does not continue it. *)
Definition ends_literal (rest : list ascii) : bool :=
  match rest with
  | [] => true
  | c :: _ => negb (is_numeric c)
  end.

(** ** Inputs and a library for the examples *)

(** The two lines "2" and "+3" in one input. *)
Definition two_lines : string := String "2" (String "010" "+3").

(** The characters [std::isspace] accepts in the "C" locale: space,
    horizontal tab, line feed, vertical tab, form feed, carriage return. *)
Definition whitespace_chars : list ascii :=
  [" "; "009"; "010"; "011"; "012"; "013"]%char.

(** An implementation of [Libm] at which statements that assume values of
    [std::pow] are instantiated: the power by repeated multiplication for
    an exponent among 0..9, and a range error on every underflow. *)
Module Sample.

Fixpoint power (x : double) (n : nat) : double :=
  match n with
  | 0 => 1%float
  | S n' => (x * power x n')%float
  end.

Definition exponents : list double := [0; 1; 2; 3; 4; 5; 6; 7; 8; 9]%float.

Fixpoint position (y : double) (l : list double) (n : nat) : option nat :=
  match l with
  | [] => None
  | z :: l' => if (y =? z)%float then Some n else position y l' (S n)
  end.

Definition pow_small (x y : double) : double :=
  match position y exponents 0 with
  | Some n => power x n
  | None => nan
  end.

Definition libm : Libm :=
  {| pow := pow_small; strtod_underflow_erange := fun _ => true |}.

End Sample.

(** ** The cursor stays inside the input and never moves back *)

(** The outcome [r] of a call started at [pos]: the cursor it leaves, or the
    position its exception reports, lies between [pos] and the end. *)
Definition within (expr : list ascii) (pos : nat) {A} (r : result (A * nat))
  : Prop :=
  match r with
  | Ok (_, pos') => pos <= pos' <= length expr
  | Throw e => pos <= reported e <= length expr
  | OutOfFuel => True
  end.

Definition keeps_cursor (expr : list ascii) {A} (c : Parser A) : Prop :=
  forall pos, pos <= length expr -> within expr pos (c pos).

(** The cursor points at no whitespace: at the end or at another character. *)
Definition significant (expr : list ascii) (pos : nat) : Prop :=
  match nth_error expr pos with
  | Some c => isspace c = false
  | None => True
  end.

(** ** What an exception says about the input *)

Definition numeric_at (expr : list ascii) (i : nat) : Prop :=
  exists c, nth_error expr i = Some c /\ is_numeric c = true.

(** The binary operators of the grammar. *)
Definition operator_chars : list ascii := ["^"; "*"; "/"; "+"; "-"]%char.

(** The input at the position an exception reports. *)
Definition explains `{Libm} (expr : list ascii) (e : EvalError) : Prop :=
  match e with
  | UnexpectedToken pos c =>
      nth_error expr pos = Some c /\ isspace c = false
      /\ ~ In c operator_chars
  | DivisionByZero pos =>
      exists q, S q < pos /\ nth_error expr q = Some "/"%char
  | UnmatchedParenthesis pos =>
      significant expr pos /\ nth_error expr pos <> Some ")"%char
      /\ exists q, q < pos /\ nth_error expr q = Some "("%char
  | ExpectedNumber pos =>
      significant expr pos
      /\ forall c, nth_error expr pos = Some c ->
                   is_numeric c = false
                   /\ c <> "+"%char /\ c <> "-"%char /\ c <> "("%char
  | MalformedNumber pos =>
      nth_error expr pos = Some "."%char
      /\ exists q, q < pos /\ nth_error expr q = Some "."%char
                   /\ forall i, q <= i < pos -> numeric_at expr i
  | NumberConversionError pos =>
      exists n, 0 < n /\ stod (substr expr pos n) = None
                /\ forall i, pos <= i < pos + n -> numeric_at expr i
  end.

Definition explained `{Libm} (expr : list ascii) {A} (r : result A) : Prop :=
  match r with
  | Throw e => explains expr e
  | _ => True
  end.

(** The cursor is on a significant character that is none of [ops], or at
    the end. *)
Definition settled (expr : list ascii) (ops : list ascii) (pos : nat) : Prop :=
  significant expr pos
  /\ forall c, In c ops -> nth_error expr pos <> Some c.

(** The operators a grammar level has ruled out where it returns; a
    primary returns right behind its last character and rules out nothing. *)
Definition ruled_out (l : level) : option (list ascii) :=
  match l with
  | Primary => None
  | Exponent => Some ["^"]
  | TermLoop _ | Term => Some ["^"; "*"; "/"]
  | ExpressionLoop _ | Expression => Some operator_chars
  end%char.

Definition returns_settled (expr : list ascii) (l : level) {A}
           (r : result (A * nat)) : Prop :=
  match r, ruled_out l with
  | Ok (_, p), Some ops => settled expr ops p
  | _, _ => True
  end.

(** Where the loop of a level starts: behind an operand of the level
    below. *)
Definition loop_entry (expr : list ascii) (l : level) (pos : nat) : Prop :=
  match l with
  | TermLoop _ => settled expr ["^"%char] pos
  | ExpressionLoop _ => settled expr ["^"; "*"; "/"]%char pos
  | _ => True
  end.

(** ** Unary signs *)

Definition is_sign (c : ascii) : bool := Ascii.eqb c "+" || Ascii.eqb c "-".

(** The value behind a row of signs: each minus negates. *)
Fixpoint signed (signs : list ascii) (v : double) : double :=
  match signs with
  | [] => v
  | c :: rest =>
      if Ascii.eqb c "-" then (- signed rest v)%float else signed rest v
  end.

(** ** Outcomes moved along the input *)

Definition shift_error (k : nat) (e : EvalError) : EvalError :=
  match e with
  | UnexpectedToken pos c => UnexpectedToken (k + pos) c
  | DivisionByZero pos => DivisionByZero (k + pos)
  | UnmatchedParenthesis pos => UnmatchedParenthesis (k + pos)
  | ExpectedNumber pos => ExpectedNumber (k + pos)
  | MalformedNumber pos => MalformedNumber (k + pos)
  | NumberConversionError pos => NumberConversionError (k + pos)
  end.

Definition shift_result (k : nat) {A} (r : result (A * nat))
  : result (A * nat) :=
  match r with
  | Ok (a, pos) => Ok (a, k + pos)
  | Throw e => Throw (shift_error k e)
  | OutOfFuel => OutOfFuel
  end.

(** The answer of [evaluate] with the positions moved. *)
Definition shift_answer (k : nat) (r : result double) : result double :=
  match r with
  | Throw e => Throw (shift_error k e)
  | _ => r
  end.

(** [c'] does at [k + pos] what [c] does at [pos]. *)
Definition shifted (k : nat) {A} (c' c : Parser A) : Prop :=
  forall pos, c' (k + pos) = shift_result k (c pos).

(** ** Inputs continued behind their end *)

(** A character that ends an expression without continuing it: no
    whitespace, no part of a literal, no binary operator. *)
Definition is_closer (c : ascii) : bool :=
  negb (isspace c) && negb (is_numeric c)
  && negb (existsb (Ascii.eqb c) operator_chars).

(** Whatever [c] returns from a cursor up to [n], [c'] returns too. *)
Definition carries_over (n : nat) {A} (c c' : Parser A) : Prop :=
  forall pos a p, pos <= n -> c pos = Ok (a, p) -> c' pos = Ok (a, p).

(** ** Whitespace behind the input *)

(** A cursor [p] on an input of [n] characters and the cursor [p'] on the
    same input followed by [m] whitespace characters: the same position,
    or the end of the first and a position in the whitespace. *)
Definition trails (n m p p' : nat) : Prop :=
  p <= n /\ (p' = p \/ (p = n /\ n <= p' <= n + m)).

(** Whatever [c] returns, [c'] returns from a trailing cursor, at a
    trailing cursor. *)
Definition follows (n m : nat) {A} (c c' : Parser A) : Prop :=
  forall pos pos' a p,
    trails n m pos pos' -> c pos = Ok (a, p) ->
    exists p', c' pos' = Ok (a, p') /\ trails n m p p'.

(** ** Chains of operands *)

(** The operands of a chain behind its first one, each with the operator
    in front of it. *)
Fixpoint chain (items : list (ascii * string)) : string :=
  match items with
  | [] => EmptyString
  | (op, t) :: rest => String op (t ++ chain rest)
  end.

Definition is_factor_op (c : ascii) : bool :=
  Ascii.eqb c "*" || Ascii.eqb c "/".

(** Sums and differences accumulated from left to right. *)
Fixpoint sum_chain `{Libm} (acc : double) (items : list (ascii * string))
  : option double :=
  match items with
  | [] => Some acc
  | (op, t) :: rest =>
      match literal_value t with
      | Some v =>
          sum_chain (if Ascii.eqb op "+" then acc + v else acc - v)%float rest
      | None => None
      end
  end.

(** Products and quotients accumulated from left to right; no value when
    a divisor is 0. *)
Fixpoint product_chain `{Libm} (acc : double) (items : list (ascii * string))
  : option double :=
  match items with
  | [] => Some acc
  | (op, t) :: rest =>
      match literal_value t with
      | Some v =>
          if Ascii.eqb op "*" then product_chain (acc * v)%float rest
          else if (v =? 0)%float then None
               else product_chain (acc / v)%float rest
      | None => None
      end
  end.

(** Literals joined by hats, and their power taken from right to left. *)
Fixpoint tower_text (first : string) (others : list string) : string :=
  match others with
  | [] => first
  | t :: rest => first ++ String "^" (tower_text t rest)
  end.

Fixpoint tower_value `{Libm} (first : string) (others : list string)
  : option double :=
  match others with
  | [] => literal_value first
  | t :: rest =>
      match literal_value first, tower_value t rest with
      | Some v, Some w => Some (pow v w)
      | _, _ => None
      end
  end.

(** ** Spellings of zero *)

(** A literal whose digits are all 0, with at least one digit. *)
Definition zero_literal (s : string) : bool :=
  literal s
  && existsb isdigit (list_ascii_of_string s)
  && forallb (fun c => is_point c || Ascii.eqb c "0") (list_ascii_of_string s).

(** ** The interactive loop

    [main] reads lines from [std::cin] until one is "exit".  The lines are
    a list; what is written to [std::cout] and [std::cerr] is a list of
    outputs, with the text of a result left as the [double] it prints.
    What the program does when the input ends before "exit" (reading from
    a failed stream) is not modelled: [None]. *)

Inductive output : Type :=
| Banner
| Prompt
| Goodbye
| Result (v : double)
| Error (message : string).

Fixpoint loop `{Libm} (lines : list string) : option (list output) :=
  match lines with
  | [] => None
  | input :: rest =>
      if String.eqb input "exit" then Some [Prompt; Goodbye]
      else
        match evaluate input, loop rest with
        | Ok v, Some out => Some (Prompt :: Result v :: out)
        | Throw e, Some out => Some (Prompt :: Error (what e) :: out)
        | _, _ => None
        end
  end.

Definition main `{Libm} (lines : list string) : option (list output) :=
  option_map (cons Banner) (loop lines).

(** The output that answers one line. *)
Definition answers `{Libm} (input : string) (o : output) : Prop :=
  match evaluate input with
  | Ok v => o = Result v
  | Throw e => o = Error (what e)
  | OutOfFuel => False
  end.

(** The outputs of the iterations that answer: a prompt before each. *)
Fixpoint prompted (os : list output) : list output :=
  match os with
  | [] => []
  | o :: rest => Prompt :: o :: prompted rest
  end.

(** ** Inputs continued by a division by zero *)

(** Whatever [c] returns from a cursor up to [n], [c'] returns too, unless
    it throws the division-by-zero error at [p]; [c'] may need more
    fuel. *)
Definition divided (n p : nat) {A} (c c' : Parser A) : Prop :=
  forall pos a q,
    pos <= n -> c pos = Ok (a, q) ->
    c' pos = OutOfFuel \/ c' pos = Ok (a, q)
    \/ c' pos = Throw (DivisionByZero p).

(** ** Where a division-by-zero error comes from *)

(** The outcome, if it is the division-by-zero error at [p], comes from a
    divisor of value 0: an exponent expression behind a division sign
    that ends at [p]. *)
Definition zero_divisor `{Libm} (expr : list ascii) {A} (r : result A)
  : Prop :=
  match r with
  | Throw (DivisionByZero p) =>
      exists q fuel rhs,
        nth_error expr q = Some "/"%char
        /\ parseExponent expr fuel (S q) = Ok (rhs, p)
        /\ (rhs =? 0)%float = true
  | _ => True
  end.

Definition divides_by_zero_only `{Libm} (expr : list ascii) {A}
           (c : Parser A) : Prop :=
  forall pos, zero_divisor expr (c pos).

Section Cursor.

Context `{Libm}.
Variable expr : list ascii.

Lemma nth_error_inside (pos : nat) (c : ascii) :
  nth_error expr pos = Some c -> pos < length expr.
Proof. intros E. apply nth_error_Some. congruence. Qed.

Lemma skipWhitespace_loop_within (n pos : nat) :
  pos <= length expr ->
  pos <= skipWhitespace_loop expr n pos <= length expr.
Proof.
  revert pos. induction n as [|n IH]; simpl; intros pos Hpos; [lia|].
  destruct (nth_error expr pos) as [c|] eqn:E; [|lia].
  destruct (isspace c); [|lia].
  apply nth_error_inside in E. specialize (IH (S pos)). lia.
Qed.

Lemma skipWhitespace_loop_skipped (n pos i : nat) :
  pos <= i < skipWhitespace_loop expr n pos ->
  exists c, nth_error expr i = Some c /\ isspace c = true.
Proof.
  revert pos. induction n as [|n IH]; simpl; intros pos Hi; [lia|].
  destruct (nth_error expr pos) as [c|] eqn:E; [|lia].
  destruct (isspace c) eqn:Ec; [|lia].
  destruct (Nat.eq_dec i pos) as [->|Hne]; [eauto|].
  apply (IH (S pos)). lia.
Qed.

Lemma skipWhitespace_loop_stops (n pos : nat) :
  length expr - pos <= n ->
  significant expr (skipWhitespace_loop expr n pos).
Proof.
  unfold significant. revert pos.
  induction n as [|n IH]; simpl; intros pos Hn.
  - replace (nth_error expr pos) with (@None ascii); [exact I|].
    symmetry. apply nth_error_None. lia.
  - destruct (nth_error expr pos) as [c|] eqn:E; [|now rewrite E].
    destruct (isspace c) eqn:Ec; [|now rewrite E].
    apply IH. lia.
Qed.

Lemma skipWhitespace_stops (pos : nat) :
  significant expr (skipWhitespace_pos expr pos).
Proof. apply skipWhitespace_loop_stops. lia. Qed.

Lemma skipWhitespace_fixed (pos : nat) :
  significant expr pos -> skipWhitespace_pos expr pos = pos.
Proof.
  unfold significant, skipWhitespace_pos.
  destruct (length expr - pos); simpl; [reflexivity|].
  destruct (nth_error expr pos); [|reflexivity].
  now intros ->.
Qed.

Lemma skipWhitespace_idempotent (pos : nat) :
  skipWhitespace_pos expr (skipWhitespace_pos expr pos)
  = skipWhitespace_pos expr pos.
Proof. apply skipWhitespace_fixed, skipWhitespace_stops. Qed.

Lemma match_unfold (expected : ascii) (pos : nat) :
  match_ expr expected pos =
  let p := skipWhitespace_pos expr pos in
  match nth_error expr p with
  | Some c => if Ascii.eqb c expected then Ok (true, S p) else Ok (false, p)
  | None => Ok (false, p)
  end.
Proof. reflexivity. Qed.

(** *** Rules for [keeps_cursor] *)

Lemma within_trans {A} (pos pos' : nat) (r : result (A * nat)) :
  pos <= pos' -> within expr pos' r -> within expr pos r.
Proof. destruct r as [[a p]|e|]; simpl; lia. Qed.

Lemma keeps_ret {A} (a : A) : keeps_cursor expr (ret a).
Proof. intros pos Hpos. simpl. lia. Qed.

Lemma keeps_throw {A} (e : nat -> EvalError) :
  (forall pos, reported (e pos) = pos) -> keeps_cursor expr (@throw A e).
Proof. intros He pos Hpos. simpl. rewrite He. lia. Qed.

Lemma keeps_bind {A B} (c : Parser A) (k : A -> Parser B) :
  keeps_cursor expr c -> (forall a, keeps_cursor expr (k a)) ->
  keeps_cursor expr (bind c k).
Proof.
  intros Hc Hk pos Hpos. unfold bind. specialize (Hc pos Hpos).
  destruct (c pos) as [[a p]|e|]; simpl in *; trivial.
  apply within_trans with p; [lia|]. apply Hk. lia.
Qed.

Lemma keeps_skipWhitespace : keeps_cursor expr (skipWhitespace expr).
Proof. intros pos Hpos. simpl. now apply skipWhitespace_loop_within. Qed.

Lemma keeps_match (expected : ascii) : keeps_cursor expr (match_ expr expected).
Proof.
  intros pos Hpos. rewrite match_unfold. cbv zeta.
  pose proof (skipWhitespace_loop_within (length expr - pos) pos Hpos) as Hs.
  fold (skipWhitespace_pos expr pos) in Hs.
  destruct (nth_error expr (skipWhitespace_pos expr pos)) as [c|] eqn:E;
    [|simpl; lia].
  apply nth_error_inside in E.
  destruct (Ascii.eqb c expected); simpl; lia.
Qed.

Lemma scanNumber_within (n : nat) (seen : bool) (pos : nat) :
  pos <= length expr ->
  match scanNumber expr n seen pos with
  | Ok pos' => pos <= pos' <= length expr
  | Throw e => pos <= reported e < length expr
  | OutOfFuel => False
  end.
Proof.
  revert seen pos. induction n as [|n IH]; simpl; intros seen pos Hpos; [lia|].
  destruct (nth_error expr pos) as [c|] eqn:E; [|lia].
  apply nth_error_inside in E.
  destruct (isdigit c || is_point c); [|lia].
  destruct (is_point c); [destruct seen; [simpl; lia|]|];
    match goal with
    | |- context [scanNumber expr n ?s (S pos)] =>
        specialize (IH s (S pos) E);
        destruct (scanNumber expr n s (S pos)); simpl in *; lia
    end.
Qed.

Lemma keeps_parseNumber : keeps_cursor expr (parseNumber expr).
Proof.
  unfold parseNumber. apply keeps_bind; [apply keeps_skipWhitespace|].
  intros _ start Hstart.
  pose proof (scanNumber_within (length expr - start) false start Hstart) as Hs.
  destruct (scanNumber expr (length expr - start) false start) as [pos|e|];
    simpl in *; [|lia|trivial].
  destruct (start =? pos); [simpl; lia|].
  destruct (stod (substr expr start (pos - start))); simpl; lia.
Qed.

End Cursor.

Ltac keeps_step :=
  match goal with
  | |- keeps_cursor _ (bind _ _) => apply keeps_bind; [|intros ?]
  | |- keeps_cursor _ (if ?b then _ else _) => destruct b
  | |- keeps_cursor _ (ret _) => apply keeps_ret
  | |- keeps_cursor _ (throw _) => apply keeps_throw; reflexivity
  | |- keeps_cursor _ (skipWhitespace _) => apply keeps_skipWhitespace
  | |- keeps_cursor _ (match_ _ _) => apply keeps_match
  | |- keeps_cursor _ (parseNumber _) => apply keeps_parseNumber
  end.

Ltac by_level IH :=
  first [ exact (IH Primary) | exact (IH Exponent) | exact (IH (TermLoop _))
        | exact (IH Term) | exact (IH (ExpressionLoop _))
        | exact (IH Expression) ].

Section CursorLevels.

Context `{Libm}.
Variable expr : list ascii.

Lemma keeps_levels (fuel : nat) (l : level) :
  keeps_cursor expr (run_level expr l fuel).
Proof.
  revert l. induction fuel as [|fuel IH]; intros l.
  - destruct l; intros pos Hpos; exact I.
  - destruct l; simpl; repeat (keeps_step || by_level IH).
Qed.

Lemma keeps_parse (fuel : nat) : keeps_cursor expr (parse expr fuel).
Proof.
  pose proof (keeps_levels fuel Expression) as IH.
  unfold parse. apply keeps_bind; [exact IH|]. intros result.
  repeat keeps_step. intros pos Hpos.
  destruct (pos =? length expr) eqn:E; simpl; lia.
Qed.

End CursorLevels.

Ltac keeps_level :=
  first [ exact (keeps_levels _ _ Primary) | exact (keeps_levels _ _ Exponent)
        | exact (keeps_levels _ _ (TermLoop _)) | exact (keeps_levels _ _ Term)
        | exact (keeps_levels _ _ (ExpressionLoop _))
        | exact (keeps_levels _ _ Expression) ].

(** ** Fuel: more never changes an outcome, and linear fuel suffices *)

Section Fuel.

Context `{Libm}.
Variable expr : list ascii.

Lemma extends_refl {A} (c : Parser A) : extends c c.
Proof. intros pos _. reflexivity. Qed.

Lemma extends_bind {A B} (c c' : Parser A) (k k' : A -> Parser B) :
  extends c c' -> (forall a, extends (k a) (k' a)) ->
  extends (bind c k) (bind c' k').
Proof.
  intros Hc Hk pos. unfold bind. intros Hrun.
  rewrite Hc by (intros E; now rewrite E in Hrun).
  destruct (c pos) as [[a p]|e|]; [now apply Hk|reflexivity|reflexivity].
Qed.

Lemma runs_never {A} (k fuel : nat) (c : Parser A) :
  never_exhausted c -> runs expr k fuel c.
Proof. intros Hc pos _ _. apply Hc. Qed.

Lemma runs_weaken {A} (k k' fuel fuel' : nat) (c : Parser A) :
  fuel' + k <= fuel + k' -> runs expr k fuel c -> runs expr k' fuel' c.
Proof. intros Hle Hc pos Hpos Hfuel. apply Hc; [assumption|lia]. Qed.

Lemma runs_bind {A B} (k fuel : nat) (c : Parser A) (f : A -> Parser B) :
  runs expr k fuel c -> keeps_cursor expr c ->
  (forall a, runs expr k fuel (f a)) ->
  runs expr k fuel (bind c f).
Proof.
  intros Hc Hkeep Hf pos Hpos Hfuel. unfold bind.
  specialize (Hc pos Hpos Hfuel). specialize (Hkeep pos Hpos).
  destruct (c pos) as [[a p]|e|]; simpl in *; [|discriminate|now elim Hc].
  apply Hf; lia.
Qed.

(** After a successful [match_] one character less remains: the branch
    taken has four more calls to spend. *)
Lemma runs_match {B} (k fuel : nat) (expected : ascii) (hit miss : Parser B) :
  runs expr (k + 4) fuel hit -> runs expr k fuel miss ->
  runs expr k fuel
    (bind (match_ expr expected) (fun b : bool => if b then hit else miss)).
Proof.
  intros Hhit Hmiss pos Hpos Hfuel. unfold bind. rewrite match_unfold.
  cbv zeta.
  pose proof (skipWhitespace_loop_within expr (length expr - pos) pos Hpos) as Hs.
  fold (skipWhitespace_pos expr pos) in Hs.
  destruct (nth_error expr (skipWhitespace_pos expr pos)) as [c|] eqn:E.
  - apply nth_error_inside in E.
    destruct (Ascii.eqb c expected); [apply Hhit|apply Hmiss]; lia.
  - apply Hmiss; lia.
Qed.

Lemma never_ret {A} (a : A) : never_exhausted (ret a).
Proof. intros pos. discriminate. Qed.

Lemma never_throw {A} (e : nat -> EvalError) : never_exhausted (@throw A e).
Proof. intros pos. discriminate. Qed.

Lemma never_skipWhitespace : never_exhausted (skipWhitespace expr).
Proof. intros pos. discriminate. Qed.

Lemma scanNumber_completes (n : nat) (seen : bool) (pos : nat) :
  scanNumber expr n seen pos <> OutOfFuel.
Proof.
  revert seen pos. induction n as [|n IH]; simpl; intros seen pos;
    [discriminate|].
  destruct (nth_error expr pos) as [c|]; [|discriminate].
  destruct (isdigit c || is_point c); [|discriminate].
  destruct (is_point c); [destruct seen; [discriminate|]|]; apply IH.
Qed.

Lemma never_parseNumber : never_exhausted (parseNumber expr).
Proof.
  intros pos. unfold parseNumber, bind, skipWhitespace.
  pose proof (scanNumber_completes
                (length expr - skipWhitespace_pos expr pos) false
                (skipWhitespace_pos expr pos)) as Hs.
  destruct (scanNumber expr _ false _) as [p|e|];
    [|discriminate|contradiction].
  destruct (_ =? p); [discriminate|].
  destruct (stod _); discriminate.
Qed.

End Fuel.

Ltac extends_step :=
  match goal with
  | |- extends ?c ?c => apply extends_refl
  | |- extends (bind _ _) (bind _ _) => apply extends_bind; [|intros ?]
  | |- extends (if ?b then _ else _) _ => destruct b
  end.

Ltac runs_step IH :=
  match goal with
  | |- runs _ _ _ (bind (match_ _ _) _) => apply runs_match
  | |- runs _ _ _ (bind _ _) =>
      apply runs_bind;
        [| solve [repeat keeps_step | keeps_level]
         | intros ?]
  | |- runs _ _ _ (if ?b then _ else _) => destruct b
  | |- runs _ _ _ (ret _) => apply runs_never, never_ret
  | |- runs _ _ _ (throw _) => apply runs_never, never_throw
  | |- runs _ _ _ (skipWhitespace _) => apply runs_never, never_skipWhitespace
  | |- runs _ _ _ (parseNumber _) => apply runs_never, never_parseNumber
  | |- runs _ _ _ (?f _ ?fuel) =>
      first [ eapply runs_weaken; [|exact (IH Primary)]; simpl; lia
            | eapply runs_weaken; [|exact (IH Exponent)]; simpl; lia
            | eapply runs_weaken; [|exact (IH Term)]; simpl; lia
            | eapply runs_weaken; [|exact (IH Expression)]; simpl; lia ]
  | |- runs _ _ _ (?f _ ?fuel _) =>
      first [ eapply runs_weaken; [|exact (IH (TermLoop _))]; simpl; lia
            | eapply runs_weaken; [|exact (IH (ExpressionLoop _))]; simpl; lia ]
  end.

Section FuelLevels.

Context `{Libm}.
Variable expr : list ascii.

Lemma extends_levels (fuel fuel' : nat) (l : level) :
  fuel <= fuel' -> extends (run_level expr l fuel) (run_level expr l fuel').
Proof.
  revert fuel' l. induction fuel as [|fuel IH]; intros fuel' l Hle.
  - destruct l; intros pos Hrun; now elim Hrun.
  - destruct fuel' as [|fuel']; [lia|].
    assert (forall l, extends (run_level expr l fuel) (run_level expr l fuel'))
      as IH' by (intros; apply IH; lia).
    destruct l; simpl; repeat (extends_step || by_level IH').
Qed.

Lemma extends_parse (fuel fuel' : nat) :
  fuel <= fuel' -> extends (parse expr fuel) (parse expr fuel').
Proof.
  intros Hle. unfold parse. apply extends_bind.
  - now apply (extends_levels fuel fuel' Expression).
  - intros result. apply extends_refl.
Qed.

Lemma runs_levels (fuel : nat) (l : level) :
  runs expr (rank l) fuel (run_level expr l fuel).
Proof.
  revert l. induction fuel as [|fuel IH]; intros l.
  - intros pos Hpos Hfuel. destruct l; simpl in Hfuel; lia.
  - destruct l; simpl; repeat runs_step IH.
Qed.

Lemma runs_parse (fuel : nat) : runs expr 4 fuel (parse expr fuel).
Proof.
  unfold parse. apply runs_bind.
  - apply (runs_levels fuel Expression).
  - apply (keeps_levels expr fuel Expression).
  - intros result pos Hpos Hfuel. unfold bind, skipWhitespace.
    destruct (negb _); discriminate.
Qed.

End FuelLevels.

(** ** Progress: a grammar level that returns has consumed input *)

Section Progress.

Context `{Libm}.
Variable expr : list ascii.

Lemma consumes_first {A B} (c : Parser A) (k : A -> Parser B) :
  consumes expr c -> keeps_cursor expr c ->
  (forall a, keeps_cursor expr (k a)) ->
  consumes expr (bind c k).
Proof.
  intros Hc Hkeep Hk pos b pos' Hpos. unfold bind.
  specialize (Hc pos). specialize (Hkeep pos Hpos).
  destruct (c pos) as [[a p]|e|]; [|discriminate..].
  intros Hb. specialize (Hc a p Hpos eq_refl). simpl in Hkeep.
  pose proof (Hk a p (proj2 Hkeep)) as Hp. rewrite Hb in Hp. simpl in Hp. lia.
Qed.

Lemma consumes_then {A B} (c : Parser A) (k : A -> Parser B) :
  keeps_cursor expr c -> (forall a, consumes expr (k a)) ->
  consumes expr (bind c k).
Proof.
  intros Hkeep Hk pos b pos' Hpos. unfold bind.
  specialize (Hkeep pos Hpos).
  destruct (c pos) as [[a p]|e|]; [|discriminate..].
  intros Hb. simpl in Hkeep.
  pose proof (Hk a p b pos' (proj2 Hkeep) Hb). lia.
Qed.

Lemma consumes_match {B} (expected : ascii) (hit miss : Parser B) :
  keeps_cursor expr hit -> consumes expr miss ->
  consumes expr
    (bind (match_ expr expected) (fun b : bool => if b then hit else miss)).
Proof.
  intros Hhit Hmiss pos b pos' Hpos. unfold bind. rewrite match_unfold.
  cbv zeta.
  pose proof (skipWhitespace_loop_within expr (length expr - pos) pos Hpos)
    as Hs.
  fold (skipWhitespace_pos expr pos) in Hs.
  destruct (nth_error expr (skipWhitespace_pos expr pos)) as [c|] eqn:E.
  - apply nth_error_inside in E.
    destruct (Ascii.eqb c expected); intros Hb.
    + pose proof (Hhit _ E) as Hp. rewrite Hb in Hp. simpl in Hp. lia.
    + pose proof (Hmiss _ _ _ (proj2 Hs) Hb). lia.
  - intros Hb. pose proof (Hmiss _ _ _ (proj2 Hs) Hb). lia.
Qed.

Lemma consumes_parseNumber : consumes expr (parseNumber expr).
Proof.
  intros pos v pos' Hpos. unfold parseNumber, bind, skipWhitespace.
  pose proof (skipWhitespace_loop_within expr (length expr - pos) pos Hpos)
    as Hs.
  fold (skipWhitespace_pos expr pos) in Hs.
  set (start := skipWhitespace_pos expr pos) in *.
  pose proof (scanNumber_within expr (length expr - start) false start
                (proj2 Hs)) as Hn.
  destruct (scanNumber expr (length expr - start) false start) as [p|e|];
    [|discriminate..].
  destruct (start =? p) eqn:Ep; [discriminate|].
  apply Nat.eqb_neq in Ep.
  destruct (stod _); [|discriminate].
  intros [= _ <-]. lia.
Qed.

Lemma consumes_parsePrimary (fuel : nat) :
  consumes expr (parsePrimary expr fuel).
Proof.
  destruct fuel as [|fuel]; [intros pos v pos' _; discriminate|].
  simpl. apply consumes_then; [apply keeps_skipWhitespace|]. intros _.
  repeat (apply consumes_match; [repeat keeps_step; keeps_level|]).
  apply consumes_parseNumber.
Qed.

Lemma consumes_parseExponent (fuel : nat) :
  consumes expr (parseExponent expr fuel).
Proof.
  destruct fuel as [|fuel]; [intros pos v pos' _; discriminate|].
  simpl. apply consumes_first;
    [apply consumes_parsePrimary|keeps_level|intros base].
  repeat (keeps_step || keeps_level).
Qed.

Lemma consumes_parseTerm (fuel : nat) : consumes expr (parseTerm expr fuel).
Proof.
  destruct fuel as [|fuel]; [intros pos v pos' _; discriminate|].
  simpl. apply consumes_first;
    [apply consumes_parseExponent|keeps_level|intros value; keeps_level].
Qed.

Lemma consumes_parseExpression (fuel : nat) :
  consumes expr (parseExpression expr fuel).
Proof.
  destruct fuel as [|fuel]; [intros pos v pos' _; discriminate|].
  simpl. apply consumes_first;
    [apply consumes_parseTerm|keeps_level|intros value; keeps_level].
Qed.

End Progress.

(** ** Stepping the parser over a known input *)

Section Steps.

Context `{Libm}.
Variable expr : list ascii.

Lemma view_head (pos : nat) (c : ascii) (rest : list ascii) :
  skipn pos expr = c :: rest -> nth_error expr pos = Some c.
Proof. intros V. rewrite <- hd_error_skipn, V. reflexivity. Qed.

Lemma view_tail (pos : nat) (c : ascii) (rest : list ascii) :
  skipn pos expr = c :: rest -> skipn (S pos) expr = rest.
Proof.
  intros V. change (S pos) with (1 + pos). now rewrite <- skipn_skipn, V.
Qed.

Lemma view_end (pos : nat) :
  skipn pos expr = [] -> nth_error expr pos = None.
Proof. intros V. rewrite <- hd_error_skipn, V. reflexivity. Qed.

Lemma view_app (pos : nat) (t rest : list ascii) :
  skipn pos expr = t ++ rest -> skipn (pos + length t) expr = rest.
Proof.
  intros V. rewrite Nat.add_comm, <- skipn_skipn, V, skipn_app.
  now rewrite skipn_all, Nat.sub_diag.
Qed.

Lemma numeric_char (c : ascii) :
  is_numeric c = true ->
  isspace c = false /\ c <> "+"%char /\ c <> "-"%char /\ c <> "("%char.
Proof.
  destruct c as [[] [] [] [] [] [] [] []]; vm_compute; intros E;
    repeat split; try reflexivity; discriminate.
Qed.

Lemma bind_skip {B} (pos : nat) (k : unit -> Parser B) :
  significant expr pos -> bind (skipWhitespace expr) k pos = k tt pos.
Proof.
  intros Hs. unfold bind, skipWhitespace. now rewrite skipWhitespace_fixed.
Qed.

Lemma bind_match_hit {B} (pos : nat) (c : ascii) (k : bool -> Parser B) :
  nth_error expr pos = Some c -> isspace c = false ->
  bind (match_ expr c) k pos = k true (S pos).
Proof.
  intros E Hc. unfold bind. rewrite match_unfold. cbv zeta.
  rewrite skipWhitespace_fixed by (unfold significant; now rewrite E).
  now rewrite E, Ascii.eqb_refl.
Qed.

Lemma bind_match_miss {B} (pos : nat) (c : ascii) (k : bool -> Parser B) :
  significant expr pos -> nth_error expr pos <> Some c ->
  bind (match_ expr c) k pos = k false pos.
Proof.
  intros Hs Hc. unfold bind. rewrite match_unfold. cbv zeta.
  rewrite skipWhitespace_fixed by assumption.
  destruct (nth_error expr pos) as [d|]; [|reflexivity].
  destruct (Ascii.eqb_spec d c) as [->|_]; [now elim Hc|reflexivity].
Qed.

(** *** The lexing loop on a literal *)

Lemma scanNumber_literal (t rest : list ascii) :
  ends_literal rest = true ->
  forall (n : nat) (seen : bool) (pos : nat),
    skipn pos expr = t ++ rest ->
    forallb is_numeric t = true ->
    length (filter is_point t) + (if seen then 1 else 0) <= 1 ->
    length expr - pos <= n ->
    scanNumber expr n seen pos = Ok (pos + length t).
Proof.
  intros Hrest. induction t as [|d t IH]; intros n seen pos V Hnum Hpts Hn.
  - simpl in V. rewrite Nat.add_0_r.
    destruct n as [|n]; simpl; [reflexivity|].
    destruct rest as [|c rest'].
    + now rewrite (view_end pos V).
    + rewrite (view_head pos _ _ V). simpl in Hrest.
      unfold is_numeric in Hrest.
      now destruct (isdigit c || is_point c).
  - simpl in V, Hnum, Hpts. apply andb_prop in Hnum as [Hd Hnum].
    pose proof (view_head pos _ _ V) as E.
    pose proof (nth_error_inside expr pos _ E) as Hin.
    destruct n as [|n]; [lia|]. simpl. rewrite E.
    unfold is_numeric in Hd. rewrite Hd.
    replace (pos + S (length t)) with (S pos + length t) by lia.
    destruct (is_point d); simpl in Hpts.
    + destruct seen; [lia|].
      apply IH; [exact (view_tail pos _ _ V)|assumption|lia|lia].
    + apply IH; [exact (view_tail pos _ _ V)|assumption|lia|lia].
Qed.

Lemma parseNumber_literal (pos : nat) (t rest : list ascii) :
  skipn pos expr = t ++ rest ->
  literal_chars t = true -> ends_literal rest = true ->
  parseNumber expr pos =
  match stod t with
  | Some number => Ok (number, pos + length t)
  | None => Throw (NumberConversionError pos)
  end.
Proof.
  intros V Ht Hrest. unfold literal_chars in Ht.
  destruct t as [|d t']; [discriminate|]. set (t := d :: t') in *.
  apply andb_prop in Ht as [Hnum Hpts]. apply Nat.leb_le in Hpts.
  assert (nth_error expr pos = Some d) as E by exact (view_head pos _ _ V).
  assert (is_numeric d = true) as Hd
      by (simpl in Hnum; now apply andb_prop in Hnum).
  unfold parseNumber. rewrite bind_skip
    by (unfold significant; rewrite E; now apply numeric_char).
  rewrite (scanNumber_literal t rest Hrest) by (trivial; lia).
  replace (pos =? pos + length t) with false
    by (symmetry; apply Nat.eqb_neq; simpl; lia).
  unfold substr. rewrite V.
  replace (pos + length t - pos) with (length t + 0) by lia.
  now rewrite firstn_app_2, app_nil_r.
Qed.

(** *** One step of each grammar level *)

Lemma parsePrimary_literal (fuel pos : nat) (t rest : list ascii) :
  skipn pos expr = t ++ rest ->
  literal_chars t = true -> ends_literal rest = true ->
  parsePrimary expr (S fuel) pos =
  match stod t with
  | Some number => Ok (number, pos + length t)
  | None => Throw (NumberConversionError pos)
  end.
Proof.
  intros V Ht Hrest. rewrite <- (parseNumber_literal pos t rest V Ht Hrest).
  unfold literal_chars in Ht. destruct t as [|d t']; [discriminate|].
  apply andb_prop in Ht as [Hnum _]. simpl in Hnum.
  apply andb_prop in Hnum as [Hd _].
  destruct (numeric_char d Hd) as (Hs & Hplus & Hminus & Hparen).
  pose proof (view_head pos _ _ V) as E.
  assert (significant expr pos) as Hsig by (unfold significant; now rewrite E).
  simpl parsePrimary. rewrite bind_skip by assumption.
  rewrite !bind_match_miss by (trivial; rewrite E; congruence).
  reflexivity.
Qed.

Lemma parsePrimary_plus (fuel pos : nat) :
  nth_error expr pos = Some "+"%char ->
  parsePrimary expr (S fuel) pos = parsePrimary expr fuel (S pos).
Proof.
  intros E. simpl parsePrimary.
  rewrite bind_skip by (unfold significant; now rewrite E).
  now rewrite (bind_match_hit pos "+" _ E).
Qed.

Lemma parsePrimary_minus (fuel pos : nat) :
  nth_error expr pos = Some "-"%char ->
  parsePrimary expr (S fuel) pos =
  bind (parsePrimary expr fuel) (fun value => ret (- value)%float) (S pos).
Proof.
  intros E.
  assert (significant expr pos) as Hsig by (unfold significant; now rewrite E).
  simpl parsePrimary. rewrite bind_skip by assumption.
  rewrite bind_match_miss by (trivial; rewrite E; discriminate).
  now rewrite (bind_match_hit pos "-" _ E).
Qed.

Lemma parsePrimary_paren (fuel pos : nat) :
  nth_error expr pos = Some "("%char ->
  parsePrimary expr (S fuel) pos =
  (value <- parseExpression expr fuel ;;
   skipWhitespace expr ;;
   closed <- match_ expr ")" ;;
   if closed : bool then ret value else throw UnmatchedParenthesis)%parser
    (S pos).
Proof.
  intros E.
  assert (significant expr pos) as Hsig by (unfold significant; now rewrite E).
  simpl parsePrimary. rewrite bind_skip by assumption.
  rewrite !bind_match_miss by (trivial; rewrite E; discriminate).
  now rewrite (bind_match_hit pos "(" _ E).
Qed.

Lemma parseExponent_hat (fuel pos : nat) (base : double) (p : nat) :
  parsePrimary expr fuel pos = Ok (base, p) ->
  nth_error expr p = Some "^"%char ->
  parseExponent expr (S fuel) pos =
  bind (parseExponent expr fuel) (fun exponent => ret (pow base exponent))
    (S p).
Proof.
  intros Hbase E. simpl parseExponent. unfold bind at 1. rewrite Hbase.
  rewrite bind_skip by (unfold significant; now rewrite E).
  now rewrite (bind_match_hit p "^" _ E).
Qed.

Lemma parseExponent_end (fuel pos : nat) (base : double) (p : nat) :
  parsePrimary expr fuel pos = Ok (base, p) ->
  significant expr p -> nth_error expr p <> Some "^"%char ->
  parseExponent expr (S fuel) pos = Ok (base, p).
Proof.
  intros Hbase Hsig E. simpl parseExponent. unfold bind at 1. rewrite Hbase.
  rewrite bind_skip by assumption. now rewrite bind_match_miss.
Qed.

Lemma parseTerm_loop_times (fuel : nat) (value : double) (pos : nat) :
  nth_error expr pos = Some "*"%char ->
  parseTerm_loop expr (S fuel) value pos =
  bind (parseExponent expr fuel)
    (fun rhs => parseTerm_loop expr fuel (value * rhs)%float) (S pos).
Proof.
  intros E. simpl parseTerm_loop.
  rewrite bind_skip by (unfold significant; now rewrite E).
  now rewrite (bind_match_hit pos "*" _ E).
Qed.

Lemma parseTerm_loop_over (fuel : nat) (value : double) (pos : nat) :
  nth_error expr pos = Some "/"%char ->
  parseTerm_loop expr (S fuel) value pos =
  bind (parseExponent expr fuel)
    (fun rhs => if (rhs =? 0)%float then throw DivisionByZero
                else parseTerm_loop expr fuel (value / rhs)%float) (S pos).
Proof.
  intros E.
  assert (significant expr pos) as Hsig by (unfold significant; now rewrite E).
  simpl parseTerm_loop. rewrite bind_skip by assumption.
  rewrite bind_match_miss by (trivial; rewrite E; discriminate).
  now rewrite (bind_match_hit pos "/" _ E).
Qed.

Lemma parseTerm_loop_end (fuel : nat) (value : double) (pos : nat) :
  significant expr pos ->
  nth_error expr pos <> Some "*"%char -> nth_error expr pos <> Some "/"%char ->
  parseTerm_loop expr (S fuel) value pos = Ok (value, pos).
Proof.
  intros Hsig Htimes Hover. simpl parseTerm_loop.
  rewrite bind_skip by assumption. now rewrite !bind_match_miss.
Qed.

Lemma parseExpression_loop_plus (fuel : nat) (value : double) (pos : nat) :
  nth_error expr pos = Some "+"%char ->
  parseExpression_loop expr (S fuel) value pos =
  bind (parseTerm expr fuel)
    (fun rhs => parseExpression_loop expr fuel (value + rhs)%float) (S pos).
Proof.
  intros E. simpl parseExpression_loop.
  rewrite bind_skip by (unfold significant; now rewrite E).
  now rewrite (bind_match_hit pos "+" _ E).
Qed.

Lemma parseExpression_loop_minus (fuel : nat) (value : double) (pos : nat) :
  nth_error expr pos = Some "-"%char ->
  parseExpression_loop expr (S fuel) value pos =
  bind (parseTerm expr fuel)
    (fun rhs => parseExpression_loop expr fuel (value - rhs)%float) (S pos).
Proof.
  intros E.
  assert (significant expr pos) as Hsig by (unfold significant; now rewrite E).
  simpl parseExpression_loop. rewrite bind_skip by assumption.
  rewrite bind_match_miss by (trivial; rewrite E; discriminate).
  now rewrite (bind_match_hit pos "-" _ E).
Qed.

Lemma parseExpression_loop_end (fuel : nat) (value : double) (pos : nat) :
  significant expr pos ->
  nth_error expr pos <> Some "+"%char -> nth_error expr pos <> Some "-"%char ->
  parseExpression_loop expr (S fuel) value pos = Ok (value, pos).
Proof.
  intros Hsig Hplus Hminus. simpl parseExpression_loop.
  rewrite bind_skip by assumption. now rewrite !bind_match_miss.
Qed.

End Steps.

(** ** From a run of the parser to the answer of [evaluate] *)

Section Answers.

Context `{Libm}.

Lemma list_ascii_of_string_app (a b : string) :
  list_ascii_of_string (a ++ b)
  = list_ascii_of_string a ++ list_ascii_of_string b.
Proof. induction a as [|c a IH]; simpl; [reflexivity|now rewrite IH]. Qed.

Lemma length_list_ascii_of_string (s : string) :
  length (list_ascii_of_string s) = String.length s.
Proof. induction s as [|c s IH]; simpl; [reflexivity|now rewrite IH]. Qed.

Lemma parse_never_exhausted (expr : list ascii) :
  parse expr (enough (length expr)) 0 <> OutOfFuel.
Proof. apply runs_parse; unfold enough; lia. Qed.

Lemma parse_enough (expr : list ascii) (fuel : nat) (r : result (double * nat)) :
  parse expr fuel 0 = r -> r <> OutOfFuel ->
  parse expr (enough (length expr)) 0 = r.
Proof.
  intros Hr Hrun. subst r.
  rewrite <- (extends_parse expr fuel (Nat.max fuel (enough (length expr))))
    by (trivial; lia).
  symmetry. apply extends_parse; [lia|apply parse_never_exhausted].
Qed.

Lemma evaluate_returns (expression : string) (fuel : nat) (v : double)
      (p : nat) :
  parse (list_ascii_of_string expression) fuel 0 = Ok (v, p) ->
  evaluate expression = Ok v.
Proof.
  intros Hp. unfold evaluate.
  now rewrite (parse_enough _ fuel _ Hp) by discriminate.
Qed.

Lemma evaluate_throws (expression : string) (fuel : nat) (e : EvalError) :
  parse (list_ascii_of_string expression) fuel 0 = Throw e ->
  evaluate expression = Throw e.
Proof.
  intros Hp. unfold evaluate.
  now rewrite (parse_enough _ fuel _ Hp) by discriminate.
Qed.

Variable expr : list ascii.

Lemma at_end_significant (p : nat) :
  nth_error expr p = None -> significant expr p.
Proof. intros E. unfold significant. now rewrite E. Qed.

Lemma parseTerm_S (fuel pos : nat) :
  parseTerm expr (S fuel) pos
  = bind (parseExponent expr fuel) (parseTerm_loop expr fuel) pos.
Proof. reflexivity. Qed.

Lemma parseExpression_S (fuel pos : nat) :
  parseExpression expr (S fuel) pos
  = bind (parseTerm expr fuel) (parseExpression_loop expr fuel) pos.
Proof. reflexivity. Qed.

Lemma parseTerm_at_end (fuel pos : nat) (v : double) (p : nat) :
  parseExponent expr fuel pos = Ok (v, p) -> nth_error expr p = None ->
  parseTerm expr (S fuel) pos = Ok (v, p).
Proof.
  intros He E. destruct fuel as [|fuel]; [discriminate|].
  rewrite parseTerm_S. unfold bind. rewrite He.
  apply parseTerm_loop_end; [now apply at_end_significant|..];
    rewrite E; discriminate.
Qed.

Lemma parseExpression_at_end (fuel pos : nat) (v : double) (p : nat) :
  parseTerm expr fuel pos = Ok (v, p) -> nth_error expr p = None ->
  parseExpression expr (S fuel) pos = Ok (v, p).
Proof.
  intros Ht E. destruct fuel as [|fuel]; [discriminate|].
  rewrite parseExpression_S. unfold bind. rewrite Ht.
  apply parseExpression_loop_end; [now apply at_end_significant|..];
    rewrite E; discriminate.
Qed.

Lemma parse_at_end (fuel : nat) (v : double) (p : nat) :
  parseExpression expr fuel 0 = Ok (v, p) -> nth_error expr p = None ->
  parse expr fuel 0 = Ok (v, p).
Proof.
  intros Hx E. unfold parse. unfold bind at 1. rewrite Hx.
  rewrite bind_skip by now apply at_end_significant.
  pose proof (keeps_levels expr fuel Expression 0 (Nat.le_0_l _)) as Hk.
  simpl in Hk. rewrite Hx in Hk. apply nth_error_None in E.
  replace (p =? length expr) with true
    by (symmetry; apply Nat.eqb_eq; simpl in Hk; lia).
  reflexivity.
Qed.

(** An exponent expression that reaches the end of the input is the whole
    expression. *)
Lemma parse_exponent_to_end (fuel : nat) (v : double) (p : nat) :
  parseExponent expr fuel 0 = Ok (v, p) -> nth_error expr p = None ->
  parse expr (S (S fuel)) 0 = Ok (v, p).
Proof.
  intros He E. apply parse_at_end; [|exact E].
  apply parseExpression_at_end; [|exact E].
  now apply parseTerm_at_end.
Qed.

End Answers.

(** ** Inputs built from literals *)

Section Literals.

Context `{Libm}.

(** A literal that ends the input, as an exponent expression. *)
Lemma parseExponent_last (expr : list ascii) (fuel pos : nat)
      (t : list ascii) (v : double) :
  skipn pos expr = t ++ [] -> literal_chars t = true -> stod t = Some v ->
  parseExponent expr (S (S fuel)) pos = Ok (v, pos + length t)
  /\ nth_error expr (pos + length t) = None.
Proof.
  intros V Ht Hv.
  pose proof (parsePrimary_literal expr fuel pos t [] V Ht eq_refl) as P.
  rewrite Hv in P.
  pose proof (view_end expr _ (view_app expr pos t [] V)) as E.
  split; [|exact E].
  apply parseExponent_end with (1 := P);
    [now apply at_end_significant|rewrite E; discriminate].
Qed.

(** A literal followed by an operator other than the hat, as an exponent
    expression. *)
Lemma parseExponent_operand (expr : list ascii) (fuel pos : nat)
      (t : list ascii) (v : double) (op : ascii) (rest : list ascii) :
  skipn pos expr = t ++ op :: rest ->
  literal_chars t = true -> stod t = Some v ->
  is_numeric op = false -> isspace op = false -> op <> "^"%char ->
  parseExponent expr (S (S fuel)) pos = Ok (v, pos + length t)
  /\ nth_error expr (pos + length t) = Some op.
Proof.
  intros V Ht Hv Hnum Hsp Hop.
  assert (ends_literal (op :: rest) = true) as Hend by (simpl; now rewrite Hnum).
  pose proof (parsePrimary_literal expr fuel pos t _ V Ht Hend) as P.
  rewrite Hv in P.
  pose proof (view_head expr _ _ _ (view_app expr pos t _ V)) as E.
  split; [|exact E].
  apply parseExponent_end with (1 := P);
    [unfold significant; now rewrite E|rewrite E; congruence].
Qed.

(** A literal raised to what follows the hat. *)
Lemma parseExponent_power (expr : list ascii) (fuel pos : nat)
      (t : list ascii) (v : double) (rest : list ascii) :
  skipn pos expr = t ++ "^"%char :: rest ->
  literal_chars t = true -> stod t = Some v ->
  parseExponent expr (S (S fuel)) pos =
  bind (parseExponent expr (S fuel)) (fun exponent => ret (pow v exponent))
    (S (pos + length t))
  /\ skipn (S (pos + length t)) expr = rest.
Proof.
  intros V Ht Hv.
  pose proof (parsePrimary_literal expr fuel pos t _ V Ht eq_refl) as P.
  rewrite Hv in P.
  pose proof (view_app expr pos t _ V) as V'.
  split; [|exact (view_tail expr _ _ _ V')].
  exact (parseExponent_hat expr (S fuel) pos v _ P (view_head expr _ _ _ V')).
Qed.

Lemma tower_parse (a b c : list ascii) (va vb vc : double) :
  literal_chars a = true -> literal_chars b = true -> literal_chars c = true ->
  stod a = Some va -> stod b = Some vb -> stod c = Some vc ->
  exists p,
    parse (a ++ "^"%char :: b ++ "^"%char :: c) 6 0
    = Ok (pow va (pow vb vc), p).
Proof.
  intros Ha Hb Hc Hva Hvb Hvc.
  set (expr := a ++ "^"%char :: b ++ "^"%char :: c).
  assert (skipn 0 expr = a ++ "^"%char :: b ++ "^"%char :: c ++ []) as V
      by (simpl; now rewrite app_nil_r).
  destruct (parseExponent_power expr 2 0 a va _ V Ha Hva) as [Ea Vb].
  destruct (parseExponent_power expr 1 _ b vb _ Vb Hb Hvb) as [Eb Vc].
  destruct (parseExponent_last expr 0 _ c vc Vc Hc Hvc) as [Ec E].
  eexists. apply parse_exponent_to_end; [|exact E].
  rewrite Ea. unfold bind at 1. rewrite Eb. unfold bind at 1. rewrite Ec.
  reflexivity.
Qed.

Lemma product_power_parse (a b c : list ascii) (va vb vc : double) :
  literal_chars a = true -> literal_chars b = true -> literal_chars c = true ->
  stod a = Some va -> stod b = Some vb -> stod c = Some vc ->
  exists p,
    parse (a ++ "*"%char :: b ++ "^"%char :: c) 6 0
    = Ok ((va * pow vb vc)%float, p).
Proof.
  intros Ha Hb Hc Hva Hvb Hvc.
  set (expr := a ++ "*"%char :: b ++ "^"%char :: c).
  assert (skipn 0 expr = a ++ "*"%char :: b ++ "^"%char :: c ++ []) as V
      by (simpl; now rewrite app_nil_r).
  destruct (parseExponent_operand expr 2 0 a va "*" _ V Ha Hva)
    as [Ea Eop]; [reflexivity|reflexivity|discriminate|].
  pose proof (view_tail expr _ _ _ (view_app expr 0 a _ V)) as Vb.
  destruct (parseExponent_power expr 1 _ b vb _ Vb Hb Hvb) as [Eb Vc].
  destruct (parseExponent_last expr 0 _ c vc Vc Hc Hvc) as [Ec E].
  eexists. apply parse_at_end; [|exact E].
  apply parseExpression_at_end; [|exact E].
  rewrite parseTerm_S. unfold bind at 1. rewrite Ea.
  rewrite (parseTerm_loop_times expr 3 va _ Eop).
  unfold bind at 1. rewrite Eb. unfold bind at 1. rewrite Ec. unfold ret.
  apply parseTerm_loop_end; [now apply at_end_significant|..];
    rewrite E; discriminate.
Qed.

Lemma negated_power_parse (a b : list ascii) (va vb : double) :
  literal_chars a = true -> literal_chars b = true ->
  stod a = Some va -> stod b = Some vb ->
  exists p,
    parse ("-"%char :: a ++ "^"%char :: b) 6 0 = Ok (pow (- va)%float vb, p).
Proof.
  intros Ha Hb Hva Hvb.
  set (expr := "-"%char :: a ++ "^"%char :: b).
  assert (skipn 1 expr = a ++ "^"%char :: b ++ []) as V
      by (simpl; now rewrite app_nil_r).
  pose proof (parsePrimary_literal expr 1 1 a _ V Ha eq_refl) as Pa.
  rewrite Hva in Pa.
  assert (parsePrimary expr 3 0 = Ok ((- va)%float, 1 + length a)) as Pn.
  { rewrite (parsePrimary_minus expr 2 0 eq_refl). unfold bind. now rewrite Pa. }
  pose proof (view_app expr 1 a _ V) as V'.
  pose proof (view_tail expr _ _ _ V') as Vb.
  destruct (parseExponent_last expr 1 _ b vb Vb Hb Hvb) as [Eb E].
  eexists. apply parse_exponent_to_end; [|exact E].
  rewrite (parseExponent_hat expr 3 0 _ _ Pn (view_head expr _ _ _ V')).
  unfold bind. rewrite Eb. reflexivity.
Qed.

Lemma quotient_by_zero_parse (a b : list ascii) (va vb : double) :
  literal_chars a = true -> literal_chars b = true ->
  stod a = Some va -> stod b = Some vb -> (vb =? 0)%float = true ->
  parse (a ++ "/"%char :: b) 5 0
  = Throw (DivisionByZero (length (a ++ "/"%char :: b))).
Proof.
  intros Ha Hb Hva Hvb Hzero.
  set (expr := a ++ "/"%char :: b).
  assert (skipn 0 expr = a ++ "/"%char :: b ++ []) as V
      by (simpl; now rewrite app_nil_r).
  destruct (parseExponent_operand expr 1 0 a va "/" _ V Ha Hva)
    as [Ea Eop]; [reflexivity|reflexivity|discriminate|].
  pose proof (view_tail expr _ _ _ (view_app expr 0 a _ V)) as Vb.
  destruct (parseExponent_last expr 0 _ b vb Vb Hb Hvb) as [Eb E].
  unfold parse. unfold bind at 1. rewrite parseExpression_S.
  unfold bind at 1. rewrite parseTerm_S. unfold bind at 1. rewrite Ea.
  rewrite (parseTerm_loop_over expr 2 va _ Eop).
  unfold bind at 1. rewrite Eb, Hzero. unfold throw.
  do 3 f_equal. unfold expr. rewrite length_app. simpl. lia.
Qed.

(** A literal followed by an operator of the expression level or by a
    closing parenthesis, as a term. *)
Lemma parseTerm_operand (expr : list ascii) (fuel pos : nat)
      (t : list ascii) (v : double) (op : ascii) (rest : list ascii) :
  skipn pos expr = t ++ op :: rest ->
  literal_chars t = true -> stod t = Some v ->
  is_numeric op = false -> isspace op = false ->
  op <> "^"%char -> op <> "*"%char -> op <> "/"%char ->
  parseTerm expr (S (S (S fuel))) pos = Ok (v, pos + length t)
  /\ nth_error expr (pos + length t) = Some op.
Proof.
  intros V Ht Hv Hnum Hsp Hhat Htimes Hover.
  destruct (parseExponent_operand expr fuel pos t v op rest V Ht Hv)
    as [Et E]; trivial.
  split; [|exact E].
  rewrite parseTerm_S. unfold bind. rewrite Et.
  apply parseTerm_loop_end;
    [unfold significant; now rewrite E|rewrite E; congruence..].
Qed.

Lemma grouped_power_parse (a b c : list ascii) (va vb vc : double) :
  literal_chars a = true -> literal_chars b = true -> literal_chars c = true ->
  stod a = Some va -> stod b = Some vb -> stod c = Some vc ->
  exists p,
    parse ("("%char :: a ++ "+"%char :: b ++ ")"%char :: "^"%char :: c) 9 0
    = Ok (pow (va + vb)%float vc, p).
Proof.
  intros Ha Hb Hc Hva Hvb Hvc.
  set (expr := "("%char :: a ++ "+"%char :: b ++ ")"%char :: "^"%char :: c).
  assert (skipn 1 expr
          = a ++ "+"%char :: b ++ ")"%char :: "^"%char :: c ++ []) as V
      by (simpl; now rewrite app_nil_r).
  destruct (parseTerm_operand expr 1 1 a va "+" _ V Ha Hva)
    as [Ta Eplus]; [reflexivity|reflexivity|discriminate..|].
  pose proof (view_tail expr _ _ _ (view_app expr 1 a _ V)) as Vb.
  destruct (parseTerm_operand expr 0 _ b vb ")" _ Vb Hb Hvb)
    as [Tb Eclose]; [reflexivity|reflexivity|discriminate..|].
  pose proof (view_tail expr _ _ _ (view_app expr _ b _ Vb)) as Vhat.
  pose proof (view_tail expr _ _ _ Vhat) as Vc.
  destruct (parseExponent_last expr 4 _ c vc Vc Hc Hvc) as [Ec E].
  set (q := S (1 + length a) + length b) in *.
  assert (parseExpression expr 5 1 = Ok ((va + vb)%float, q)) as X.
  { rewrite parseExpression_S. unfold bind at 1. rewrite Ta.
    rewrite (parseExpression_loop_plus expr 3 va _ Eplus).
    unfold bind at 1. rewrite Tb.
    apply parseExpression_loop_end;
      [unfold significant; now rewrite Eclose|rewrite Eclose; discriminate..]. }
  assert (parsePrimary expr 6 0 = Ok ((va + vb)%float, S q)) as P.
  { rewrite (parsePrimary_paren expr 5 0 eq_refl). unfold bind at 1.
    rewrite X. rewrite bind_skip by (unfold significant; now rewrite Eclose).
    now rewrite (bind_match_hit expr q ")" _ Eclose). }
  eexists. apply parse_exponent_to_end; [|exact E].
  rewrite (parseExponent_hat expr 6 0 _ _ P (view_head expr _ _ _ Vhat)).
  unfold bind. rewrite Ec. reflexivity.
Qed.

(** A literal that ends the input, as a term. *)
Lemma parseTerm_last (expr : list ascii) (fuel pos : nat)
      (t : list ascii) (v : double) :
  skipn pos expr = t ++ [] -> literal_chars t = true -> stod t = Some v ->
  parseTerm expr (S (S (S fuel))) pos = Ok (v, pos + length t)
  /\ nth_error expr (pos + length t) = None.
Proof.
  intros V Ht Hv.
  destruct (parseExponent_last expr fuel pos t v V Ht Hv) as [Et E].
  split; [|exact E]. now apply parseTerm_at_end.
Qed.

Lemma sum_product_parse (a b c : list ascii) (va vb vc : double) :
  literal_chars a = true -> literal_chars b = true -> literal_chars c = true ->
  stod a = Some va -> stod b = Some vb -> stod c = Some vc ->
  exists p,
    parse (a ++ "+"%char :: b ++ "*"%char :: c) 6 0
    = Ok ((va + vb * vc)%float, p).
Proof.
  intros Ha Hb Hc Hva Hvb Hvc.
  set (expr := a ++ "+"%char :: b ++ "*"%char :: c).
  assert (skipn 0 expr = a ++ "+"%char :: b ++ "*"%char :: c ++ []) as V
      by (simpl; now rewrite app_nil_r).
  destruct (parseTerm_operand expr 2 0 a va "+" _ V Ha Hva)
    as [Ta Eplus]; [reflexivity|reflexivity|discriminate..|].
  pose proof (view_tail expr _ _ _ (view_app expr 0 a _ V)) as Vb.
  destruct (parseExponent_operand expr 1 _ b vb "*" _ Vb Hb Hvb)
    as [Eb Etimes]; [reflexivity|reflexivity|discriminate|].
  pose proof (view_tail expr _ _ _ (view_app expr _ b _ Vb)) as Vc.
  destruct (parseExponent_last expr 0 _ c vc Vc Hc Hvc) as [Ec E].
  eexists. apply parse_at_end; [|exact E].
  rewrite parseExpression_S. unfold bind at 1. rewrite Ta.
  rewrite (parseExpression_loop_plus expr 4 va _ Eplus).
  unfold bind at 1. rewrite parseTerm_S. unfold bind at 1. rewrite Eb.
  rewrite (parseTerm_loop_times expr 2 vb _ Etimes).
  unfold bind at 1. rewrite Ec.
  rewrite parseTerm_loop_end
    by (try (now apply at_end_significant); rewrite E; discriminate).
  apply parseExpression_loop_end; [now apply at_end_significant|..];
    rewrite E; discriminate.
Qed.

Lemma difference_chain_parse (a b c : list ascii) (va vb vc : double) :
  literal_chars a = true -> literal_chars b = true -> literal_chars c = true ->
  stod a = Some va -> stod b = Some vb -> stod c = Some vc ->
  exists p,
    parse (a ++ "-"%char :: b ++ "-"%char :: c) 6 0
    = Ok ((va - vb - vc)%float, p).
Proof.
  intros Ha Hb Hc Hva Hvb Hvc.
  set (expr := a ++ "-"%char :: b ++ "-"%char :: c).
  assert (skipn 0 expr = a ++ "-"%char :: b ++ "-"%char :: c ++ []) as V
      by (simpl; now rewrite app_nil_r).
  destruct (parseTerm_operand expr 2 0 a va "-" _ V Ha Hva)
    as [Ta Ea]; [reflexivity|reflexivity|discriminate..|].
  pose proof (view_tail expr _ _ _ (view_app expr 0 a _ V)) as Vb.
  destruct (parseTerm_operand expr 1 _ b vb "-" _ Vb Hb Hvb)
    as [Tb Eb]; [reflexivity|reflexivity|discriminate..|].
  pose proof (view_tail expr _ _ _ (view_app expr _ b _ Vb)) as Vc.
  destruct (parseTerm_last expr 0 _ c vc Vc Hc Hvc) as [Tc E].
  eexists. apply parse_at_end; [|exact E].
  rewrite parseExpression_S. unfold bind at 1. rewrite Ta.
  rewrite (parseExpression_loop_minus expr 4 va _ Ea).
  unfold bind at 1. rewrite Tb.
  rewrite (parseExpression_loop_minus expr 3 _ _ Eb).
  unfold bind at 1. rewrite Tc.
  apply parseExpression_loop_end; [now apply at_end_significant|..];
    rewrite E; discriminate.
Qed.

Lemma quotient_chain_parse (a b c : list ascii) (va vb vc : double) :
  literal_chars a = true -> literal_chars b = true -> literal_chars c = true ->
  stod a = Some va -> stod b = Some vb -> stod c = Some vc ->
  (vb =? 0)%float = false -> (vc =? 0)%float = false ->
  exists p,
    parse (a ++ "/"%char :: b ++ "/"%char :: c) 6 0
    = Ok ((va / vb / vc)%float, p).
Proof.
  intros Ha Hb Hc Hva Hvb Hvc Hnb Hnc.
  set (expr := a ++ "/"%char :: b ++ "/"%char :: c).
  assert (skipn 0 expr = a ++ "/"%char :: b ++ "/"%char :: c ++ []) as V
      by (simpl; now rewrite app_nil_r).
  destruct (parseExponent_operand expr 2 0 a va "/" _ V Ha Hva)
    as [Ea Eover]; [reflexivity|reflexivity|discriminate|].
  pose proof (view_tail expr _ _ _ (view_app expr 0 a _ V)) as Vb.
  destruct (parseExponent_operand expr 1 _ b vb "/" _ Vb Hb Hvb)
    as [Eb Eover']; [reflexivity|reflexivity|discriminate|].
  pose proof (view_tail expr _ _ _ (view_app expr _ b _ Vb)) as Vc.
  destruct (parseExponent_last expr 0 _ c vc Vc Hc Hvc) as [Ec E].
  eexists. apply parse_at_end; [|exact E].
  apply parseExpression_at_end; [|exact E].
  rewrite parseTerm_S. unfold bind at 1. rewrite Ea.
  rewrite (parseTerm_loop_over expr 3 va _ Eover).
  unfold bind at 1. rewrite Eb, Hnb.
  rewrite (parseTerm_loop_over expr 2 _ _ Eover').
  unfold bind at 1. rewrite Ec, Hnc.
  apply parseTerm_loop_end; [now apply at_end_significant|..];
    rewrite E; discriminate.
Qed.

Lemma quotient_power_parse (a b c : list ascii) (va vb vc : double) :
  literal_chars a = true -> literal_chars b = true -> literal_chars c = true ->
  stod a = Some va -> stod b = Some vb -> stod c = Some vc ->
  (pow vb vc =? 0)%float = false ->
  exists p,
    parse (a ++ "/"%char :: b ++ "^"%char :: c) 6 0
    = Ok ((va / pow vb vc)%float, p).
Proof.
  intros Ha Hb Hc Hva Hvb Hvc Hn.
  set (expr := a ++ "/"%char :: b ++ "^"%char :: c).
  assert (skipn 0 expr = a ++ "/"%char :: b ++ "^"%char :: c ++ []) as V
      by (simpl; now rewrite app_nil_r).
  destruct (parseExponent_operand expr 2 0 a va "/" _ V Ha Hva)
    as [Ea Eop]; [reflexivity|reflexivity|discriminate|].
  pose proof (view_tail expr _ _ _ (view_app expr 0 a _ V)) as Vb.
  destruct (parseExponent_power expr 1 _ b vb _ Vb Hb Hvb) as [Eb Vc].
  destruct (parseExponent_last expr 0 _ c vc Vc Hc Hvc) as [Ec E].
  eexists. apply parse_at_end; [|exact E].
  apply parseExpression_at_end; [|exact E].
  rewrite parseTerm_S. unfold bind at 1. rewrite Ea.
  rewrite (parseTerm_loop_over expr 3 va _ Eop).
  unfold bind at 1. rewrite Eb. unfold bind at 1. rewrite Ec. unfold ret.
  cbv beta iota. rewrite Hn.
  apply parseTerm_loop_end; [now apply at_end_significant|..];
    rewrite E; discriminate.
Qed.

(** A power as the left operand of a product or a quotient. *)
Lemma power_operand (expr : list ascii) (a b : list ascii) (va vb : double)
      (op : ascii) (rest : list ascii) :
  skipn 0 expr = a ++ "^"%char :: b ++ op :: rest ->
  literal_chars a = true -> literal_chars b = true ->
  stod a = Some va -> stod b = Some vb ->
  is_numeric op = false -> isspace op = false -> op <> "^"%char ->
  parseExponent expr 4 0 = Ok (pow va vb, S (length a) + length b)
  /\ nth_error expr (S (length a) + length b) = Some op
  /\ skipn (S (S (length a) + length b)) expr = rest.
Proof.
  intros V Ha Hb Hva Hvb Hnum Hsp Hop.
  destruct (parseExponent_power expr 2 0 a va _ V Ha Hva) as [Ea Vb].
  destruct (parseExponent_operand expr 1 _ b vb op _ Vb Hb Hvb)
    as [Eb Eop]; trivial.
  pose proof (view_tail expr _ _ _ (view_app expr _ b _ Vb)) as Vc.
  repeat split; [|exact Eop|exact Vc].
  rewrite Ea. unfold bind. rewrite Eb. reflexivity.
Qed.

Lemma power_product_parse (a b c : list ascii) (va vb vc : double) :
  literal_chars a = true -> literal_chars b = true -> literal_chars c = true ->
  stod a = Some va -> stod b = Some vb -> stod c = Some vc ->
  exists p,
    parse (a ++ "^"%char :: b ++ "*"%char :: c) 6 0
    = Ok ((pow va vb * vc)%float, p).
Proof.
  intros Ha Hb Hc Hva Hvb Hvc.
  set (expr := a ++ "^"%char :: b ++ "*"%char :: c).
  assert (skipn 0 expr = a ++ "^"%char :: b ++ "*"%char :: c ++ []) as V
      by (simpl; now rewrite app_nil_r).
  destruct (power_operand expr a b va vb "*" _ V Ha Hb Hva Hvb)
    as (Ea & Eop & Vc); [reflexivity|reflexivity|discriminate|].
  destruct (parseExponent_last expr 1 _ c vc Vc Hc Hvc) as [Ec E].
  eexists. apply parse_at_end; [|exact E].
  apply parseExpression_at_end; [|exact E].
  rewrite parseTerm_S. unfold bind at 1. rewrite Ea.
  rewrite (parseTerm_loop_times expr 3 _ _ Eop).
  unfold bind at 1. rewrite Ec.
  apply parseTerm_loop_end; [now apply at_end_significant|..];
    rewrite E; discriminate.
Qed.

Lemma power_quotient_parse (a b c : list ascii) (va vb vc : double) :
  literal_chars a = true -> literal_chars b = true -> literal_chars c = true ->
  stod a = Some va -> stod b = Some vb -> stod c = Some vc ->
  (vc =? 0)%float = false ->
  exists p,
    parse (a ++ "^"%char :: b ++ "/"%char :: c) 6 0
    = Ok ((pow va vb / vc)%float, p).
Proof.
  intros Ha Hb Hc Hva Hvb Hvc Hn.
  set (expr := a ++ "^"%char :: b ++ "/"%char :: c).
  assert (skipn 0 expr = a ++ "^"%char :: b ++ "/"%char :: c ++ []) as V
      by (simpl; now rewrite app_nil_r).
  destruct (power_operand expr a b va vb "/" _ V Ha Hb Hva Hvb)
    as (Ea & Eop & Vc); [reflexivity|reflexivity|discriminate|].
  destruct (parseExponent_last expr 1 _ c vc Vc Hc Hvc) as [Ec E].
  eexists. apply parse_at_end; [|exact E].
  apply parseExpression_at_end; [|exact E].
  rewrite parseTerm_S. unfold bind at 1. rewrite Ea.
  rewrite (parseTerm_loop_over expr 3 _ _ Eop).
  unfold bind at 1. rewrite Ec, Hn.
  apply parseTerm_loop_end; [now apply at_end_significant|..];
    rewrite E; discriminate.
Qed.

End Literals.

(** ** The specification's claims *)

Ltac to_chars :=
  cbn [String.append list_ascii_of_string];
  repeat (rewrite list_ascii_of_string_app;
          cbn [String.append list_ascii_of_string]).

Section Claims.

Context `{Libm}.

(** C2: [match_] skips whitespace and then compares.  Every call of it in
    the parser follows a call of [skipWhitespace] or a match that has
    missed, and both leave the cursor on a significant character or at the
    end.  From such a cursor, when the character there is not the expected
    one, [match_] reports false and leaves the position unchanged, and any
    match tried next sees the same character.  From any cursor the match
    is the match from the next significant character. *)
Theorem match_miss_stays_on_significant (expr : list ascii) (expected : ascii)
        (pos : nat) :
  nth_error expr (skipWhitespace_pos expr pos) <> Some expected ->
  (significant expr pos ->
   match_ expr expected pos = Ok (false, pos)
   /\ forall other,
       match_ expr other pos
       = if match nth_error expr pos with
            | Some c => Ascii.eqb c other
            | None => false
            end
         then Ok (true, S pos) else Ok (false, pos))
  /\ match_ expr expected pos = Ok (false, skipWhitespace_pos expr pos)
  /\ (forall other,
         match_ expr other (skipWhitespace_pos expr pos)
         = match_ expr other pos)
  /\ (forall start, significant expr (skipWhitespace_pos expr start))
  /\ (forall other start q,
         match_ expr other start = Ok (false, q) ->
         significant expr q /\ nth_error expr q <> Some other).
Proof.
  intros Hmiss.
  assert (match_ expr expected pos = Ok (false, skipWhitespace_pos expr pos))
    as Hm.
  { rewrite match_unfold. cbv zeta.
    destruct (nth_error expr (skipWhitespace_pos expr pos)) as [c|];
      [|reflexivity].
    destruct (Ascii.eqb_spec c expected) as [->|_];
      [now elim Hmiss|reflexivity]. }
  split; [|split; [exact Hm|split; [|split]]].
  - intros Hsig. split.
    + rewrite Hm. now rewrite skipWhitespace_fixed.
    + intros other. rewrite match_unfold. cbv zeta.
      rewrite skipWhitespace_fixed by assumption.
      destruct (nth_error expr pos) as [c|]; [|reflexivity].
      now destruct (Ascii.eqb c other).
  - intros other. rewrite !match_unfold. cbv zeta.
    now rewrite skipWhitespace_idempotent.
  - intros start. apply skipWhitespace_stops.
  - intros other start q. rewrite match_unfold. cbv zeta.
    pose proof (skipWhitespace_stops expr start) as Hsig.
    destruct (nth_error expr (skipWhitespace_pos expr start)) as [c|] eqn:E.
    + destruct (Ascii.eqb_spec c other) as [->|Hne]; [discriminate|].
      intros [= <-]. split; [exact Hsig|]. rewrite E. congruence.
    + intros [= <-]. split; [exact Hsig|]. rewrite E. discriminate.
Qed.

(** C3 (as amended): whitespace skipping advances the cursor over the
    characters [std::isspace] accepts, which are space, tab, line feed,
    vertical tab, form feed and carriage return, and stops at the first
    other character or at the end; an embedded newline is skipped like a
    space, and the two-line input "2", "+3" evaluates to 5. *)
Theorem whitespace_is_isspace :
  (forall c, isspace c = existsb (Ascii.eqb c) whitespace_chars) /\
  (forall expr pos,
      pos <= skipWhitespace_pos expr pos
      /\ significant expr (skipWhitespace_pos expr pos)
      /\ forall i, pos <= i < skipWhitespace_pos expr pos ->
                   exists c, nth_error expr i = Some c /\ isspace c = true) /\
  evaluate two_lines = Ok 5%float.
Proof.
  split; [|split; [|reflexivity]].
  - intros c. destruct c as [[] [] [] [] [] [] [] []]; reflexivity.
  - intros expr pos. split; [|split].
    + destruct (le_lt_dec pos (length expr)) as [Hpos|Hpos].
      * apply (skipWhitespace_loop_within expr (length expr - pos) pos Hpos).
      * unfold skipWhitespace_pos.
        replace (length expr - pos) with 0 by lia. apply Nat.le_refl.
    + apply skipWhitespace_stops.
    + intros i. apply skipWhitespace_loop_skipped.
Qed.

(** C4: exponentiation is right-associative.  After the base, a hat makes
    [parseExponent] call itself for the exponent operand; for literals a, b
    and c the input a^b^c evaluates to pow(a, pow(b, c)); and where
    [std::pow] gives 3^2 = 9 and 2^9 = 512, "2^3^2" evaluates to 512, not
    to 64. *)
Theorem exponent_right_associative :
  (forall expr fuel pos base p,
      parsePrimary expr fuel pos = Ok (base, p) ->
      nth_error expr p = Some "^"%char ->
      parseExponent expr (S fuel) pos =
      bind (parseExponent expr fuel)
        (fun exponent => ret (pow base exponent)) (S p)) /\
  (forall a b c va vb vc,
      literal a = true -> literal b = true -> literal c = true ->
      literal_value a = Some va -> literal_value b = Some vb ->
      literal_value c = Some vc ->
      evaluate (a ++ "^" ++ b ++ "^" ++ c) = Ok (pow va (pow vb vc))) /\
  (pow 3%float 2%float = 9%float -> pow 2%float 9%float = 512%float ->
   evaluate "2^3^2" = Ok 512%float /\ evaluate "2^3^2" <> Ok 64%float).
Proof.
  split; [|split].
  - intros expr fuel pos base p. apply parseExponent_hat.
  - intros a b c va vb vc Ha Hb Hc Hva Hvb Hvc.
    destruct (tower_parse _ _ _ va vb vc Ha Hb Hc Hva Hvb Hvc) as [p Hp].
    apply evaluate_returns with (fuel := 6) (p := p).
    to_chars. exact Hp.
  - intros H32 H29.
    assert (evaluate "2^3^2" = Ok 512%float) as E.
    { transitivity (Ok (pow 2%float (pow 3%float 2%float))); [reflexivity|].
      now rewrite H32, H29. }
    split; [exact E|]. rewrite E. intros C.
    apply (f_equal (fun r => match r with
                             | Ok x => (x =? 64)%float
                             | _ => false
                             end)) in C.
    discriminate C.
Qed.

(** C5: the hat binds tighter than the product and the quotient, and
    looser than the unary sign and the parentheses.  Behind a
    multiplication or a division sign the loop of [parseTerm] calls
    [parseExponent] for the operand; for literals, a*b^c evaluates to
    a * pow(b, c), a/b^c to a / pow(b, c), a^b*c to pow(a, b) * c, a^b/c
    to pow(a, b) / c (for divisors other than 0), -a^b to pow(-a, b) and
    (a+b)^c to pow(a + b, c); where [std::pow] gives 2^3 = 8 and
    (-2)^2 = 4, "2*2^3" evaluates to 16, "16/2^3" to 2 and "-2^2" to 4. *)
Theorem exponent_binds_between :
  (forall expr fuel value pos,
      (nth_error expr pos = Some "*"%char ->
       parseTerm_loop expr (S fuel) value pos
       = bind (parseExponent expr fuel)
           (fun rhs => parseTerm_loop expr fuel (value * rhs)%float) (S pos))
      /\ (nth_error expr pos = Some "/"%char ->
          parseTerm_loop expr (S fuel) value pos
          = bind (parseExponent expr fuel)
              (fun rhs => if (rhs =? 0)%float then throw DivisionByZero
                          else parseTerm_loop expr fuel (value / rhs)%float)
              (S pos))) /\
  (forall a b c va vb vc,
      literal a = true -> literal b = true -> literal c = true ->
      literal_value a = Some va -> literal_value b = Some vb ->
      literal_value c = Some vc ->
      evaluate (a ++ "*" ++ b ++ "^" ++ c) = Ok (va * pow vb vc)%float
      /\ evaluate (a ++ "^" ++ b ++ "*" ++ c) = Ok (pow va vb * vc)%float
      /\ ((pow vb vc =? 0)%float = false ->
          evaluate (a ++ "/" ++ b ++ "^" ++ c) = Ok (va / pow vb vc)%float)
      /\ ((vc =? 0)%float = false ->
          evaluate (a ++ "^" ++ b ++ "/" ++ c) = Ok (pow va vb / vc)%float)
      /\ evaluate ("(" ++ a ++ "+" ++ b ++ ")^" ++ c)
         = Ok (pow (va + vb)%float vc)) /\
  (forall a b va vb,
      literal a = true -> literal b = true ->
      literal_value a = Some va -> literal_value b = Some vb ->
      evaluate ("-" ++ a ++ "^" ++ b) = Ok (pow (- va)%float vb)) /\
  (pow 2%float 3%float = 8%float ->
   evaluate "2*2^3" = Ok 16%float /\ evaluate "16/2^3" = Ok 2%float) /\
  (pow (-2)%float 2%float = 4%float -> evaluate "-2^2" = Ok 4%float).
Proof.
  split; [|split; [|split; [|split]]].
  - intros expr fuel value pos. split.
    + apply parseTerm_loop_times.
    + apply parseTerm_loop_over.
  - intros a b c va vb vc Ha Hb Hc Hva Hvb Hvc.
    split; [|split; [|split; [|split]]].
    + destruct (product_power_parse _ _ _ va vb vc Ha Hb Hc Hva Hvb Hvc)
        as [p Hp].
      apply evaluate_returns with (fuel := 6) (p := p).
      to_chars. exact Hp.
    + destruct (power_product_parse _ _ _ va vb vc Ha Hb Hc Hva Hvb Hvc)
        as [p Hp].
      apply evaluate_returns with (fuel := 6) (p := p).
      to_chars. exact Hp.
    + intros Hn.
      destruct (quotient_power_parse _ _ _ va vb vc Ha Hb Hc Hva Hvb Hvc Hn)
        as [p Hp].
      apply evaluate_returns with (fuel := 6) (p := p).
      to_chars. exact Hp.
    + intros Hn.
      destruct (power_quotient_parse _ _ _ va vb vc Ha Hb Hc Hva Hvb Hvc Hn)
        as [p Hp].
      apply evaluate_returns with (fuel := 6) (p := p).
      to_chars. exact Hp.
    + destruct (grouped_power_parse _ _ _ va vb vc Ha Hb Hc Hva Hvb Hvc)
        as [p Hp].
      apply evaluate_returns with (fuel := 9) (p := p).
      to_chars. exact Hp.
  - intros a b va vb Ha Hb Hva Hvb.
    destruct (negated_power_parse _ _ va vb Ha Hb Hva Hvb) as [p Hp].
    apply evaluate_returns with (fuel := 6) (p := p).
    to_chars. exact Hp.
  - intros H23. split.
    + transitivity (Ok (2 * pow 2 3)%float); [reflexivity|].
      now rewrite H23.
    + assert ((pow 2 3 =? 0)%float = false) as Hn by now rewrite H23.
      destruct (quotient_power_parse
                  (list_ascii_of_string "16") (list_ascii_of_string "2")
                  (list_ascii_of_string "3") 16%float 2%float 3%float
                  eq_refl eq_refl eq_refl eq_refl eq_refl eq_refl Hn)
        as [p Hp].
      rewrite H23 in Hp.
      exact (evaluate_returns "16/2^3" 6 _ p Hp).
  - intros H22. transitivity (Ok (pow (-2)%float 2%float)); [reflexivity|].
    now rewrite H22.
Qed.

(** C6: evaluation follows the conventional precedence and accumulates
    operators of one precedence from left to right.  "2+3*4" evaluates to
    14, "(2+3)*4" to 20, "10-3-2" to 5 and "8/4/2" to 1; for literals,
    a+b*c evaluates to a + b * c, a-b-c to (a - b) - c and, for divisors
    other than 0, a/b/c to (a / b) / c. *)
Theorem precedence_and_left_accumulation :
  evaluate "2+3*4" = Ok 14%float /\
  evaluate "(2+3)*4" = Ok 20%float /\
  evaluate "10-3-2" = Ok 5%float /\
  evaluate "8/4/2" = Ok 1%float /\
  (forall a b c va vb vc,
      literal a = true -> literal b = true -> literal c = true ->
      literal_value a = Some va -> literal_value b = Some vb ->
      literal_value c = Some vc ->
      evaluate (a ++ "+" ++ b ++ "*" ++ c) = Ok (va + vb * vc)%float
      /\ evaluate (a ++ "-" ++ b ++ "-" ++ c) = Ok (va - vb - vc)%float
      /\ ((vb =? 0)%float = false -> (vc =? 0)%float = false ->
          evaluate (a ++ "/" ++ b ++ "/" ++ c) = Ok (va / vb / vc)%float)).
Proof.
  do 4 (split; [reflexivity|]).
  intros a b c va vb vc Ha Hb Hc Hva Hvb Hvc. split; [|split].
  - destruct (sum_product_parse _ _ _ va vb vc Ha Hb Hc Hva Hvb Hvc)
      as [p Hp].
    apply evaluate_returns with (fuel := 6) (p := p). to_chars. exact Hp.
  - destruct (difference_chain_parse _ _ _ va vb vc Ha Hb Hc Hva Hvb Hvc)
      as [p Hp].
    apply evaluate_returns with (fuel := 6) (p := p). to_chars. exact Hp.
  - intros Hnb Hnc.
    destruct (quotient_chain_parse _ _ _ va vb vc Ha Hb Hc Hva Hvb Hvc
                Hnb Hnc) as [p Hp].
    apply evaluate_returns with (fuel := 6) (p := p). to_chars. exact Hp.
Qed.

(** C7: once [parseExpression] has returned and the whitespace behind it
    is skipped, [evaluate] returns the value only if the cursor is at the
    end of the input; if a character remains it throws the unexpected-token
    error with the position of that character and the character itself.
    "2+3)" and "2 3" both throw it, at positions 3 and 2. *)
Theorem trailing_input_rejected :
  (forall expression v p,
      parseExpression (list_ascii_of_string expression)
        (enough (String.length expression)) 0 = Ok (v, p) ->
      match nth_error (list_ascii_of_string expression)
              (skipWhitespace_pos (list_ascii_of_string expression) p) with
      | None => evaluate expression = Ok v
      | Some c =>
          evaluate expression
          = Throw (UnexpectedToken
                     (skipWhitespace_pos (list_ascii_of_string expression) p)
                     c)
          /\ isspace c = false
      end) /\
  evaluate "2+3)" = Throw (UnexpectedToken 3 ")") /\
  evaluate "2 3" = Throw (UnexpectedToken 2 "3") /\
  what (UnexpectedToken 3 ")") = "Unexpected token at position 3: ')'"%string.
Proof.
  split; [|repeat split; reflexivity].
  intros expression v p Hx. rewrite <- length_list_ascii_of_string in Hx.
  unfold evaluate. set (expr := list_ascii_of_string expression) in *.
  unfold parse, bind. rewrite Hx. unfold skipWhitespace, currentChar.
  pose proof (keeps_levels expr (enough (length expr)) Expression 0
                (Nat.le_0_l _)) as Hk.
  simpl in Hk. rewrite Hx in Hk. simpl in Hk.
  pose proof (skipWhitespace_loop_within expr (length expr - p) p (proj2 Hk))
    as Hs.
  fold (skipWhitespace_pos expr p) in Hs.
  pose proof (skipWhitespace_stops expr p) as Hsig. unfold significant in Hsig.
  destruct (nth_error expr (skipWhitespace_pos expr p)) as [c|] eqn:E.
  - apply nth_error_inside in E.
    replace (skipWhitespace_pos expr p =? length expr) with false
      by (symmetry; apply Nat.eqb_neq; lia).
    split; [reflexivity|exact Hsig].
  - apply nth_error_None in E.
    replace (skipWhitespace_pos expr p =? length expr) with true
      by (symmetry; apply Nat.eqb_eq; lia).
    reflexivity.
Qed.

(** C8: for every input [evaluate] returns a value or throws.  From a
    cursor with r characters left, fuel 4r plus the rank of the grammar
    level is never exhausted, more fuel never changes an outcome, and every
    grammar level that returns has consumed at least one character. *)
Theorem evaluate_terminates :
  (forall expression,
      (exists v, evaluate expression = Ok v)
      \/ (exists e, evaluate expression = Throw e)) /\
  (forall expr l fuel pos,
      pos <= length expr -> 4 * (length expr - pos) + rank l <= fuel ->
      run_level expr l fuel pos <> OutOfFuel) /\
  (forall expr l fuel fuel' pos,
      fuel <= fuel' -> run_level expr l fuel pos <> OutOfFuel ->
      run_level expr l fuel' pos = run_level expr l fuel pos) /\
  (forall expr fuel pos v pos',
      pos <= length expr ->
      parsePrimary expr fuel pos = Ok (v, pos')
      \/ parseExponent expr fuel pos = Ok (v, pos')
      \/ parseTerm expr fuel pos = Ok (v, pos')
      \/ parseExpression expr fuel pos = Ok (v, pos') ->
      pos < pos').
Proof.
  split; [|split; [|split]].
  - intros expression. unfold evaluate.
    pose proof (parse_never_exhausted (list_ascii_of_string expression)) as Hp.
    destruct (parse _ _ 0) as [[v p]|e|]; [left|right|now elim Hp]; eauto.
  - intros expr l fuel pos. apply runs_levels.
  - intros expr l fuel fuel' pos Hle. now apply extends_levels.
  - intros expr fuel pos v pos' Hpos [Hr|[Hr|[Hr|Hr]]].
    + exact (consumes_parsePrimary expr fuel pos v pos' Hpos Hr).
    + exact (consumes_parseExponent expr fuel pos v pos' Hpos Hr).
    + exact (consumes_parseTerm expr fuel pos v pos' Hpos Hr).
    + exact (consumes_parseExpression expr fuel pos v pos' Hpos Hr).
Qed.

(** C9: the cursor stays between 0 and the length of the input and never
    moves back.  Started at a position inside the input, every iteration of
    the two lexing loops, every lexical helper, every grammar level and
    [parse] leave the cursor at a position, or throw an exception that
    reports one, between the start position and the end of the input. *)
Theorem cursor_invariant (expr : list ascii) (pos : nat) :
  pos <= length expr ->
  (forall n, pos <= skipWhitespace_loop expr n pos <= length expr) /\
  (forall n seen,
      match scanNumber expr n seen pos with
      | Ok pos' => pos <= pos' <= length expr
      | Throw e => pos <= reported e <= length expr
      | OutOfFuel => True
      end) /\
  within expr pos (skipWhitespace expr pos) /\
  (forall expected, within expr pos (match_ expr expected pos)) /\
  within expr pos (parseNumber expr pos) /\
  (forall l fuel, within expr pos (run_level expr l fuel pos)) /\
  (forall fuel, within expr pos (parse expr fuel pos)).
Proof.
  intros Hpos. split; [|split; [|split; [|split; [|split; [|split]]]]].
  - intros n. now apply skipWhitespace_loop_within.
  - intros n seen. pose proof (scanNumber_within expr n seen pos Hpos) as Hs.
    destruct (scanNumber expr n seen pos); simpl in *; lia.
  - now apply keeps_skipWhitespace.
  - intros expected. now apply keeps_match.
  - now apply keeps_parseNumber.
  - intros l fuel. now apply keeps_levels.
  - intros fuel. now apply keeps_parse.
Qed.

(** C10: on the input "." the lexing loop matches the one character, so the
    literal is not empty; [std::stod] converts nothing of it; and
    [evaluate] throws the number conversion error at position 0. *)
Theorem lone_point_conversion_error :
  scanNumber ["."%char] 1 false 0 = Ok 1 /\
  stod ["."%char] = None /\
  evaluate "." = Throw (NumberConversionError 0) /\
  what (NumberConversionError 0)
  = "Number conversion error at position 0"%string.
Proof. repeat split; reflexivity. Qed.

End Claims.

(** ** The claims at concrete inputs *)

(** On "2+3" with the cursor on the '+', a match of '*' reports false and
    the cursor stays at 1, where a match of '+' then succeeds. *)
Lemma match_miss_stays_on_significant_witness :
  match_ (list_ascii_of_string "2+3") "*" 1 = Ok (false, 1) /\
  match_ (list_ascii_of_string "2+3") "+" 1 = Ok (true, 2).
Proof.
  assert (nth_error (list_ascii_of_string "2+3")
            (skipWhitespace_pos (list_ascii_of_string "2+3") 1)
          <> Some "*"%char) as Hmiss by (intros C; discriminate C).
  pose proof (proj1 (match_miss_stays_on_significant
                       (list_ascii_of_string "2+3") "*" 1 Hmiss) eq_refl)
    as [Hstay Hnext].
  split; [exact Hstay|exact (Hnext "+"%char)].
Defined.

(** In the two-line input the newline at index 1 is skipped, and the input
    evaluates to 5. *)
Lemma newline_is_skipped_counterexample :
  nth_error (list_ascii_of_string two_lines) 1 = Some "010"%char /\
  skipWhitespace_pos (list_ascii_of_string two_lines) 1 = 2 /\
  @evaluate Sample.libm two_lines = Ok 5%float.
Proof. repeat split; reflexivity. Qed.

Lemma whitespace_is_isspace_witness :
  exists c,
    nth_error (list_ascii_of_string two_lines) 1 = Some c
    /\ isspace c = true.
Proof.
  apply (proj2 (proj2 (proj1 (proj2 (@whitespace_is_isspace Sample.libm))
                         (list_ascii_of_string two_lines) 1)) 1).
  split; [exact (le_n 1)|exact (le_n 2)].
Defined.

Lemma exponent_right_associative_witness :
  @evaluate Sample.libm "2^3^2" = Ok 512%float
  /\ @evaluate Sample.libm "2^3^2" <> Ok 64%float.
Proof.
  exact (proj2 (proj2 (@exponent_right_associative Sample.libm))
           eq_refl eq_refl).
Defined.

Lemma exponent_binds_between_witness :
  (@evaluate Sample.libm "2*2^3" = Ok 16%float
   /\ @evaluate Sample.libm "16/2^3" = Ok 2%float)
  /\ @evaluate Sample.libm "-2^2" = Ok 4%float
  /\ @evaluate Sample.libm "9/3^2" = Ok 1%float
  /\ @evaluate Sample.libm "3^2/9" = Ok 1%float.
Proof.
  pose proof (proj1 (proj2 (@exponent_binds_between Sample.libm))
                "9"%string "3"%string "2"%string 9%float 3%float 2%float
                eq_refl eq_refl eq_refl eq_refl eq_refl eq_refl) as W.
  pose proof (proj1 (proj2 (@exponent_binds_between Sample.libm))
                "3"%string "2"%string "9"%string 3%float 2%float 9%float
                eq_refl eq_refl eq_refl eq_refl eq_refl eq_refl) as Z.
  split; [|split; [|split]].
  - exact (proj1 (proj2 (proj2 (proj2 (@exponent_binds_between Sample.libm))))
             eq_refl).
  - exact (proj2 (proj2 (proj2 (proj2 (@exponent_binds_between Sample.libm))))
             eq_refl).
  - exact (proj1 (proj2 (proj2 W)) eq_refl).
  - exact (proj1 (proj2 (proj2 (proj2 Z))) eq_refl).
Defined.

Lemma precedence_and_left_accumulation_witness :
  @evaluate Sample.libm "1.5+2*3" = Ok 7.5%float
  /\ @evaluate Sample.libm "1.5-2-3" = Ok (-3.5)%float.
Proof.
  pose proof (proj2 (proj2 (proj2 (proj2
                (@precedence_and_left_accumulation Sample.libm))))
                "1.5"%string "2"%string "3"%string 1.5%float 2%float 3%float
                eq_refl eq_refl eq_refl eq_refl eq_refl eq_refl) as W.
  split; [exact (proj1 W)|exact (proj1 (proj2 W))].
Defined.

Lemma trailing_input_rejected_witness :
  @evaluate Sample.libm "2 3" = Throw (UnexpectedToken 2 "3")
  /\ isspace "3" = false.
Proof.
  exact (proj1 (@trailing_input_rejected Sample.libm)
           "2 3"%string 2%float 2 eq_refl).
Defined.

Lemma evaluate_terminates_witness :
  @parseExpression Sample.libm (list_ascii_of_string "2+3") 16 0
  <> OutOfFuel.
Proof.
  apply (proj1 (proj2 (@evaluate_terminates Sample.libm))
           (list_ascii_of_string "2+3") Expression 16 0); simpl; lia.
Defined.

Lemma cursor_invariant_witness :
  within (list_ascii_of_string " 2+3 ") 0
    (@parse Sample.libm (list_ascii_of_string " 2+3 ") 24 0).
Proof.
  apply (@cursor_invariant Sample.libm (list_ascii_of_string " 2+3 ") 0).
  simpl. lia.
Defined.

(** * Further properties of the parser *)

(** ** Case analysis of the lexical helpers *)

Section Cases.

Context `{Libm}.
Variable expr : list ascii.

Lemma skipWhitespace_le (pos : nat) : pos <= skipWhitespace_pos expr pos.
Proof.
  destruct (le_lt_dec pos (length expr)) as [Hpos|Hpos].
  - apply (skipWhitespace_loop_within expr (length expr - pos) pos Hpos).
  - unfold skipWhitespace_pos. replace (length expr - pos) with 0 by lia.
    apply Nat.le_refl.
Qed.

Lemma bind_cases {A B} (P : result (B * nat) -> Prop) (c : Parser A)
      (k : A -> Parser B) (pos : nat) :
  (forall a p, c pos = Ok (a, p) -> P (k a p)) ->
  (forall e, c pos = Throw e -> P (Throw e)) ->
  (c pos = OutOfFuel -> P OutOfFuel) ->
  P (bind c k pos).
Proof.
  intros Hok Hthrow Hout. unfold bind.
  destruct (c pos) as [[a p]|e|]; auto.
Qed.

Lemma skip_cases {B} (P : result (B * nat) -> Prop) (k : unit -> Parser B)
      (pos : nat) :
  P (k tt (skipWhitespace_pos expr pos)) -> P (bind (skipWhitespace expr) k pos).
Proof. intros Hk. exact Hk. Qed.

Lemma match_cases {B} (P : result (B * nat) -> Prop) (expected : ascii)
      (hit miss : Parser B) (pos : nat) :
  (nth_error expr (skipWhitespace_pos expr pos) = Some expected ->
   P (hit (S (skipWhitespace_pos expr pos)))) ->
  (nth_error expr (skipWhitespace_pos expr pos) <> Some expected ->
   P (miss (skipWhitespace_pos expr pos))) ->
  P (bind (match_ expr expected) (fun b : bool => if b then hit else miss) pos).
Proof.
  intros Hhit Hmiss. unfold bind. rewrite match_unfold. cbv zeta.
  destruct (nth_error expr (skipWhitespace_pos expr pos)) as [c|] eqn:E.
  - destruct (Ascii.eqb_spec c expected) as [->|Hne].
    + now apply Hhit.
    + apply Hmiss. congruence.
  - apply Hmiss. discriminate.
Qed.

(** The lexing loop stops behind a run of numeric characters; it throws
    only on a decimal point, when one has been seen. *)
Lemma scanNumber_cases (n : nat) (seen : bool) (pos : nat) :
  length expr - pos <= n ->
  match scanNumber expr n seen pos with
  | Ok p =>
      pos <= p
      /\ (forall i, pos <= i < p -> numeric_at expr i)
      /\ (forall c, nth_error expr p = Some c -> is_numeric c = false)
  | Throw e =>
      exists p, e = MalformedNumber p /\ pos <= p
                /\ nth_error expr p = Some "."%char
                /\ (forall i, pos <= i < p -> numeric_at expr i)
                /\ (seen = true
                    \/ exists q, pos <= q < p
                                 /\ nth_error expr q = Some "."%char)
  | OutOfFuel => False
  end.
Proof.
  revert seen pos. induction n as [|n IH]; intros seen pos Hn; simpl.
  - split; [lia|split; [lia|]]. intros c E.
    apply nth_error_inside in E. lia.
  - destruct (nth_error expr pos) as [c|] eqn:E.
    2:{ split; [lia|split; [lia|]]. intros c' E'. rewrite E in E'.
        discriminate E'. }
    fold (is_numeric c). destruct (is_numeric c) eqn:Hc.
    2:{ split; [lia|split; [lia|]]. intros c' E'. rewrite E in E'.
        injection E' as <-. exact Hc. }
    assert (forall i p, pos <= i < p ->
                        (forall j, S pos <= j < p -> numeric_at expr j) ->
                        numeric_at expr i) as Hrun.
    { intros i p Hi Hr. destruct (Nat.eq_dec i pos) as [->|Hne];
        [exists c; now split|apply Hr; lia]. }
    pose proof (nth_error_inside expr pos c E) as Hin.
    destruct (is_point c) eqn:Hp.
    + apply Ascii.eqb_eq in Hp. subst c. destruct seen.
      * exists pos. repeat split; trivial; try lia.
      * specialize (IH true (S pos) ltac:(lia)).
        destruct (scanNumber expr n true (S pos)) as [p|e|]; [| |exact IH].
        -- destruct IH as (Hle & Hr & Hstop).
           split; [lia|split; [|exact Hstop]]. intros i Hi. now apply (Hrun i p).
        -- destruct IH as (p & -> & Hle & Ep & Hr & _).
           exists p. repeat split; trivial; try lia.
           ++ intros i Hi. now apply (Hrun i p).
           ++ right. exists pos. repeat split; trivial; lia.
    + specialize (IH seen (S pos) ltac:(lia)).
      destruct (scanNumber expr n seen (S pos)) as [p|e|]; [| |exact IH].
      * destruct IH as (Hle & Hr & Hstop).
        split; [lia|split; [|exact Hstop]]. intros i Hi. now apply (Hrun i p).
      * destruct IH as (p & -> & Hle & Ep & Hr & Hseen).
        exists p. repeat split; trivial; try lia.
        -- intros i Hi. now apply (Hrun i p).
        -- destruct Hseen as [Hs|(q & Hq & Eq)]; [now left|].
           right. exists q. split; [lia|exact Eq].
Qed.

End Cases.

(** ** Every exception is explained by the input at the position it reports *)

Ltac thrown_below IH He :=
  let X := fresh "X" in
  match type of He with
  | _ ?p = Throw _ =>
      first [ pose proof (IH Primary p) as X; cbn [run_level] in X;
              rewrite He in X; exact X
            | pose proof (IH Exponent p) as X; cbn [run_level] in X;
              rewrite He in X; exact X
            | pose proof (IH Term p) as X; cbn [run_level] in X;
              rewrite He in X; exact X
            | pose proof (IH Expression p) as X; cbn [run_level] in X;
              rewrite He in X; exact X ]
  end.

Tactic Notation "operand" constr(IH) ident(a) ident(p) ident(Ha) :=
  let e := fresh "e" in
  let He := fresh "He" in
  apply bind_cases;
  [ intros a p Ha | intros e He; thrown_below IH He | intros _; exact I ].

Section Explained.

Context `{Libm}.
Variable expr : list ascii.

Lemma explained_parseNumber (pos : nat) :
  nth_error expr (skipWhitespace_pos expr pos) <> Some "+"%char ->
  nth_error expr (skipWhitespace_pos expr pos) <> Some "-"%char ->
  nth_error expr (skipWhitespace_pos expr pos) <> Some "("%char ->
  explained expr (parseNumber expr pos).
Proof.
  intros Hplus Hminus Hparen. unfold parseNumber. apply skip_cases.
  set (s := skipWhitespace_pos expr pos) in *.
  pose proof (scanNumber_cases expr (length expr - s) false s (le_n _)) as Hs.
  destruct (scanNumber expr (length expr - s) false s) as [p|e|].
  - destruct Hs as (Hle & Hrun & Hstop).
    destruct (s =? p) eqn:Ep.
    + apply Nat.eqb_eq in Ep. subst p. simpl.
      split; [apply skipWhitespace_stops|]. intros c E.
      split; [now apply Hstop|]. repeat split; congruence.
    + apply Nat.eqb_neq in Ep.
      destruct (stod (substr expr s (p - s))) eqn:Ev; simpl; [exact I|].
      exists (p - s). split; [lia|split; [exact Ev|]].
      intros i Hi. apply Hrun. lia.
  - destruct Hs as (p & -> & Hle & Ep & Hrun & [Hs|(q & Hq & Eq)]);
      [discriminate|].
    simpl. split; [exact Ep|]. exists q. split; [lia|split; [exact Eq|]].
    intros i Hi. apply Hrun. lia.
  - exact I.
Qed.

Lemma explained_levels (fuel : nat) :
  forall l pos, explained expr (run_level expr l fuel pos).
Proof.
  induction fuel as [|fuel IH]; intros l pos; [destruct l; exact I|].
  destruct l; cbn [run_level].
  - simpl parsePrimary. apply skip_cases.
    set (q := skipWhitespace_pos expr pos).
    assert (skipWhitespace_pos expr q = q) as Hq
        by apply skipWhitespace_idempotent.
    apply match_cases; rewrite Hq; intros Eplus; [apply (IH Primary)|].
    apply match_cases; rewrite Hq; intros Eminus.
    { operand IH value p Hv. exact I. }
    apply match_cases; rewrite Hq; intros Eparen.
    + operand IH value p Hv. apply skip_cases.
      apply match_cases; rewrite skipWhitespace_idempotent; intros Eclose;
        [exact I|].
      simpl. split; [apply skipWhitespace_stops|split; [exact Eclose|]].
      exists q. split; [|exact Eparen].
      pose proof (keeps_levels expr fuel Expression (S q)
                    (nth_error_inside expr q _ Eparen)) as Hk.
      cbn [run_level] in Hk. rewrite Hv in Hk. simpl in Hk.
      pose proof (skipWhitespace_le expr p). lia.
    + apply explained_parseNumber; now rewrite Hq.
  - simpl parseExponent. operand IH base p Hb. apply skip_cases.
    apply match_cases; intros _; [|exact I].
    operand IH exponent p' He. exact I.
  - simpl parseTerm_loop. apply skip_cases.
    set (q := skipWhitespace_pos expr pos).
    assert (skipWhitespace_pos expr q = q) as Hq
        by apply skipWhitespace_idempotent.
    apply match_cases; rewrite Hq; intros Etimes.
    { operand IH rhs p Hr. apply (IH (TermLoop _)). }
    apply match_cases; rewrite Hq; intros Eover; [|exact I].
    operand IH rhs p Hr.
    destruct (rhs =? 0)%float; [|apply (IH (TermLoop _))].
    simpl. exists q. split; [|exact Eover].
    exact (consumes_parseExponent expr fuel (S q) rhs p
             (nth_error_inside expr q _ Eover) Hr).
  - simpl parseTerm. operand IH value p Hv. apply (IH (TermLoop _)).
  - simpl parseExpression_loop. apply skip_cases.
    apply match_cases; intros _.
    { operand IH rhs p Hr. apply (IH (ExpressionLoop _)). }
    apply match_cases; intros _; [|exact I].
    operand IH rhs p Hr. apply (IH (ExpressionLoop _)).
  - simpl parseExpression. operand IH value p Hv.
    apply (IH (ExpressionLoop _)).
Qed.

(** *** Where a grammar level returns *)

Lemma settled_weaken (ops ops' : list ascii) (pos : nat) :
  (forall c, In c ops' -> In c ops) ->
  settled expr ops pos -> settled expr ops' pos.
Proof. intros Hsub [Hsig Hops]. split; [exact Hsig|]. auto. Qed.

Lemma settled_add (c : ascii) (ops : list ascii) (pos : nat) :
  nth_error expr pos <> Some c -> settled expr ops pos ->
  settled expr (ops ++ [c]) pos.
Proof.
  intros Hc [Hsig Hops]. split; [exact Hsig|].
  intros d Hd. apply in_app_or in Hd as [Hd|[<-|[]]]; auto.
Qed.

Lemma settled_skip (ops : list ascii) (pos : nat) :
  settled expr ops pos -> skipWhitespace_pos expr pos = pos.
Proof. intros [Hsig _]. now apply skipWhitespace_fixed. Qed.

Lemma settled_miss (ops : list ascii) (c : ascii) (pos : nat) :
  settled expr ops pos -> nth_error expr pos <> Some c ->
  settled expr (ops ++ [c]) pos.
Proof. intros Hs Hc. now apply settled_add. Qed.

Lemma returns_settled_levels (fuel : nat) :
  forall l pos, loop_entry expr l pos ->
                returns_settled expr l (run_level expr l fuel pos).
Proof.
  induction fuel as [|fuel IH]; intros l pos Hentry; [destruct l; exact I|].
  assert (forall l pos v p,
             loop_entry expr l pos -> run_level expr l fuel pos = Ok (v, p) ->
             returns_settled expr l (@Ok (double * nat) (v, p))) as IH'.
  { intros l' pos' v p Hl Hr. rewrite <- Hr. now apply IH. }
  destruct l; cbn [run_level loop_entry] in *.
  - destruct (parsePrimary expr (S fuel) pos) as [[v p]|e|]; exact I.
  - simpl parseExponent. apply bind_cases; [intros base p Hb|easy..].
    apply skip_cases. apply match_cases; intros Ehat.
    + apply bind_cases; [intros exponent p' He|easy..].
      exact (IH' Exponent _ _ _ I He).
    + split; [apply skipWhitespace_stops|]. intros c [<-|[]]. exact Ehat.
  - simpl parseTerm_loop. apply skip_cases.
    rewrite (settled_skip _ _ Hentry).
    apply match_cases; rewrite (settled_skip _ _ Hentry); intros Etimes.
    { apply bind_cases; [intros rhs p Hr|easy..].
      exact (IH (TermLoop (value * rhs)%float) p (IH' Exponent _ _ _ I Hr)). }
    apply match_cases; rewrite (settled_skip _ _ Hentry); intros Eover.
    + apply bind_cases; [intros rhs p Hr|easy..].
      destruct (rhs =? 0)%float; [exact I|].
      exact (IH (TermLoop (value / rhs)%float) p (IH' Exponent _ _ _ I Hr)).
    + exact (settled_miss _ _ _ (settled_miss _ _ _ Hentry Etimes) Eover).
  - simpl parseTerm. apply bind_cases; [intros value p Hv|easy..].
    exact (IH (TermLoop value) p (IH' Exponent _ _ _ I Hv)).
  - simpl parseExpression_loop. apply skip_cases.
    rewrite (settled_skip _ _ Hentry).
    apply match_cases; rewrite (settled_skip _ _ Hentry); intros Eplus.
    { apply bind_cases; [intros rhs p Hr|easy..].
      exact (IH (ExpressionLoop (value + rhs)%float) p (IH' Term _ _ _ I Hr)). }
    apply match_cases; rewrite (settled_skip _ _ Hentry); intros Eminus.
    + apply bind_cases; [intros rhs p Hr|easy..].
      exact (IH (ExpressionLoop (value - rhs)%float) p (IH' Term _ _ _ I Hr)).
    + exact (settled_miss _ _ _ (settled_miss _ _ _ Hentry Eplus) Eminus).
  - simpl parseExpression. apply bind_cases; [intros value p Hv|easy..].
    exact (IH (ExpressionLoop value) p (IH' Term _ _ _ I Hv)).
Qed.

(** *** The exceptions of [parse] and [evaluate] *)

Lemma explained_parse (fuel : nat) : explained expr (parse expr fuel 0).
Proof.
  unfold parse. apply bind_cases; [intros v p Hv|intros e He|easy].
  - apply skip_cases.
    pose proof (returns_settled_levels fuel Expression 0 I) as Hs.
    cbn [run_level] in Hs. rewrite Hv in Hs. simpl in Hs.
    rewrite (settled_skip _ _ Hs).
    destruct (p =? length expr) eqn:E; simpl; [exact I|].
    apply Nat.eqb_neq in E.
    pose proof (keeps_levels expr fuel Expression 0 (Nat.le_0_l _)) as Hk.
    cbn [run_level] in Hk. rewrite Hv in Hk. simpl in Hk.
    destruct Hs as [Hsig Hops]. unfold significant, currentChar in *.
    destruct (nth_error expr p) as [c|] eqn:Ec.
    + split; [reflexivity|split; [exact Hsig|]].
      intros Hin. now apply (Hops c Hin).
    + apply nth_error_None in Ec. lia.
  - pose proof (explained_levels fuel Expression 0) as X.
    cbn [run_level] in X. now rewrite He in X.
Qed.

End Explained.

Section Exceptions.

Context `{Libm}.

Lemma evaluate_explained (expression : string) (e : EvalError) :
  evaluate expression = Throw e ->
  explains (list_ascii_of_string expression) e
  /\ reported e <= String.length expression.
Proof.
  unfold evaluate. set (expr := list_ascii_of_string expression).
  pose proof (explained_parse expr (enough (length expr))) as X.
  pose proof (keeps_parse expr (enough (length expr)) 0 (Nat.le_0_l _)) as K.
  destruct (parse expr (enough (length expr)) 0) as [[v p]|e'|];
    [discriminate| |discriminate].
  intros [= ->]. split; [exact X|].
  simpl in K. unfold expr in K. rewrite length_list_ascii_of_string in K. lia.
Qed.

(** X1: an expected-number error reports a position inside the input or
    its end, on no whitespace, where no operand can begin: the character
    there, if any, is no digit, no decimal point, no sign and no opening
    parenthesis. *)
Theorem expected_number_explained (expression : string) (pos : nat) :
  evaluate expression = Throw (ExpectedNumber pos) ->
  pos <= String.length expression
  /\ significant (list_ascii_of_string expression) pos
  /\ forall c, nth_error (list_ascii_of_string expression) pos = Some c ->
               is_numeric c = false
               /\ c <> "+"%char /\ c <> "-"%char /\ c <> "("%char.
Proof.
  intros E. destruct (evaluate_explained expression _ E) as [[Hs Hc] Hle].
  auto.
Qed.

(** X2: a malformed-number error reports the position of a decimal point
    that follows an earlier decimal point of the same run of digits and
    points. *)
Theorem malformed_number_explained (expression : string) (pos : nat) :
  evaluate expression = Throw (MalformedNumber pos) ->
  nth_error (list_ascii_of_string expression) pos = Some "."%char
  /\ exists q,
      q < pos
      /\ nth_error (list_ascii_of_string expression) q = Some "."%char
      /\ forall i, q <= i < pos ->
                   numeric_at (list_ascii_of_string expression) i.
Proof.
  intros E. exact (proj1 (evaluate_explained expression _ E)).
Qed.

(** X3: a number-conversion error reports the first character of a run of
    digits and points that [std::stod] does not convert. *)
Theorem conversion_error_explained (expression : string) (pos : nat) :
  evaluate expression = Throw (NumberConversionError pos) ->
  exists n,
    0 < n
    /\ stod (substr (list_ascii_of_string expression) pos n) = None
    /\ forall i, pos <= i < pos + n ->
                 numeric_at (list_ascii_of_string expression) i.
Proof.
  intros E. exact (proj1 (evaluate_explained expression _ E)).
Qed.

(** X4: an unmatched-parenthesis error reports a position behind an
    opening parenthesis, on no whitespace, where the input ends or holds a
    character other than the closing parenthesis. *)
Theorem unmatched_parenthesis_explained (expression : string) (pos : nat) :
  evaluate expression = Throw (UnmatchedParenthesis pos) ->
  significant (list_ascii_of_string expression) pos
  /\ nth_error (list_ascii_of_string expression) pos <> Some ")"%char
  /\ exists q,
      q < pos /\ nth_error (list_ascii_of_string expression) q = Some "("%char.
Proof.
  intros E. exact (proj1 (evaluate_explained expression _ E)).
Qed.

(** X5: a division-by-zero error reports a position behind a division
    sign and at least one character of its divisor. *)
Theorem division_by_zero_explained (expression : string) (pos : nat) :
  evaluate expression = Throw (DivisionByZero pos) ->
  pos <= String.length expression
  /\ exists q,
      S q < pos /\ nth_error (list_ascii_of_string expression) q = Some "/"%char.
Proof.
  intros E. destruct (evaluate_explained expression _ E) as [X Hle].
  split; [exact Hle|exact X].
Qed.

(** X6: an unexpected-token error reports the character at its position,
    which is inside the input, is no whitespace and is none of the five
    binary operators. *)
Theorem unexpected_token_explained (expression : string) (pos : nat)
        (c : ascii) :
  evaluate expression = Throw (UnexpectedToken pos c) ->
  nth_error (list_ascii_of_string expression) pos = Some c
  /\ isspace c = false
  /\ ~ In c operator_chars.
Proof.
  intros E. exact (proj1 (evaluate_explained expression _ E)).
Qed.

End Exceptions.

(** ** Inputs without an operand, single literals and signs *)

Section Operands.

Context `{Libm}.

Lemma bind_skip_eq (expr : list ascii) {B} (k : unit -> Parser B) (pos : nat) :
  bind (skipWhitespace expr) k pos = k tt (skipWhitespace_pos expr pos).
Proof. reflexivity. Qed.

Lemma scanNumber_stops (expr : list ascii) (n : nat) (seen : bool)
      (pos : nat) :
  (forall c, nth_error expr pos = Some c -> is_numeric c = false) ->
  scanNumber expr n seen pos = Ok pos.
Proof.
  intros Hc. destruct n as [|n]; simpl; [reflexivity|].
  destruct (nth_error expr pos) as [c|]; [|reflexivity].
  fold (is_numeric c). now rewrite (Hc c eq_refl).
Qed.

Lemma all_space_skipped (expr : list ascii) :
  forallb isspace expr = true -> skipWhitespace_pos expr 0 = length expr.
Proof.
  intros Hall.
  pose proof (skipWhitespace_stops expr 0) as Hsig.
  pose proof (skipWhitespace_loop_within expr (length expr - 0) 0
                (Nat.le_0_l _)) as Hin.
  fold (skipWhitespace_pos expr 0) in Hin. unfold significant in Hsig.
  destruct (nth_error expr (skipWhitespace_pos expr 0)) as [c|] eqn:E.
  - rewrite forallb_forall in Hall.
    rewrite (Hall c (nth_error_In _ _ E)) in Hsig. discriminate.
  - apply nth_error_None in E. lia.
Qed.

(** What the first primary throws is what [parse] throws. *)
Lemma primary_throw_is_answer (expr : list ascii) (fuel pos : nat)
      (e : EvalError) :
  parsePrimary expr fuel pos = Throw e ->
  parse expr (S (S (S fuel))) pos = Throw e.
Proof.
  intros P.
  assert (parseExponent expr (S fuel) pos = Throw e) as E
      by (simpl parseExponent; unfold bind at 1; now rewrite P).
  unfold parse. unfold bind at 1. rewrite parseExpression_S.
  unfold bind at 1. rewrite parseTerm_S. unfold bind at 1. now rewrite E.
Qed.

(** Where no operand begins, every grammar level throws. *)
Lemma no_operand_throws (expr : list ascii) (fuel pos : nat) :
  (forall c, nth_error expr (skipWhitespace_pos expr pos) = Some c ->
             is_numeric c = false
             /\ c <> "+"%char /\ c <> "-"%char /\ c <> "("%char) ->
  parse expr (S (S (S (S fuel)))) pos
  = Throw (ExpectedNumber (skipWhitespace_pos expr pos)).
Proof.
  intros Hc. set (q := skipWhitespace_pos expr pos) in *.
  assert (significant expr q) as Hsig by apply skipWhitespace_stops.
  assert (forall d, In d ["+"; "-"; "("]%char -> nth_error expr q <> Some d)
    as Hno.
  { intros d Hd E. destruct (Hc d E) as (_ & H1 & H2 & H3).
    destruct Hd as [<-|[<-|[<-|[]]]]; congruence. }
  assert (parsePrimary expr (S fuel) pos = Throw (ExpectedNumber q)) as P.
  { simpl parsePrimary. rewrite bind_skip_eq. fold q.
    rewrite !bind_match_miss by (trivial; apply Hno; simpl; auto).
    unfold parseNumber. rewrite bind_skip_eq.
    rewrite (skipWhitespace_fixed expr q Hsig).
    rewrite scanNumber_stops by (intros c E; now apply Hc).
    now rewrite Nat.eqb_refl. }
  now apply primary_throw_is_answer.
Qed.

(** X7: when the first significant character of the input can begin no
    operand (it is no digit, decimal point, sign or opening parenthesis)
    or the input holds whitespace only, [evaluate] throws the
    expected-number error at that character, respectively at the end; the
    empty input throws it at 0. *)
Theorem no_operand_expected_number (expression : string) :
  ((forall c,
       nth_error (list_ascii_of_string expression)
         (skipWhitespace_pos (list_ascii_of_string expression) 0) = Some c ->
       is_numeric c = false
       /\ c <> "+"%char /\ c <> "-"%char /\ c <> "("%char) ->
   evaluate expression
   = Throw (ExpectedNumber
              (skipWhitespace_pos (list_ascii_of_string expression) 0)))
  /\ (forallb isspace (list_ascii_of_string expression) = true ->
      evaluate expression = Throw (ExpectedNumber (String.length expression))).
Proof.
  split.
  - intros Hc. apply evaluate_throws with (fuel := 4).
    now apply no_operand_throws.
  - intros Hall. apply evaluate_throws with (fuel := 4).
    rewrite <- length_list_ascii_of_string, <- (all_space_skipped _ Hall).
    apply no_operand_throws. intros c E.
    rewrite (all_space_skipped _ Hall) in E.
    apply nth_error_inside in E. lia.
Qed.

(** X8: an input that is one numeric literal evaluates to the value
    [std::stod] gives it, and throws the number-conversion error at 0 when
    [std::stod] converts nothing or reports a range error. *)
Theorem literal_evaluates_to_stod (a : string) :
  literal a = true ->
  evaluate a = match literal_value a with
               | Some v => Ok v
               | None => Throw (NumberConversionError 0)
               end.
Proof.
  intros Ha. unfold literal_value.
  set (expr := list_ascii_of_string a).
  assert (skipn 0 expr = expr ++ []) as V by (simpl; now rewrite app_nil_r).
  destruct (stod expr) as [v|] eqn:Hv.
  - destruct (parseExponent_last expr 0 0 expr v V Ha Hv) as [Ea E].
    apply evaluate_returns with (fuel := 4) (p := 0 + length expr).
    now apply parse_exponent_to_end.
  - apply evaluate_throws with (fuel := 4).
    pose proof (parsePrimary_literal expr 0 0 expr [] V Ha eq_refl) as P.
    fold expr in P. rewrite Hv in P.
    now apply primary_throw_is_answer.
Qed.

Lemma sign_char (c : ascii) :
  is_sign c = true -> c = "+"%char \/ c = "-"%char.
Proof.
  unfold is_sign. intros Hc. apply orb_prop in Hc as [Hc|Hc];
    apply Ascii.eqb_eq in Hc; auto.
Qed.

Lemma parsePrimary_signed (expr : list ascii) (signs t rest : list ascii)
      (v : double) (fuel : nat) :
  forallb is_sign signs = true -> literal_chars t = true ->
  ends_literal rest = true -> stod t = Some v ->
  forall pos,
    skipn pos expr = signs ++ t ++ rest ->
    parsePrimary expr (length signs + S fuel) pos
    = Ok (signed signs v, pos + length signs + length t).
Proof.
  intros Hsigns Ht Hrest Hv.
  induction signs as [|c signs IH]; intros pos V.
  - cbn [length Nat.add app signed] in *.
    rewrite (parsePrimary_literal expr fuel pos t rest V Ht Hrest).
    rewrite Hv. now rewrite Nat.add_0_r.
  - cbn [forallb] in Hsigns. apply andb_prop in Hsigns as [Hc Hsigns].
    cbn [app] in V. pose proof (view_head expr pos _ _ V) as E.
    specialize (IH Hsigns (S pos) (view_tail expr pos _ _ V)).
    replace (pos + length (c :: signs) + length t)
      with (S pos + length signs + length t) by (simpl; lia).
    cbn [length Nat.add signed].
    destruct (sign_char c Hc) as [-> | ->].
    + rewrite (parsePrimary_plus expr _ pos E). exact IH.
    + rewrite (parsePrimary_minus expr _ pos E). unfold bind.
      now rewrite IH.
Qed.

(** X9: a numeric literal behind any row of plus and minus signs
    evaluates to its value negated once for each minus sign. *)
Theorem signs_negate (signs a : string) (va : double) :
  forallb is_sign (list_ascii_of_string signs) = true ->
  literal a = true -> literal_value a = Some va ->
  evaluate (signs ++ a) = Ok (signed (list_ascii_of_string signs) va).
Proof.
  intros Hsigns Ha Hva.
  set (s := list_ascii_of_string signs). set (t := list_ascii_of_string a).
  set (expr := s ++ t).
  assert (skipn 0 expr = s ++ t ++ []) as V
      by (simpl; now rewrite app_nil_r).
  pose proof (parsePrimary_signed expr s t [] va 0 Hsigns Ha eq_refl Hva 0 V)
    as P.
  pose proof (view_end expr _
                (view_app expr _ t [] (view_app expr 0 s _ V))) as E.
  apply evaluate_returns
    with (fuel := S (S (S (length s + 1)))) (p := 0 + length s + length t).
  rewrite list_ascii_of_string_app. fold s t expr.
  apply parse_exponent_to_end; [|exact E].
  apply parseExponent_end with (1 := P);
    [now apply at_end_significant|rewrite E; discriminate].
Qed.

End Operands.

(** ** Locality: the parser reads nothing in front of the cursor *)

Section Locality.

Context `{Libm}.
Variables pre expr : list ascii.

Lemma nth_error_behind (pos : nat) :
  nth_error (pre ++ expr) (length pre + pos) = nth_error expr pos.
Proof.
  rewrite nth_error_app2 by lia. f_equal. lia.
Qed.

Lemma remaining_behind (pos : nat) :
  length (pre ++ expr) - (length pre + pos) = length expr - pos.
Proof. rewrite length_app. lia. Qed.

Lemma skipWhitespace_loop_behind (n pos : nat) :
  skipWhitespace_loop (pre ++ expr) n (length pre + pos)
  = length pre + skipWhitespace_loop expr n pos.
Proof.
  revert pos. induction n as [|n IH]; intros pos; simpl; [reflexivity|].
  rewrite nth_error_behind.
  destruct (nth_error expr pos) as [c|]; [|reflexivity].
  destruct (isspace c); [|reflexivity].
  rewrite <- IH. f_equal. lia.
Qed.

Lemma skipWhitespace_behind (pos : nat) :
  skipWhitespace_pos (pre ++ expr) (length pre + pos)
  = length pre + skipWhitespace_pos expr pos.
Proof.
  unfold skipWhitespace_pos. rewrite remaining_behind.
  apply skipWhitespace_loop_behind.
Qed.

Lemma substr_behind (start n : nat) :
  substr (pre ++ expr) (length pre + start) n = substr expr start n.
Proof.
  unfold substr. rewrite skipn_app.
  rewrite skipn_all2 by lia.
  now replace (length pre + start - length pre) with start by lia.
Qed.

Lemma shifted_bind {A B} (c' c : Parser A) (k' k : A -> Parser B) :
  shifted (length pre) c' c -> (forall a, shifted (length pre) (k' a) (k a)) ->
  shifted (length pre) (bind c' k') (bind c k).
Proof.
  intros Hc Hk pos. unfold bind. rewrite Hc.
  destruct (c pos) as [[a p]|e|]; simpl; [apply Hk|reflexivity..].
Qed.

Lemma shifted_ret {A} (a : A) : shifted (length pre) (ret a) (ret a).
Proof. intros pos. reflexivity. Qed.

Lemma shifted_throw {A} (e : nat -> EvalError) :
  (forall pos, e (length pre + pos) = shift_error (length pre) (e pos)) ->
  shifted (length pre) (@throw A e) (@throw A e).
Proof. intros He pos. unfold throw. simpl. now rewrite He. Qed.

Lemma shifted_skipWhitespace :
  shifted (length pre) (skipWhitespace (pre ++ expr)) (skipWhitespace expr).
Proof.
  intros pos. unfold skipWhitespace. simpl. now rewrite skipWhitespace_behind.
Qed.

Lemma shifted_match (expected : ascii) :
  shifted (length pre) (match_ (pre ++ expr) expected) (match_ expr expected).
Proof.
  intros pos. rewrite !match_unfold. cbv zeta.
  rewrite skipWhitespace_behind, nth_error_behind.
  destruct (nth_error expr (skipWhitespace_pos expr pos)) as [c|];
    [|reflexivity].
  destruct (Ascii.eqb c expected); simpl; [|reflexivity].
  do 2 f_equal. lia.
Qed.

Lemma scanNumber_behind (n : nat) (seen : bool) (pos : nat) :
  scanNumber (pre ++ expr) n seen (length pre + pos)
  = match scanNumber expr n seen pos with
    | Ok p => Ok (length pre + p)
    | Throw e => Throw (shift_error (length pre) e)
    | OutOfFuel => OutOfFuel
    end.
Proof.
  revert seen pos. induction n as [|n IH]; intros seen pos; simpl;
    [reflexivity|].
  rewrite nth_error_behind.
  destruct (nth_error expr pos) as [c|]; [|reflexivity].
  destruct (isdigit c || is_point c); [|reflexivity].
  replace (S (length pre + pos)) with (length pre + S pos) by lia.
  destruct (is_point c); [destruct seen; [reflexivity|]|]; apply IH.
Qed.

Lemma shifted_parseNumber :
  shifted (length pre) (parseNumber (pre ++ expr)) (parseNumber expr).
Proof.
  unfold parseNumber. apply shifted_bind; [apply shifted_skipWhitespace|].
  intros _ start. rewrite remaining_behind, scanNumber_behind.
  destruct (scanNumber expr (length expr - start) false start) as [p|e|];
    [|reflexivity..].
  replace (length pre + start =? length pre + p) with (start =? p)
    by (destruct (Nat.eqb_spec start p);
        [subst; now rewrite Nat.eqb_refl
        |symmetry; apply Nat.eqb_neq; lia]).
  destruct (start =? p); [reflexivity|].
  replace (length pre + p - (length pre + start)) with (p - start) by lia.
  rewrite substr_behind.
  destruct (stod (substr expr start (p - start))); reflexivity.
Qed.

End Locality.

Ltac shifted_step :=
  match goal with
  | |- shifted _ (bind _ _) (bind _ _) => apply shifted_bind; [|intros ?]
  | |- shifted _ (if ?b then _ else _) _ => destruct b
  | |- shifted _ (ret _) _ => apply shifted_ret
  | |- shifted _ (throw _) _ => apply shifted_throw; reflexivity
  | |- shifted _ (skipWhitespace _) _ => apply shifted_skipWhitespace
  | |- shifted _ (match_ _ _) _ => apply shifted_match
  | |- shifted _ (parseNumber _) _ => apply shifted_parseNumber
  end.

Section LocalityLevels.

Context `{Libm}.
Variables pre expr : list ascii.

Lemma shifted_levels (fuel : nat) (l : level) :
  shifted (length pre) (run_level (pre ++ expr) l fuel) (run_level expr l fuel).
Proof.
  revert l. induction fuel as [|fuel IH]; intros l.
  - destruct l; intros pos; reflexivity.
  - destruct l; simpl; repeat (shifted_step || by_level IH).
Qed.

End LocalityLevels.

Section LocalityTheorem.

Context `{Libm}.

(** X10: the parser reads nothing in front of the cursor.  Every grammar
    level, run on an input behind any prefix from a cursor behind that
    prefix, does what it does on the input alone, with every position (of
    the cursor and in exceptions) moved by the length of the prefix. *)
Theorem levels_read_behind_cursor (pre expr : list ascii) (l : level)
        (fuel pos : nat) :
  run_level (pre ++ expr) l fuel (length pre + pos)
  = shift_result (length pre) (run_level expr l fuel pos).
Proof. apply shifted_levels. Qed.

End LocalityTheorem.

(** ** Whitespace in front of the input *)

Section LeadingWhitespace.

Context `{Libm}.

Lemma skipWhitespace_reaches (expr : list ascii) (q : nat) :
  significant expr q ->
  forall d pos,
    q = pos + d ->
    (forall i, pos <= i < q ->
               exists c, nth_error expr i = Some c /\ isspace c = true) ->
    skipWhitespace_pos expr pos = q.
Proof.
  intros Hsig. induction d as [|d IH]; intros pos Hq Hrun.
  - replace q with pos in * by lia. now apply skipWhitespace_fixed.
  - destruct (Hrun pos ltac:(lia)) as (c & E & Hc).
    pose proof (nth_error_inside expr pos c E) as Hin.
    unfold skipWhitespace_pos.
    replace (length expr - pos) with (S (length expr - S pos)) by lia.
    simpl. rewrite E, Hc. apply (IH (S pos)); [lia|].
    intros i Hi. apply Hrun. lia.
Qed.

Lemma skips_agree (expr : list ascii) (pos q : nat) :
  pos <= q ->
  (forall i, pos <= i < q ->
             exists c, nth_error expr i = Some c /\ isspace c = true) ->
  skipWhitespace_pos expr pos = skipWhitespace_pos expr q.
Proof.
  intros Hle Hrun. pose proof (skipWhitespace_le expr q) as Hq.
  apply skipWhitespace_reaches
    with (d := skipWhitespace_pos expr q - pos);
    [apply skipWhitespace_stops|lia|].
  intros i Hi. destruct (le_lt_dec q i) as [Hqi|Hiq].
  - apply (skipWhitespace_loop_skipped expr (length expr - q) q).
    fold (skipWhitespace_pos expr q). lia.
  - apply Hrun. lia.
Qed.

(** Every grammar level begins by skipping whitespace. *)
Lemma levels_skip_first (expr : list ascii) (l : level) (fuel pos : nat) :
  run_level expr l fuel pos
  = run_level expr l fuel (skipWhitespace_pos expr pos).
Proof.
  assert (forall fuel pos,
             parsePrimary expr fuel pos
             = parsePrimary expr fuel (skipWhitespace_pos expr pos)) as P.
  { intros [|f] p; [reflexivity|]. simpl parsePrimary.
    now rewrite !bind_skip_eq, skipWhitespace_idempotent. }
  assert (forall fuel pos,
             parseExponent expr fuel pos
             = parseExponent expr fuel (skipWhitespace_pos expr pos)) as E.
  { intros [|f] p; [reflexivity|]. simpl parseExponent. unfold bind.
    now rewrite (P f p). }
  assert (forall fuel pos,
             parseTerm expr fuel pos
             = parseTerm expr fuel (skipWhitespace_pos expr pos)) as T.
  { intros [|f] p; [reflexivity|]. rewrite !parseTerm_S. unfold bind.
    now rewrite (E f p). }
  destruct l; cbn [run_level]; trivial.
  - destruct fuel as [|f]; [reflexivity|]. simpl parseTerm_loop.
    now rewrite !bind_skip_eq, skipWhitespace_idempotent.
  - destruct fuel as [|f]; [reflexivity|]. simpl parseExpression_loop.
    now rewrite !bind_skip_eq, skipWhitespace_idempotent.
  - destruct fuel as [|f]; [reflexivity|]. rewrite !parseExpression_S.
    unfold bind. now rewrite (T f pos).
Qed.

Lemma shifted_parse_tail (pre expr : list ascii) (v : double) :
  shifted (length pre)
    (bind (skipWhitespace (pre ++ expr))
       (fun _ pos =>
          if negb (pos =? length (pre ++ expr))
          then Throw (UnexpectedToken pos (currentChar (pre ++ expr) pos))
          else Ok (v, pos)))
    (bind (skipWhitespace expr)
       (fun _ pos =>
          if negb (pos =? length expr)
          then Throw (UnexpectedToken pos (currentChar expr pos))
          else Ok (v, pos))).
Proof.
  apply shifted_bind; [apply shifted_skipWhitespace|].
  intros _ pos. unfold currentChar. rewrite nth_error_behind, length_app.
  replace (length pre + pos =? length pre + length expr)
    with (pos =? length expr)
    by (destruct (Nat.eqb_spec pos (length expr));
        [subst; now rewrite Nat.eqb_refl
        |symmetry; apply Nat.eqb_neq; lia]).
  destruct (pos =? length expr); reflexivity.
Qed.

Lemma parse_behind_whitespace (pre expr : list ascii) (fuel : nat) :
  forallb isspace pre = true ->
  parse (pre ++ expr) fuel 0 = shift_result (length pre) (parse expr fuel 0).
Proof.
  intros Hpre.
  assert (parseExpression (pre ++ expr) fuel 0
          = shift_result (length pre) (parseExpression expr fuel 0)) as X.
  { change (run_level (pre ++ expr) Expression fuel 0
            = shift_result (length pre) (run_level expr Expression fuel 0)).
    rewrite (levels_skip_first (pre ++ expr) Expression fuel 0).
    rewrite (levels_skip_first expr Expression fuel 0).
    rewrite (skips_agree (pre ++ expr) 0 (length pre + 0)); [|lia|].
    - rewrite skipWhitespace_behind.
      apply shifted_levels.
    - intros i Hi. rewrite forallb_forall in Hpre.
      destruct (nth_error pre i) as [c|] eqn:E.
      + exists c. rewrite nth_error_app1 by lia.
        split; [exact E|]. apply Hpre. exact (nth_error_In _ _ E).
      + apply nth_error_None in E. lia. }
  unfold parse. unfold bind at 1 3. rewrite X.
  destruct (parseExpression expr fuel 0) as [[v p]|e|]; simpl;
    [|reflexivity..].
  apply (shifted_parse_tail pre expr v p).
Qed.

(** X11: whitespace in front of an expression does not change the value
    it evaluates to, and an exception it throws reports its position
    moved by the number of whitespace characters. *)
Theorem leading_whitespace_ignored (ws expression : string) :
  forallb isspace (list_ascii_of_string ws) = true ->
  evaluate (ws ++ expression)
  = shift_answer (String.length ws) (evaluate expression).
Proof.
  intros Hws. unfold evaluate at 1. rewrite list_ascii_of_string_app.
  set (pre := list_ascii_of_string ws).
  set (expr := list_ascii_of_string expression).
  pose proof (parse_behind_whitespace pre expr (enough (length expr)) Hws)
    as P.
  pose proof (parse_never_exhausted expr) as Hrun.
  rewrite (parse_enough (pre ++ expr) (enough (length expr)) _ P).
  - unfold evaluate. fold expr. unfold pre.
    rewrite length_list_ascii_of_string.
    destruct (parse expr (enough (length expr)) 0) as [[v p]|e|];
      reflexivity.
  - destruct (parse expr (enough (length expr)) 0) as [[v p]|e|];
      [discriminate..|now elim Hrun].
Qed.

End LeadingWhitespace.

(** ** What a grammar level returns does not depend on what follows a closer *)

Lemma closer_facts (closer : ascii) :
  is_closer closer = true ->
  isspace closer = false /\ is_numeric closer = false
  /\ forall op, In op operator_chars -> op <> closer.
Proof.
  unfold is_closer. intros closer_closes.
  apply andb_prop in closer_closes as [Hc Hops].
  apply andb_prop in Hc as [Hsp Hnum].
  apply negb_true_iff in Hsp, Hnum, Hops.
  repeat split; trivial. intros op Hin ->.
  assert (existsb (Ascii.eqb closer) operator_chars = true) as Hex
      by (apply existsb_exists; exists closer;
          split; [exact Hin|apply Ascii.eqb_refl]).
  congruence.
Qed.

(** The input is continued by a character that is no whitespace and no
    part of a literal. *)
Section Continued.

Context `{Libm}.
Variables expr rest : list ascii.
Variable closer : ascii.
Hypothesis closer_significant : isspace closer = false.
Hypothesis closer_not_numeric : is_numeric closer = false.

Lemma nth_error_inside_continued (pos : nat) :
  pos < length expr ->
  nth_error (expr ++ closer :: rest) pos = nth_error expr pos.
Proof. intros Hpos. now apply nth_error_app1. Qed.

Lemma nth_error_closer :
  nth_error (expr ++ closer :: rest) (length expr) = Some closer.
Proof. rewrite nth_error_app2, Nat.sub_diag by lia. reflexivity. Qed.

Lemma skipWhitespace_continued (pos : nat) :
  pos <= length expr ->
  skipWhitespace_pos (expr ++ closer :: rest) pos = skipWhitespace_pos expr pos.
Proof.
  intros Hpos. pose proof closer_significant as Hsp.
  pose proof (skipWhitespace_loop_within expr (length expr - pos) pos Hpos)
    as Hin.
  fold (skipWhitespace_pos expr pos) in Hin.
  set (q := skipWhitespace_pos expr pos) in *.
  apply skipWhitespace_reaches with (d := q - pos); [|lia|].
  - unfold significant. destruct (Nat.eq_dec q (length expr)) as [->|Hne].
    + now rewrite nth_error_closer.
    + rewrite nth_error_inside_continued by lia.
      apply (skipWhitespace_stops expr pos).
  - intros i Hi. rewrite nth_error_inside_continued by lia.
    apply (skipWhitespace_loop_skipped expr (length expr - pos) pos). exact Hi.
Qed.

Lemma match_continued (expected : ascii) (pos : nat) :
  expected <> closer -> pos <= length expr ->
  match_ (expr ++ closer :: rest) expected pos = match_ expr expected pos.
Proof.
  intros Hne Hpos. rewrite !match_unfold. cbv zeta.
  rewrite skipWhitespace_continued by assumption.
  pose proof (skipWhitespace_loop_within expr (length expr - pos) pos Hpos)
    as Hin.
  fold (skipWhitespace_pos expr pos) in Hin.
  set (q := skipWhitespace_pos expr pos) in *.
  destruct (Nat.eq_dec q (length expr)) as [Hq|Hq].
  - rewrite Hq, nth_error_closer.
    replace (nth_error expr (length expr)) with (@None ascii)
      by (symmetry; apply nth_error_None; lia).
    destruct (Ascii.eqb_spec closer expected); [congruence|reflexivity].
  - now rewrite nth_error_inside_continued by lia.
Qed.

Lemma scanNumber_continued (n : nat) :
  forall n' seen pos,
    pos <= length expr -> length expr - pos <= n ->
    length (expr ++ closer :: rest) - pos <= n' ->
    scanNumber (expr ++ closer :: rest) n' seen pos = scanNumber expr n seen pos.
Proof.
  pose proof closer_not_numeric as Hnum.
  induction n as [|n IH]; intros n' seen pos Hpos Hn Hn';
    rewrite length_app in Hn'; simpl in Hn'.
  - assert (pos = length expr) as -> by lia.
    destruct n' as [|n']; [lia|]. simpl. rewrite nth_error_closer.
    unfold is_numeric in Hnum. now rewrite Hnum.
  - destruct n' as [|n']; [lia|]. simpl.
    destruct (Nat.eq_dec pos (length expr)) as [->|Hne].
    + rewrite nth_error_closer.
      replace (nth_error expr (length expr)) with (@None ascii)
        by (symmetry; apply nth_error_None; lia).
      unfold is_numeric in Hnum. now rewrite Hnum.
    + rewrite nth_error_inside_continued by lia.
      destruct (nth_error expr pos) as [c|]; [|reflexivity].
      destruct (isdigit c || is_point c); [|reflexivity].
      destruct (is_point c); [destruct seen; [reflexivity|]|];
        apply IH; try lia; rewrite length_app; simpl; lia.
Qed.

Lemma substr_continued (start n : nat) :
  start + n <= length expr ->
  substr (expr ++ closer :: rest) start n = substr expr start n.
Proof.
  intros Hle. unfold substr. rewrite skipn_app, firstn_app.
  replace (n - length (skipn start expr)) with 0
    by (rewrite length_skipn; lia).
  now rewrite firstn_O, app_nil_r.
Qed.

Lemma parseNumber_continued (pos : nat) :
  pos <= length expr ->
  parseNumber (expr ++ closer :: rest) pos = parseNumber expr pos.
Proof.
  intros Hpos. unfold parseNumber. rewrite !bind_skip_eq.
  rewrite skipWhitespace_continued by assumption.
  pose proof (skipWhitespace_loop_within expr (length expr - pos) pos Hpos)
    as Hin.
  fold (skipWhitespace_pos expr pos) in Hin.
  set (start := skipWhitespace_pos expr pos) in *.
  rewrite (scanNumber_continued (length expr - start)) by lia.
  pose proof (scanNumber_within expr (length expr - start) false start
                (proj2 Hin)) as Hs.
  destruct (scanNumber expr (length expr - start) false start) as [p|e|];
    [|reflexivity..].
  destruct (start =? p); [reflexivity|].
  now rewrite substr_continued by lia.
Qed.

Lemma parseNumber_at_end (v : double) (p : nat) :
  parseNumber expr (length expr) <> Ok (v, p).
Proof.
  unfold parseNumber. rewrite bind_skip_eq.
  rewrite skipWhitespace_fixed
    by (apply at_end_significant, nth_error_None; lia).
  rewrite scanNumber_stops
    by (intros c E; apply nth_error_inside in E; lia).
  now rewrite Nat.eqb_refl.
Qed.

(** *** Rules for [carries_over] *)

Lemma carries_bind {A B} (c c' : Parser A) (k k' : A -> Parser B) :
  carries_over (length expr) c c' -> keeps_cursor expr c ->
  (forall a, carries_over (length expr) (k a) (k' a)) ->
  carries_over (length expr) (bind c k) (bind c' k').
Proof.
  intros Hc Hkeep Hk pos b p Hpos. unfold bind.
  specialize (Hkeep pos Hpos). specialize (Hc pos).
  destruct (c pos) as [[a q]|e|]; [|discriminate..].
  rewrite (Hc a q Hpos eq_refl). simpl in Hkeep. apply Hk. lia.
Qed.

Lemma carries_same {A} (c c' : Parser A) :
  (forall pos, pos <= length expr -> c' pos = c pos) ->
  carries_over (length expr) c c'.
Proof. intros Heq pos a p Hpos Hr. now rewrite Heq. Qed.

Lemma carries_nothing {A} (c c' : Parser A) :
  (forall pos a p, c pos <> Ok (a, p)) -> carries_over (length expr) c c'.
Proof. intros Hno pos a p _ Hr. now elim (Hno pos a p). Qed.

(** A match whose miss at the end of the input returns nothing. *)
Lemma carries_match {B} (expected : ascii) (hit hit' miss miss' : Parser B) :
  (forall b p, miss (length expr) <> Ok (b, p)) ->
  carries_over (length expr) hit hit' ->
  carries_over (length expr) miss miss' ->
  carries_over (length expr)
    (bind (match_ expr expected) (fun b : bool => if b then hit else miss))
    (bind (match_ (expr ++ closer :: rest) expected)
       (fun b : bool => if b then hit' else miss')).
Proof.
  intros Hend Hhit Hmiss pos b p Hpos. unfold bind.
  rewrite !match_unfold. cbv zeta.
  rewrite skipWhitespace_continued by assumption.
  pose proof (skipWhitespace_loop_within expr (length expr - pos) pos Hpos)
    as Hin.
  fold (skipWhitespace_pos expr pos) in Hin.
  set (q := skipWhitespace_pos expr pos) in *.
  destruct (nth_error expr q) as [c|] eqn:E.
  - pose proof (nth_error_inside expr q c E) as Hq.
    rewrite nth_error_inside_continued, E by lia.
    destruct (Ascii.eqb c expected); [apply Hhit|apply Hmiss]; lia.
  - apply nth_error_None in E. assert (q = length expr) as -> by lia.
    intros Hr. now elim (Hend b p).
Qed.

End Continued.

Ltac carries_step Hclose :=
  match goal with
  | |- carries_over _ (bind (match_ _ "("%char) _) _ =>
      apply (carries_match _ _ _ (proj1 (closer_facts _ Hclose)));
      [intros ? ?; apply parseNumber_at_end| |]
  | |- carries_over _ (bind (match_ _ ")"%char) _) _ =>
      apply (carries_match _ _ _ (proj1 (closer_facts _ Hclose)));
      [intros ? ?; discriminate| |]
  | |- carries_over _ (bind _ _) (bind _ _) =>
      apply carries_bind;
      [|solve [repeat keeps_step | keeps_level]|intros ?]
  | |- carries_over _ (if ?b then _ else _) _ => destruct b
  | |- carries_over _ (ret _) _ => apply carries_same; reflexivity
  | |- carries_over _ (throw _) _ =>
      apply carries_nothing; intros ? ? ?; discriminate
  | |- carries_over _ (skipWhitespace _) _ =>
      apply carries_same; intros ? ?; unfold skipWhitespace;
      now rewrite (skipWhitespace_continued _ _ _
                     (proj1 (closer_facts _ Hclose)))
  | |- carries_over _ (match_ _ _) _ =>
      apply carries_same; intros ? ?;
      apply (match_continued _ _ _ (proj1 (closer_facts _ Hclose)));
      [|assumption];
      apply (proj2 (proj2 (closer_facts _ Hclose))); simpl; tauto
  | |- carries_over _ (parseNumber _) _ =>
      apply carries_same; intros ? ?;
      now apply (parseNumber_continued _ _ _
                   (proj1 (closer_facts _ Hclose))
                   (proj1 (proj2 (closer_facts _ Hclose))))
  end.

Section ContinuedLevels.

Context `{Libm}.
Variables expr rest : list ascii.
Variable closer : ascii.
Hypothesis closer_closes : is_closer closer = true.

Lemma carries_levels (fuel : nat) (l : level) :
  carries_over (length expr)
    (run_level expr l fuel) (run_level (expr ++ closer :: rest) l fuel).
Proof.
  revert l. induction fuel as [|fuel IH]; intros l.
  - destruct l; intros pos v p _; discriminate.
  - destruct l; simpl; repeat (carries_step closer_closes || by_level IH).
Qed.

End ContinuedLevels.

(** ** Parenthesised expressions as operands *)

Section Groups.

Context `{Libm}.

Lemma evaluate_returns_inv (expression : string) (v : double) :
  evaluate expression = Ok v ->
  exists p,
    parseExpression (list_ascii_of_string expression)
      (enough (String.length expression)) 0 = Ok (v, p)
    /\ p <= String.length expression
    /\ skipWhitespace_pos (list_ascii_of_string expression) p
       = String.length expression.
Proof.
  unfold evaluate. rewrite <- length_list_ascii_of_string.
  set (expr := list_ascii_of_string expression).
  pose proof (keeps_levels expr (enough (length expr)) Expression 0
                (Nat.le_0_l _)) as Hk.
  cbn [run_level] in Hk. unfold parse, bind.
  destruct (parseExpression expr (enough (length expr)) 0) as [[w p]|e|];
    [|discriminate..].
  unfold skipWhitespace.
  destruct (skipWhitespace_pos expr p =? length expr) eqn:E; simpl;
    [|discriminate].
  intros [= ->]. exists p. apply Nat.eqb_eq in E. simpl in Hk.
  repeat split; trivial; lia.
Qed.

(** X12: a complete expression followed by a character that cannot
    continue it (no whitespace, no digit or decimal point, no binary
    operator) throws the unexpected-token error at that character,
    whatever follows. *)
Theorem closer_after_expression_unexpected (expression rest : string)
        (v : double) (c : ascii) :
  evaluate expression = Ok v -> is_closer c = true ->
  evaluate (expression ++ String c rest)
  = Throw (UnexpectedToken (String.length expression) c).
Proof.
  intros Hv Hc. destruct (evaluate_returns_inv expression v Hv)
    as (p & Hx & Hp & Hskip).
  rewrite <- length_list_ascii_of_string in Hx, Hp, Hskip |- *.
  set (expr := list_ascii_of_string expression) in *.
  apply evaluate_throws with (fuel := enough (length expr)).
  rewrite list_ascii_of_string_app. cbn [list_ascii_of_string]. fold expr.
  set (rest' := list_ascii_of_string rest).
  pose proof (carries_levels expr rest' c Hc (enough (length expr)) Expression
                0 v p (Nat.le_0_l _) Hx) as Hx'.
  cbn [run_level] in Hx'. unfold parse. unfold bind at 1. rewrite Hx'.
  rewrite bind_skip_eq, (skipWhitespace_continued expr rest' c
                         (proj1 (closer_facts c Hc)) p Hp), Hskip.
  unfold currentChar. rewrite nth_error_closer, length_app.
  replace (length expr =? length expr + length (c :: rest')) with false
    by (symmetry; apply Nat.eqb_neq; simpl; lia).
  reflexivity.
Qed.

(** A parenthesised complete expression is a primary with its value,
    wherever it stands. *)
Lemma parsePrimary_group_at (pre s rest : list ascii) (F : nat) (v : double)
      (p : nat) :
  parseExpression s F 0 = Ok (v, p) -> skipWhitespace_pos s p = length s ->
  forall fuel,
    F <= fuel ->
    parsePrimary (pre ++ "("%char :: s ++ ")"%char :: rest) (S fuel)
      (length pre)
    = Ok (v, length pre + length s + 2).
Proof.
  intros Hx Hskip fuel Hfuel.
  set (full := pre ++ "("%char :: s ++ ")"%char :: rest).
  set (inner := s ++ ")"%char :: rest).
  assert (full = (pre ++ ["("%char]) ++ inner) as Hfull
      by (unfold full, inner; now rewrite <- app_assoc).
  assert (length (pre ++ ["("%char]) = S (length pre)) as Hlen
      by (rewrite length_app; simpl; lia).
  assert (nth_error full (length pre) = Some "("%char) as Eopen
      by (unfold full; now rewrite nth_error_app2, Nat.sub_diag by lia).
  assert (p <= length s) as Hp.
  { pose proof (keeps_levels s F Expression 0 (Nat.le_0_l _)) as Hk.
    cbn [run_level] in Hk. rewrite Hx in Hk. simpl in Hk. lia. }
  assert (parseExpression s fuel 0 = Ok (v, p)) as Hx'.
  { pose proof (extends_levels s F fuel Expression Hfuel 0) as Hmore.
    cbn [run_level] in Hmore.
    rewrite Hmore; [exact Hx|rewrite Hx; discriminate]. }
  assert (parseExpression full fuel (S (length pre)) = Ok (v, S (length pre) + p))
    as X.
  { pose proof (shifted_levels (pre ++ ["("%char]) inner fuel Expression
                  0) as L.
    rewrite <- Hfull, Hlen, Nat.add_0_r in L. cbn [run_level] in L.
    rewrite L.
    pose proof (carries_levels s rest ")" eq_refl fuel Expression 0 v p
                  (Nat.le_0_l _) Hx') as C.
    cbn [run_level] in C. fold inner in C. now rewrite C. }
  rewrite (parsePrimary_paren full fuel (length pre) Eopen).
  unfold bind at 1. rewrite X. rewrite bind_skip_eq.
  assert (skipWhitespace_pos full (S (length pre) + p)
          = S (length pre) + length s) as Hq.
  { rewrite Hfull, <- Hlen, skipWhitespace_behind. f_equal.
    unfold inner.
    now rewrite (skipWhitespace_continued s rest ")" eq_refl p Hp). }
  rewrite Hq.
  assert (nth_error full (S (length pre) + length s) = Some ")"%char) as Eclose.
  { rewrite Hfull, <- Hlen, nth_error_behind. apply nth_error_closer. }
  rewrite (bind_match_hit full _ ")" _ Eclose eq_refl).
  unfold ret. do 2 f_equal. lia.
Qed.

Lemma parsePrimary_group (full s rest : list ascii) (F : nat) (v : double)
      (p : nat) :
  parseExpression s F 0 = Ok (v, p) -> skipWhitespace_pos s p = length s ->
  forall fuel pos,
    F <= fuel ->
    skipn pos full = "("%char :: s ++ ")"%char :: rest ->
    parsePrimary full (S fuel) pos = Ok (v, pos + length s + 2)
    /\ skipn (pos + length s + 2) full = rest.
Proof.
  intros Hx Hskip fuel pos Hfuel V. split.
  - assert (pos < length full) as Hpos
        by (exact (nth_error_inside full pos _ (view_head full pos _ _ V))).
    pose proof (firstn_skipn pos full) as Hfull. rewrite V in Hfull.
    assert (length (firstn pos full) = pos) as Hlen
        by (rewrite length_firstn; lia).
    remember (firstn pos full) as pre eqn:Hpre. clear Hpre V.
    subst full pos.
    exact (parsePrimary_group_at pre s rest F v p Hx Hskip fuel Hfuel).
  - pose proof (view_tail full _ _ _
                  (view_app full _ s _ (view_tail full pos _ _ V))) as V'.
    now replace (pos + length s + 2) with (S (S pos + length s)) by lia.
Qed.

Lemma parseTerm_of_primary (expr : list ascii) (fuel pos : nat) (v : double)
      (p : nat) :
  parsePrimary expr fuel pos = Ok (v, p) ->
  settled expr ["^"; "*"; "/"]%char p ->
  parseTerm expr (S (S fuel)) pos = Ok (v, p).
Proof.
  intros P [Hsig Hops]. rewrite parseTerm_S. unfold bind.
  rewrite (parseExponent_end expr fuel pos v p P Hsig)
    by (apply Hops; simpl; auto).
  apply parseTerm_loop_end; trivial; apply Hops; simpl; auto.
Qed.

Lemma settled_at (expr : list ascii) (ops : list ascii) (pos : nat)
      (c : ascii) :
  nth_error expr pos = Some c -> isspace c = false -> ~ In c ops ->
  settled expr ops pos.
Proof.
  intros E Hc Hops. split; [unfold significant; now rewrite E|].
  intros d Hd Ed. rewrite E in Ed. injection Ed as ->. contradiction.
Qed.

Lemma settled_at_end (expr : list ascii) (ops : list ascii) (pos : nat) :
  nth_error expr pos = None -> settled expr ops pos.
Proof.
  intros E. split; [now apply at_end_significant|].
  intros d _. rewrite E. discriminate.
Qed.

End Groups.

Section GroupTheorems.

Context `{Libm}.

(** X13: parentheses around a complete expression keep its value, and a
    minus sign in front of the parentheses negates it. *)
Theorem parentheses_keep_value (expression : string) (v : double) :
  evaluate expression = Ok v ->
  evaluate ("(" ++ expression ++ ")") = Ok v
  /\ evaluate ("-(" ++ expression ++ ")") = Ok (- v)%float.
Proof.
  intros Hv. destruct (evaluate_returns_inv expression v Hv)
    as (p & Hx & _ & Hskip).
  rewrite <- length_list_ascii_of_string in Hx, Hskip.
  set (expr := list_ascii_of_string expression) in *.
  set (F := enough (length expr)) in *.
  split.
  - set (full := "("%char :: expr ++ [")"%char]).
    destruct (parsePrimary_group full expr [] F v p Hx Hskip F 0 (le_n _)
                eq_refl) as [P V].
    pose proof (view_end full _ V) as E.
    apply evaluate_returns with (fuel := S (S (S (S F))))
                                (p := 0 + length expr + 2).
    to_chars. fold expr full.
    apply parse_exponent_to_end; [|exact E].
    apply parseExponent_end with (1 := P);
      [now apply at_end_significant|rewrite E; discriminate].
  - set (full := "-"%char :: "("%char :: expr ++ [")"%char]).
    destruct (parsePrimary_group full expr [] F v p Hx Hskip F 1 (le_n _)
                eq_refl) as [P V].
    pose proof (view_end full _ V) as E.
    assert (parsePrimary full (S (S F)) 0 = Ok ((- v)%float, 1 + length expr + 2))
      as Pn.
    { rewrite (parsePrimary_minus full (S F) 0 eq_refl). unfold bind.
      now rewrite P. }
    apply evaluate_returns with (fuel := S (S (S (S (S F)))))
                                (p := 1 + length expr + 2).
    to_chars. fold expr full.
    apply parse_exponent_to_end; [|exact E].
    apply parseExponent_end with (1 := Pn);
      [now apply at_end_significant|rewrite E; discriminate].
Qed.

(** Two parenthesised complete expressions around an operator. *)
Lemma grouped_pair (s1 s2 : list ascii) (op : ascii) (F : nat)
      (v1 v2 : double) (p1 p2 : nat) :
  parseExpression s1 F 0 = Ok (v1, p1) -> skipWhitespace_pos s1 p1 = length s1 ->
  parseExpression s2 F 0 = Ok (v2, p2) -> skipWhitespace_pos s2 p2 = length s2 ->
  let full := "("%char :: s1 ++ ")"%char :: op :: "("%char :: s2 ++ [")"%char] in
  let q1 := length s1 + 2 in
  let q2 := S q1 + length s2 + 2 in
  (forall fuel, F <= fuel -> parsePrimary full (S fuel) 0 = Ok (v1, q1))
  /\ nth_error full q1 = Some op
  /\ (forall fuel, F <= fuel -> parsePrimary full (S fuel) (S q1) = Ok (v2, q2))
  /\ nth_error full q2 = None
  /\ q2 = length full.
Proof.
  intros Hx1 Hs1 Hx2 Hs2 full q1 q2.
  assert (skipn 0 full
          = "("%char :: s1 ++ ")"%char :: op :: "("%char :: s2 ++ [")"%char])
    as V0 by reflexivity.
  destruct (parsePrimary_group full s1 _ F v1 p1 Hx1 Hs1 F 0 (le_n _) V0)
    as [_ V1].
  change (0 + length s1 + 2) with q1 in V1.
  pose proof (view_tail full q1 _ _ V1) as V2.
  destruct (parsePrimary_group full s2 _ F v2 p2 Hx2 Hs2 F (S q1) (le_n _) V2)
    as [_ V3].
  fold q2 in V3.
  split; [|split; [exact (view_head full q1 _ _ V1)|split; [|split]]].
  - intros fuel Hfuel.
    exact (proj1 (parsePrimary_group full s1 _ F v1 p1 Hx1 Hs1 fuel 0 Hfuel V0)).
  - intros fuel Hfuel.
    exact (proj1 (parsePrimary_group full s2 _ F v2 p2 Hx2 Hs2 fuel (S q1)
                    Hfuel V2)).
  - exact (view_end full q2 V3).
  - unfold q2, q1, full. simpl. rewrite !length_app. simpl.
    rewrite length_app. simpl. lia.
Qed.

End GroupTheorems.

Section GroupedPairs.

Context `{Libm}.
Variables s1 s2 : list ascii.
Variables v1 v2 : double.
Variables p1 p2 F : nat.
Hypothesis first_value : parseExpression s1 F 0 = Ok (v1, p1).
Hypothesis first_complete : skipWhitespace_pos s1 p1 = length s1.
Hypothesis second_value : parseExpression s2 F 0 = Ok (v2, p2).
Hypothesis second_complete : skipWhitespace_pos s2 p2 = length s2.

Lemma grouped_sum_parse (op : ascii) :
  op = "+"%char \/ op = "-"%char ->
  exists p,
    parse ("("%char :: s1 ++ ")"%char :: op :: "("%char :: s2 ++ [")"%char])
      (S (S (S (S (S F))))) 0
    = Ok (if Ascii.eqb op "+" then (v1 + v2)%float else (v1 - v2)%float, p).
Proof.
  intros Hop.
  destruct (grouped_pair s1 s2 op F v1 v2 p1 p2 first_value first_complete
              second_value second_complete) as (P1 & Eop & P2 & E & _).
  cbv zeta in *.
  set (full := "("%char :: s1 ++ ")"%char :: op :: "("%char :: s2 ++ [")"%char])
    in *.
  set (q1 := length s1 + 2) in *. set (q2 := S q1 + length s2 + 2) in *.
  assert (parseTerm full (S (S (S (S F)))) 0 = Ok (v1, q1)) as T1.
  { apply parseTerm_of_primary; [apply P1; lia|].
    apply settled_at with (c := op); [exact Eop|..];
      destruct Hop as [-> | ->]; simpl; intuition discriminate. }
  assert (parseTerm full (S (S (S F))) (S q1) = Ok (v2, q2)) as T2.
  { apply parseTerm_of_primary; [apply P2; lia|now apply settled_at_end]. }
  exists q2. apply parse_at_end; [|exact E].
  rewrite parseExpression_S. unfold bind at 1. rewrite T1.
  destruct Hop as [-> | ->]; cbn [Ascii.eqb Bool.eqb].
  - rewrite (parseExpression_loop_plus full _ v1 q1 Eop).
    unfold bind at 1. rewrite T2.
    apply parseExpression_loop_end; [now apply at_end_significant|..];
      rewrite E; discriminate.
  - rewrite (parseExpression_loop_minus full _ v1 q1 Eop).
    unfold bind at 1. rewrite T2.
    apply parseExpression_loop_end; [now apply at_end_significant|..];
      rewrite E; discriminate.
Qed.

Lemma grouped_operands (op : ascii) :
  op <> "^"%char -> isspace op = false ->
  let full := "("%char :: s1 ++ ")"%char :: op :: "("%char :: s2 ++ [")"%char] in
  parseExponent full (S (S (S F))) 0 = Ok (v1, length s1 + 2)
  /\ nth_error full (length s1 + 2) = Some op
  /\ parseExponent full (S (S F)) (S (length s1 + 2)) = Ok (v2, length full)
  /\ nth_error full (length full) = None.
Proof.
  intros Hop Hsp full.
  destruct (grouped_pair s1 s2 op F v1 v2 p1 p2 first_value first_complete
              second_value second_complete) as (P1 & Eop & P2 & E & Hlen).
  cbv zeta in *. fold full in P1, Eop, P2, E, Hlen. rewrite <- Hlen.
  repeat split; trivial.
  - apply parseExponent_end with (1 := P1 (S F) ltac:(lia));
      [unfold significant; now rewrite Eop|rewrite Eop; congruence].
  - apply parseExponent_end with (1 := P2 F (le_n _));
      [now apply at_end_significant|rewrite E; discriminate].
Qed.

Lemma grouped_product_parse :
  parse ("("%char :: s1 ++ ")"%char :: "*"%char :: "("%char :: s2 ++ [")"%char])
    (S (S (S (S (S F))))) 0
  = Ok ((v1 * v2)%float,
        length ("("%char :: s1 ++ ")"%char :: "*"%char
                   :: "("%char :: s2 ++ [")"%char])).
Proof.
  destruct (grouped_operands "*") as (E1 & Eop & E2 & E);
    [discriminate|reflexivity|].
  cbv zeta in *.
  set (full := "("%char :: s1 ++ ")"%char :: "*"%char
                  :: "("%char :: s2 ++ [")"%char]) in *.
  apply parse_at_end; [|exact E].
  apply parseExpression_at_end; [|exact E].
  rewrite parseTerm_S. unfold bind at 1. rewrite E1.
  rewrite (parseTerm_loop_times full _ v1 _ Eop).
  unfold bind at 1. rewrite E2.
  apply parseTerm_loop_end; [now apply at_end_significant|..];
    rewrite E; discriminate.
Qed.

Lemma grouped_quotient_parse :
  parse ("("%char :: s1 ++ ")"%char :: "/"%char :: "("%char :: s2 ++ [")"%char])
    (S (S (S (S (S F))))) 0
  = if (v2 =? 0)%float
    then Throw (DivisionByZero
                  (length ("("%char :: s1 ++ ")"%char :: "/"%char
                              :: "("%char :: s2 ++ [")"%char])))
    else Ok ((v1 / v2)%float,
             length ("("%char :: s1 ++ ")"%char :: "/"%char
                        :: "("%char :: s2 ++ [")"%char])).
Proof.
  destruct (grouped_operands "/") as (E1 & Eop & E2 & E);
    [discriminate|reflexivity|].
  cbv zeta in *.
  set (full := "("%char :: s1 ++ ")"%char :: "/"%char
                  :: "("%char :: s2 ++ [")"%char]) in *.
  assert (parseTerm full (S (S (S (S F)))) 0
          = if (v2 =? 0)%float then Throw (DivisionByZero (length full))
            else Ok ((v1 / v2)%float, length full)) as T.
  { rewrite parseTerm_S. unfold bind at 1. rewrite E1.
    rewrite (parseTerm_loop_over full _ v1 _ Eop).
    unfold bind at 1. rewrite E2.
    destruct (v2 =? 0)%float; [reflexivity|].
    apply parseTerm_loop_end; [now apply at_end_significant|..];
      rewrite E; discriminate. }
  destruct (v2 =? 0)%float.
  - unfold parse. unfold bind at 1. rewrite parseExpression_S.
    unfold bind at 1. now rewrite T.
  - apply parse_at_end; [|exact E]. now apply parseExpression_at_end.
Qed.

Lemma grouped_power_of_groups_parse :
  exists p,
    parse ("("%char :: s1 ++ ")"%char :: "^"%char :: "("%char :: s2 ++ [")"%char])
      (S (S (S (S (S F))))) 0
    = Ok (pow v1 v2, p).
Proof.
  destruct (grouped_pair s1 s2 "^" F v1 v2 p1 p2 first_value first_complete
              second_value second_complete) as (P1 & Eop & P2 & E & _).
  cbv zeta in *.
  set (full := "("%char :: s1 ++ ")"%char :: "^"%char
                  :: "("%char :: s2 ++ [")"%char]) in *.
  eexists. apply parse_exponent_to_end; [|exact E].
  rewrite (parseExponent_hat full _ 0 v1 _ (P1 (S F) ltac:(lia)) Eop).
  unfold bind.
  rewrite (parseExponent_end full _ _ v2 _ (P2 F (le_n _)));
    [reflexivity|now apply at_end_significant|rewrite E; discriminate].
Qed.

End GroupedPairs.

Section Composition.

Context `{Libm}.

Lemma complete_at_fuel (expression : string) (v : double) (F : nat) :
  evaluate expression = Ok v -> enough (String.length expression) <= F ->
  exists p,
    parseExpression (list_ascii_of_string expression) F 0 = Ok (v, p)
    /\ skipWhitespace_pos (list_ascii_of_string expression) p
       = length (list_ascii_of_string expression).
Proof.
  intros Hv HF. destruct (evaluate_returns_inv expression v Hv)
    as (p & Hx & _ & Hskip).
  exists p. rewrite length_list_ascii_of_string. split; [|exact Hskip].
  pose proof (extends_levels (list_ascii_of_string expression) _ F Expression
                HF 0) as Hmore.
  cbn [run_level] in Hmore.
  rewrite Hmore; [exact Hx|rewrite Hx; discriminate].
Qed.

(** X14: two complete expressions in parentheses around a binary operator
    evaluate to that operation on their values: the sum, the difference,
    the product, [std::pow] of the two, and the quotient, unless the
    second value is 0, when the division-by-zero error reports the end of
    the input. *)
Theorem grouped_operands_compose (a b : string) (va vb : double) :
  evaluate a = Ok va -> evaluate b = Ok vb ->
  evaluate ("(" ++ a ++ ")+(" ++ b ++ ")") = Ok (va + vb)%float
  /\ evaluate ("(" ++ a ++ ")-(" ++ b ++ ")") = Ok (va - vb)%float
  /\ evaluate ("(" ++ a ++ ")*(" ++ b ++ ")") = Ok (va * vb)%float
  /\ evaluate ("(" ++ a ++ ")^(" ++ b ++ ")") = Ok (pow va vb)
  /\ evaluate ("(" ++ a ++ ")/(" ++ b ++ ")")
     = if (vb =? 0)%float
       then Throw (DivisionByZero
                     (String.length ("(" ++ a ++ ")/(" ++ b ++ ")")))
       else Ok (va / vb)%float.
Proof.
  intros Ha Hb.
  set (F := Nat.max (enough (String.length a)) (enough (String.length b))).
  destruct (complete_at_fuel a va F Ha (Nat.le_max_l _ _)) as (pa & Xa & Sa).
  destruct (complete_at_fuel b vb F Hb (Nat.le_max_r _ _)) as (pb & Xb & Sb).
  set (s1 := list_ascii_of_string a) in *.
  set (s2 := list_ascii_of_string b) in *.
  split; [|split; [|split; [|split]]].
  - destruct (grouped_sum_parse s1 s2 va vb pa pb F Xa Sa Xb Sb "+"
                (or_introl eq_refl)) as [p Hp].
    apply evaluate_returns with (fuel := S (S (S (S (S F))))) (p := p).
    to_chars. exact Hp.
  - destruct (grouped_sum_parse s1 s2 va vb pa pb F Xa Sa Xb Sb "-"
                (or_intror eq_refl)) as [p Hp].
    apply evaluate_returns with (fuel := S (S (S (S (S F))))) (p := p).
    to_chars. exact Hp.
  - pose proof (grouped_product_parse s1 s2 va vb pa pb F Xa Sa Xb Sb) as Hp.
    eapply evaluate_returns with (fuel := S (S (S (S (S F))))).
    to_chars. exact Hp.
  - destruct (grouped_power_of_groups_parse s1 s2 va vb pa pb F Xa Sa Xb Sb)
      as [p Hp].
    apply evaluate_returns with (fuel := S (S (S (S (S F))))) (p := p).
    to_chars. exact Hp.
  - pose proof (grouped_quotient_parse s1 s2 va vb pa pb F Xa Sa Xb Sb) as Hp.
    rewrite <- length_list_ascii_of_string.
    destruct (vb =? 0)%float.
    + apply evaluate_throws with (fuel := S (S (S (S (S F))))).
      to_chars. exact Hp.
    + eapply evaluate_returns with (fuel := S (S (S (S (S F))))).
      to_chars. exact Hp.
Qed.

End Composition.

(** ** Whitespace behind the input *)

Section Trailing.

Context `{Libm}.
Variables expr rest : list ascii.
Variable blank : ascii.
Hypothesis blank_space : isspace blank = true.
Hypothesis rest_space : forallb isspace rest = true.

Lemma space_not_numeric (c : ascii) : isspace c = true -> is_numeric c = false.
Proof.
  destruct c as [[] [] [] [] [] [] [] []]; vm_compute; intros E;
    reflexivity || discriminate.
Qed.

Lemma trailing_space (i : nat) :
  length expr <= i < length expr + length (blank :: rest) ->
  exists c, nth_error (expr ++ blank :: rest) i = Some c /\ isspace c = true.
Proof.
  intros Hi. rewrite nth_error_app2 by lia.
  destruct (nth_error (blank :: rest) (i - length expr)) as [c|] eqn:E.
  - exists c. split; [reflexivity|].
    assert (forallb isspace (blank :: rest) = true) as Hall
        by (simpl; now rewrite blank_space, rest_space).
    rewrite forallb_forall in Hall. apply Hall. exact (nth_error_In _ _ E).
  - apply nth_error_None in E. lia.
Qed.

Lemma trailing_end :
  nth_error (expr ++ blank :: rest) (length expr + length (blank :: rest))
  = None.
Proof. apply nth_error_None. rewrite length_app. lia. Qed.

(** Skipping whitespace stays on the same significant character, or goes
    from the end of the input to the end of the trailing whitespace. *)
Lemma skipWhitespace_trails (pos pos' : nat) :
  trails (length expr) (length (blank :: rest)) pos pos' ->
  (skipWhitespace_pos expr pos < length expr
   /\ skipWhitespace_pos (expr ++ blank :: rest) pos'
      = skipWhitespace_pos expr pos)
  \/ (skipWhitespace_pos expr pos = length expr
      /\ skipWhitespace_pos (expr ++ blank :: rest) pos'
         = length expr + length (blank :: rest)).
Proof.
  intros [Hpos Hpos'].
  pose proof (skipWhitespace_loop_within expr (length expr - pos) pos Hpos)
    as Hin.
  fold (skipWhitespace_pos expr pos) in Hin.
  set (q := skipWhitespace_pos expr pos) in *.
  assert (forall i, pos <= i < q ->
                    exists c, nth_error (expr ++ blank :: rest) i = Some c
                              /\ isspace c = true) as Hrun.
  { intros i Hi. rewrite nth_error_inside_continued by lia.
    apply (skipWhitespace_loop_skipped expr (length expr - pos) pos).
    exact Hi. }
  destruct (Nat.eq_dec q (length expr)) as [Hq|Hq].
  - right. split; [exact Hq|].
    apply skipWhitespace_reaches
      with (d := length expr + length (blank :: rest) - pos');
      [unfold significant; now rewrite trailing_end|lia|].
    intros i Hi. destruct (le_lt_dec (length expr) i) as [Hl|Hl].
    + apply trailing_space. lia.
    + apply Hrun. lia.
  - left. split; [lia|].
    assert (pos' = pos) as -> by lia.
    apply skipWhitespace_reaches with (d := q - pos); [|lia|exact Hrun].
    unfold significant. rewrite nth_error_inside_continued by lia.
    apply (skipWhitespace_stops expr pos).
Qed.

Lemma follows_bind (n m : nat) {A B} (c c' : Parser A)
      (k k' : A -> Parser B) :
  follows n m c c' -> (forall a, follows n m (k a) (k' a)) ->
  follows n m (bind c k) (bind c' k').
Proof.
  intros Hc Hk pos pos' b p Ht. unfold bind. specialize (Hc pos pos').
  destruct (c pos) as [[a q]|e|]; [|discriminate..].
  destruct (Hc a q Ht eq_refl) as (q' & -> & Hq). intros Hb.
  exact (Hk a q q' b p Hq Hb).
Qed.

Lemma follows_ret (n m : nat) {A} (a : A) : follows n m (ret a) (ret a).
Proof.
  intros pos pos' b p Ht [= <- <-]. exists pos'. split; [reflexivity|exact Ht].
Qed.

Lemma follows_throw (n m : nat) {A} (e : nat -> EvalError) (c' : Parser A) :
  follows n m (throw e) c'.
Proof. intros pos pos' b p _. discriminate. Qed.

Lemma follows_skipWhitespace :
  follows (length expr) (length (blank :: rest))
    (skipWhitespace expr) (skipWhitespace (expr ++ blank :: rest)).
Proof.
  intros pos pos' [] p Ht. unfold skipWhitespace. intros [= <-].
  eexists. split; [reflexivity|].
  destruct (skipWhitespace_trails pos pos' Ht) as [[Hq ->]|[Hq ->]].
  - split; [lia|now left].
  - split; [lia|right; lia].
Qed.

Lemma follows_match (expected : ascii) :
  follows (length expr) (length (blank :: rest))
    (match_ expr expected) (match_ (expr ++ blank :: rest) expected).
Proof.
  intros pos pos' b p Ht. rewrite !match_unfold. cbv zeta.
  destruct (skipWhitespace_trails pos pos' Ht) as [[Hq ->]|[Hq ->]].
  - rewrite nth_error_inside_continued by lia.
    destruct (nth_error expr (skipWhitespace_pos expr pos)) as [c|] eqn:E.
    + destruct (Ascii.eqb c expected); intros [= <- <-];
        (eexists; split; [reflexivity|split; [lia|now left]]).
    + apply nth_error_None in E. lia.
  - rewrite Hq, trailing_end.
    replace (nth_error expr (length expr)) with (@None ascii)
      by (symmetry; apply nth_error_None; lia).
    intros [= <- <-]. eexists. split; [reflexivity|].
    split; [lia|right; lia].
Qed.

Lemma scanNumber_trailing (n : nat) :
  forall n' seen pos,
    pos <= length expr -> length expr - pos <= n ->
    length (expr ++ blank :: rest) - pos <= n' ->
    scanNumber (expr ++ blank :: rest) n' seen pos = scanNumber expr n seen pos.
Proof.
  pose proof (space_not_numeric blank blank_space) as Hnum.
  unfold is_numeric in Hnum.
  induction n as [|n IH]; intros n' seen pos Hpos Hn Hn';
    rewrite length_app in Hn'; simpl in Hn'.
  - assert (pos = length expr) as -> by lia.
    destruct n' as [|n']; [lia|]. simpl. rewrite nth_error_closer.
    now rewrite Hnum.
  - destruct n' as [|n']; [lia|]. simpl.
    destruct (Nat.eq_dec pos (length expr)) as [->|Hne].
    + rewrite nth_error_closer.
      replace (nth_error expr (length expr)) with (@None ascii)
        by (symmetry; apply nth_error_None; lia).
      now rewrite Hnum.
    + rewrite nth_error_inside_continued by lia.
      destruct (nth_error expr pos) as [c|]; [|reflexivity].
      destruct (isdigit c || is_point c); [|reflexivity].
      destruct (is_point c); [destruct seen; [reflexivity|]|];
        apply IH; try lia; rewrite length_app; simpl; lia.
Qed.

Lemma follows_parseNumber :
  follows (length expr) (length (blank :: rest))
    (parseNumber expr) (parseNumber (expr ++ blank :: rest)).
Proof.
  intros pos pos' v p Ht.
  assert (parseNumber expr pos
          = parseNumber expr (skipWhitespace_pos expr pos)) as Hfirst
      by (unfold parseNumber;
          now rewrite !bind_skip_eq, skipWhitespace_idempotent).
  destruct Ht as [Hpos Hpos'].
  pose proof (skipWhitespace_loop_within expr (length expr - pos) pos Hpos)
    as Hin.
  fold (skipWhitespace_pos expr pos) in Hin.
  destruct (skipWhitespace_trails pos pos' (conj Hpos Hpos'))
    as [[Hq Hq']|[Hq _]];
    [|rewrite Hfirst, Hq; intros Hr; now elim (parseNumber_at_end expr v p)].
  clear Hfirst. unfold parseNumber. rewrite !bind_skip_eq, Hq'.
  - set (start := skipWhitespace_pos expr pos) in *.
    rewrite (scanNumber_trailing (length expr - start)) by lia.
    pose proof (scanNumber_within expr (length expr - start) false start
                  (proj2 Hin)) as Hs.
    destruct (scanNumber expr (length expr - start) false start) as [q|e|];
      [|discriminate..].
    destruct (start =? q); [discriminate|].
    rewrite substr_continued by lia.
    destruct (stod (substr expr start (q - start))); [|discriminate].
    intros [= <- <-]. exists q. split; [reflexivity|split; [lia|now left]].
Qed.

End Trailing.

Ltac follows_step :=
  match goal with
  | |- follows _ _ (bind _ _) (bind _ _) => apply follows_bind; [|intros ?]
  | |- follows _ _ (if ?b then _ else _) _ => destruct b
  | |- follows _ _ (ret _) _ => apply follows_ret
  | |- follows _ _ (throw _) _ => apply follows_throw
  | |- follows _ _ (skipWhitespace _) _ =>
      apply follows_skipWhitespace; assumption
  | |- follows _ _ (match_ _ _) _ => apply follows_match; assumption
  | |- follows _ _ (parseNumber _) _ => apply follows_parseNumber; assumption
  end.

Section TrailingLevels.

Context `{Libm}.
Variables expr rest : list ascii.
Variable blank : ascii.
Hypothesis blank_space : isspace blank = true.
Hypothesis rest_space : forallb isspace rest = true.

Lemma follows_levels (fuel : nat) (l : level) :
  follows (length expr) (length (blank :: rest))
    (run_level expr l fuel) (run_level (expr ++ blank :: rest) l fuel).
Proof.
  revert l. induction fuel as [|fuel IH]; intros l.
  - destruct l; intros pos pos' v p _; discriminate.
  - destruct l; simpl;
      repeat (follows_step || by_level IH).
Qed.

End TrailingLevels.

Section TrailingTheorem.

Context `{Libm}.

(** X15: whitespace behind a complete expression does not change the
    value it evaluates to. *)
Theorem trailing_whitespace_ignored (expression ws : string) (v : double) :
  forallb isspace (list_ascii_of_string ws) = true ->
  evaluate expression = Ok v ->
  evaluate (expression ++ ws) = Ok v.
Proof.
  intros Hws Hv.
  destruct (evaluate_returns_inv expression v Hv) as (p & Hx & Hp & Hskip).
  rewrite <- length_list_ascii_of_string in Hx, Hp, Hskip.
  set (expr := list_ascii_of_string expression) in *.
  destruct (list_ascii_of_string ws) as [|blank rest] eqn:Ews.
  - apply evaluate_returns
      with (fuel := enough (length expr)) (p := length expr).
    rewrite list_ascii_of_string_app, Ews, app_nil_r. fold expr.
    apply parse_at_end; [|apply nth_error_None; lia].
    unfold evaluate in Hv. fold expr in Hv. unfold parse, bind in Hv.
    rewrite Hx in Hv. unfold skipWhitespace in Hv. rewrite Hskip in Hv.
    pose proof (returns_settled_levels expr (enough (length expr))
                  Expression 0 I) as Hs.
    cbn [run_level] in Hs. rewrite Hx in Hs. simpl in Hs.
    rewrite (settled_skip _ _ _ Hs) in Hskip. now rewrite <- Hskip at 2.
  - simpl in Hws. apply andb_prop in Hws as [Hblank Hrest].
    destruct (follows_levels expr rest blank Hblank Hrest
                (enough (length expr)) Expression 0 0 v p
                (conj (Nat.le_0_l _) (or_introl eq_refl)) Hx)
      as (p' & Hx' & Ht).
    cbn [run_level] in Hx'.
    apply evaluate_returns
      with (fuel := enough (length expr))
           (p := length expr + length (blank :: rest)).
    rewrite list_ascii_of_string_app, Ews. fold expr.
    unfold parse. unfold bind at 1. rewrite Hx'. rewrite bind_skip_eq.
    destruct (skipWhitespace_trails expr rest blank Hblank Hrest p p' Ht)
      as [[Hq _]|[_ ->]]; [lia|].
    rewrite length_app, Nat.eqb_refl. reflexivity.
Qed.

End TrailingTheorem.

(** ** Chains of any length *)

Section Chains.

Context `{Libm}.
Variable expr : list ascii.

Lemma chain_chars (op : ascii) (t : string) (rest : list (ascii * string)) :
  list_ascii_of_string (chain ((op, t) :: rest))
  = op :: list_ascii_of_string t ++ list_ascii_of_string (chain rest).
Proof. cbn [chain list_ascii_of_string]. now rewrite list_ascii_of_string_app. Qed.

Lemma sign_operand_facts (op : ascii) :
  is_sign op = true ->
  is_numeric op = false /\ isspace op = false
  /\ op <> "^"%char /\ op <> "*"%char /\ op <> "/"%char.
Proof.
  intros Hop. destruct (sign_char op Hop) as [-> | ->];
    repeat split; try reflexivity; discriminate.
Qed.

Lemma factor_op_facts (op : ascii) :
  is_factor_op op = true ->
  (op = "*"%char \/ op = "/"%char)
  /\ is_numeric op = false /\ isspace op = false /\ op <> "^"%char.
Proof.
  unfold is_factor_op. intros Hop.
  apply orb_prop in Hop as [Hop|Hop]; apply Ascii.eqb_eq in Hop; subst;
    repeat split; auto; discriminate.
Qed.

(** A literal in front of the rest of a sum, as a term. *)
Lemma parseTerm_in_sum (fuel pos : nat) (t : string) (v : double)
      (rest : list (ascii * string)) :
  Forall (fun i => is_sign (fst i) = true) rest ->
  skipn pos expr = list_ascii_of_string t ++ list_ascii_of_string (chain rest) ->
  literal t = true -> literal_value t = Some v ->
  parseTerm expr (S (S (S fuel))) pos
  = Ok (v, pos + length (list_ascii_of_string t)).
Proof.
  intros Hrest V Ht Hv. destruct rest as [|[op t'] rest'].
  - exact (proj1 (parseTerm_last expr fuel pos _ v V Ht Hv)).
  - rewrite chain_chars in V. inversion Hrest as [|i l Hop _]; subst.
    destruct (sign_operand_facts op Hop) as (H1 & H2 & H3 & H4 & H5).
    exact (proj1 (parseTerm_operand expr fuel pos _ v op _ V Ht Hv
                    H1 H2 H3 H4 H5)).
Qed.

Lemma sum_loop (items : list (ascii * string)) :
  Forall (fun i => is_sign (fst i) = true /\ literal (snd i) = true) items ->
  forall acc pos fuel r,
    skipn pos expr = list_ascii_of_string (chain items) ->
    sum_chain acc items = Some r ->
    parseExpression_loop expr (length items + (4 + fuel)) acc pos
    = Ok (r, pos + length (list_ascii_of_string (chain items))).
Proof.
  induction items as [|[op t] rest IH]; intros Hall acc pos fuel r V Hr.
  - cbn [chain list_ascii_of_string length Nat.add] in *.
    injection Hr as <-. rewrite Nat.add_0_r.
    pose proof (view_end expr pos V) as E.
    apply parseExpression_loop_end; [now apply at_end_significant|..];
      rewrite E; discriminate.
  - inversion Hall as [|i l [Hop Ht] Hrest]; subst. cbn [fst snd] in *.
    rewrite chain_chars in V |- *. cbn [sum_chain] in Hr.
    destruct (literal_value t) as [v|] eqn:Hv; [|discriminate].
    pose proof (view_head expr pos _ _ V) as E.
    pose proof (view_tail expr pos _ _ V) as V'.
    assert (Forall (fun i => is_sign (fst i) = true) rest) as Hsigns
        by (apply Forall_forall; intros i Hi;
            rewrite Forall_forall in Hrest; now apply Hrest).
    pose proof (parseTerm_in_sum (length rest + S fuel) (S pos) t v rest
                  Hsigns V' Ht Hv) as T.
    replace (S (S (S (length rest + S fuel))))
      with (length rest + (4 + fuel)) in T by lia.
    specialize (IH Hrest _ _ fuel r
                   (view_app expr (S pos) _ _ V') Hr).
    replace (pos + length (op :: list_ascii_of_string t
                              ++ list_ascii_of_string (chain rest)))
      with (S pos + length (list_ascii_of_string t)
            + length (list_ascii_of_string (chain rest)))
      by (simpl; rewrite length_app; lia).
    replace (length ((op, t) :: rest) + (4 + fuel))
      with (S (length rest + (4 + fuel))) by (simpl; lia).
    destruct (sign_char op Hop) as [-> | ->].
    + rewrite (parseExpression_loop_plus expr _ acc pos E).
      unfold bind. rewrite T. exact IH.
    + rewrite (parseExpression_loop_minus expr _ acc pos E).
      unfold bind. rewrite T. exact IH.
Qed.

(** A literal in front of the rest of a product, as an exponent
    expression. *)
Lemma parseExponent_in_product (fuel pos : nat) (t : string) (v : double)
      (rest : list (ascii * string)) :
  Forall (fun i => is_factor_op (fst i) = true) rest ->
  skipn pos expr = list_ascii_of_string t ++ list_ascii_of_string (chain rest) ->
  literal t = true -> literal_value t = Some v ->
  parseExponent expr (S (S fuel)) pos
  = Ok (v, pos + length (list_ascii_of_string t)).
Proof.
  intros Hrest V Ht Hv. destruct rest as [|[op t'] rest'].
  - exact (proj1 (parseExponent_last expr fuel pos _ v V Ht Hv)).
  - rewrite chain_chars in V. inversion Hrest as [|i l Hop _]; subst.
    destruct (factor_op_facts op Hop) as (_ & H1 & H2 & H3).
    exact (proj1 (parseExponent_operand expr fuel pos _ v op _ V Ht Hv
                    H1 H2 H3)).
Qed.

Lemma product_loop (items : list (ascii * string)) :
  Forall (fun i => is_factor_op (fst i) = true /\ literal (snd i) = true)
    items ->
  forall acc pos fuel r,
    skipn pos expr = list_ascii_of_string (chain items) ->
    product_chain acc items = Some r ->
    parseTerm_loop expr (length items + (3 + fuel)) acc pos
    = Ok (r, pos + length (list_ascii_of_string (chain items))).
Proof.
  induction items as [|[op t] rest IH]; intros Hall acc pos fuel r V Hr.
  - cbn [chain list_ascii_of_string length Nat.add] in *.
    injection Hr as <-. rewrite Nat.add_0_r.
    pose proof (view_end expr pos V) as E.
    apply parseTerm_loop_end; [now apply at_end_significant|..];
      rewrite E; discriminate.
  - inversion Hall as [|i l [Hop Ht] Hrest]; subst. cbn [fst snd] in *.
    rewrite chain_chars in V |- *. cbn [product_chain] in Hr.
    destruct (literal_value t) as [v|] eqn:Hv; [|discriminate].
    pose proof (view_head expr pos _ _ V) as E.
    pose proof (view_tail expr pos _ _ V) as V'.
    assert (Forall (fun i => is_factor_op (fst i) = true) rest) as Hops
        by (apply Forall_forall; intros i Hi;
            rewrite Forall_forall in Hrest; now apply Hrest).
    pose proof (parseExponent_in_product (length rest + S fuel) (S pos) t v
                  rest Hops V' Ht Hv) as T.
    replace (S (S (length rest + S fuel)))
      with (length rest + (3 + fuel)) in T by lia.
    replace (pos + length (op :: list_ascii_of_string t
                              ++ list_ascii_of_string (chain rest)))
      with (S pos + length (list_ascii_of_string t)
            + length (list_ascii_of_string (chain rest)))
      by (simpl; rewrite length_app; lia).
    replace (length ((op, t) :: rest) + (3 + fuel))
      with (S (length rest + (3 + fuel))) by (simpl; lia).
    destruct (factor_op_facts op Hop) as ([-> | ->] & _).
    + cbn [Ascii.eqb Bool.eqb] in Hr.
      rewrite (parseTerm_loop_times expr _ acc pos E).
      unfold bind. rewrite T.
      exact (IH Hrest _ _ fuel r (view_app expr (S pos) _ _ V') Hr).
    + cbn [Ascii.eqb Bool.eqb] in Hr.
      rewrite (parseTerm_loop_over expr _ acc pos E).
      unfold bind. rewrite T.
      destruct (v =? 0)%float; [discriminate|].
      exact (IH Hrest _ _ fuel r (view_app expr (S pos) _ _ V') Hr).
Qed.

Lemma tower_parse_any (others : list string) :
  forall first pos fuel r,
    Forall (fun t => literal t = true) (first :: others) ->
    skipn pos expr = list_ascii_of_string (tower_text first others) ++ [] ->
    tower_value first others = Some r ->
    parseExponent expr (length others + S (S fuel)) pos
    = Ok (r, pos + length (list_ascii_of_string (tower_text first others)))
    /\ nth_error expr
         (pos + length (list_ascii_of_string (tower_text first others)))
       = None.
Proof.
  induction others as [|t rest IH]; intros first pos fuel r Hall V Hr.
  - cbn [tower_text tower_value length Nat.add] in *.
    inversion Hall as [|x l Hfirst _]; subst.
    exact (parseExponent_last expr fuel pos _ r V Hfirst Hr).
  - inversion Hall as [|x l Hfirst Hrest]; subst.
    cbn [tower_text tower_value] in *.
    destruct (literal_value first) as [v|] eqn:Hv; [|discriminate].
    destruct (tower_value t rest) as [w|] eqn:Hw; [|discriminate].
    injection Hr as <-.
    rewrite list_ascii_of_string_app in V |- *.
    cbn [list_ascii_of_string] in V |- *. rewrite <- app_assoc in V.
    cbn [app] in V.
    destruct (parseExponent_power expr (length rest + S fuel) pos _ v _ V
                Hfirst Hv) as [Ep V'].
    destruct (IH t _ fuel w Hrest V' Hw) as [Er E].
    replace (pos + length (list_ascii_of_string first
                              ++ "^"%char
                                 :: list_ascii_of_string (tower_text t rest)))
      with (S (pos + length (list_ascii_of_string first))
            + length (list_ascii_of_string (tower_text t rest)))
      by (rewrite length_app; simpl; lia).
    split; [|exact E].
    replace (length (t :: rest) + S (S fuel))
      with (S (S (length rest + S fuel))) by (simpl; lia).
    rewrite Ep. unfold bind.
    replace (S (length rest + S fuel)) with (length rest + S (S fuel)) by lia.
    now rewrite Er.
Qed.

End Chains.

Section ChainTheorems.

Context `{Libm}.

(** X16: a sum of any length accumulates from left to right.  A literal
    followed by any number of literals, each behind a plus or a minus
    sign, evaluates to the first value with every further value added or
    subtracted in the order of the input. *)
Theorem sum_accumulates_left (a : string) (items : list (ascii * string))
        (va r : double) :
  literal a = true -> literal_value a = Some va ->
  Forall (fun i => is_sign (fst i) = true /\ literal (snd i) = true) items ->
  sum_chain va items = Some r ->
  evaluate (a ++ chain items) = Ok r.
Proof.
  intros Ha Hva Hall Hr.
  set (expr := list_ascii_of_string a ++ list_ascii_of_string (chain items)).
  assert (skipn 0 expr
          = list_ascii_of_string a ++ list_ascii_of_string (chain items))
    as V by reflexivity.
  assert (Forall (fun i => is_sign (fst i) = true) items) as Hsigns
      by (apply Forall_forall; intros i Hi;
          rewrite Forall_forall in Hall; now apply Hall).
  pose proof (parseTerm_in_sum expr (length items + 1) 0 a va items Hsigns V
                Ha Hva) as T.
  pose proof (sum_loop expr items Hall va _ 0 r (view_app expr 0 _ _ V) Hr)
    as L.
  apply evaluate_returns with (fuel := S (length items + (4 + 0))) (p := length expr).
  rewrite list_ascii_of_string_app. fold expr.
  apply parse_at_end; [|apply nth_error_None; lia].
  rewrite parseExpression_S. unfold bind.
  replace (length items + (4 + 0)) with (S (S (S (length items + 1))))
    in * by lia.
  rewrite T, L. do 2 f_equal. unfold expr. rewrite length_app. lia.
Qed.

(** X17: a product of any length accumulates from left to right.  A
    literal followed by any number of literals, each behind a
    multiplication or a division sign and no divisor 0, evaluates to the
    first value multiplied or divided by every further value in the order
    of the input. *)
Theorem product_accumulates_left (a : string) (items : list (ascii * string))
        (va r : double) :
  literal a = true -> literal_value a = Some va ->
  Forall (fun i => is_factor_op (fst i) = true /\ literal (snd i) = true)
    items ->
  product_chain va items = Some r ->
  evaluate (a ++ chain items) = Ok r.
Proof.
  intros Ha Hva Hall Hr.
  set (expr := list_ascii_of_string a ++ list_ascii_of_string (chain items)).
  assert (skipn 0 expr
          = list_ascii_of_string a ++ list_ascii_of_string (chain items))
    as V by reflexivity.
  assert (Forall (fun i => is_factor_op (fst i) = true) items) as Hops
      by (apply Forall_forall; intros i Hi;
          rewrite Forall_forall in Hall; now apply Hall).
  pose proof (parseExponent_in_product expr (length items + 1) 0 a va items
                Hops V Ha Hva) as T.
  pose proof (product_loop expr items Hall va _ 0 r (view_app expr 0 _ _ V) Hr)
    as L.
  assert (nth_error expr (length expr) = None) as E
      by (apply nth_error_None; lia).
  apply evaluate_returns
    with (fuel := S (S (length items + (3 + 0)))) (p := length expr).
  rewrite list_ascii_of_string_app. fold expr.
  apply parse_at_end; [|exact E]. apply parseExpression_at_end; [|exact E].
  rewrite parseTerm_S. unfold bind.
  replace (length items + (3 + 0)) with (S (S (length items + 1))) in * by lia.
  rewrite T, L. do 2 f_equal. unfold expr. rewrite length_app. lia.
Qed.

(** X18: a power tower of any length is taken from right to left.
    Literals joined by hats evaluate to [std::pow] of the first value and
    the value of the rest of the tower. *)
Theorem tower_associates_right (first : string) (others : list string)
        (r : double) :
  Forall (fun t => literal t = true) (first :: others) ->
  tower_value first others = Some r ->
  evaluate (tower_text first others) = Ok r.
Proof.
  intros Hall Hr.
  set (expr := list_ascii_of_string (tower_text first others)).
  assert (skipn 0 expr = expr ++ []) as V by (simpl; now rewrite app_nil_r).
  destruct (tower_parse_any expr others first 0 0 r Hall V Hr) as [Et E].
  apply evaluate_returns
    with (fuel := S (S (length others + 2))) (p := 0 + length expr).
  fold expr. now apply parse_exponent_to_end.
Qed.

End ChainTheorems.

(** ** Inputs that throw *)

Section Throwing.

Context `{Libm}.

(** What a primary throws, the levels above it throw. *)
Lemma primary_throw_rises (expr : list ascii) (fuel pos : nat) (e : EvalError) :
  parsePrimary expr fuel pos = Throw e ->
  parseExponent expr (S fuel) pos = Throw e
  /\ parseTerm expr (S (S fuel)) pos = Throw e
  /\ parseExpression expr (S (S (S fuel))) pos = Throw e.
Proof.
  intros P.
  assert (parseExponent expr (S fuel) pos = Throw e) as E
      by (simpl parseExponent; unfold bind at 1; now rewrite P).
  assert (parseTerm expr (S (S fuel)) pos = Throw e) as T
      by (rewrite parseTerm_S; unfold bind; now rewrite E).
  repeat split; trivial.
  rewrite parseExpression_S. unfold bind. now rewrite T.
Qed.

Lemma primary_at_end_throws (expr : list ascii) (fuel pos : nat) :
  nth_error expr pos = None ->
  parsePrimary expr (S fuel) pos = Throw (ExpectedNumber pos).
Proof.
  intros E. pose proof (at_end_significant expr pos E) as Hsig.
  simpl parsePrimary. rewrite bind_skip by assumption.
  rewrite !bind_match_miss by (trivial; rewrite E; discriminate).
  unfold parseNumber. rewrite bind_skip by assumption.
  rewrite scanNumber_stops by (intros c Ec; rewrite E in Ec; discriminate).
  now rewrite Nat.eqb_refl.
Qed.

(** X19: a literal followed by a binary operator and nothing else throws
    the expected-number error at the end of the input. *)
Theorem dangling_operator_expected_number (a : string) (va : double)
        (op : ascii) :
  literal a = true -> literal_value a = Some va ->
  In op operator_chars ->
  evaluate (a ++ String op "") = Throw (ExpectedNumber (S (String.length a))).
Proof.
  intros Ha Hva Hop.
  set (t := list_ascii_of_string a).
  set (expr := t ++ [op]).
  assert (is_numeric op = false /\ isspace op = false) as [Hnum Hsp]
      by (simpl in Hop; decompose [or] Hop; subst; try contradiction;
          split; reflexivity).
  assert (skipn 0 expr = t ++ op :: []) as V by reflexivity.
  assert (ends_literal [op] = true) as Hend by (simpl; now rewrite Hnum).
  pose proof (parsePrimary_literal expr 1 0 t [op] V Ha Hend) as P.
  fold t in Hva. unfold literal_value in Hva. fold t in Hva.
  rewrite Hva in P.
  pose proof (view_app expr 0 t _ V) as V'.
  pose proof (view_head expr _ _ _ V') as Eop.
  pose proof (view_end expr _ (view_tail expr _ _ _ V')) as E.
  set (q := 0 + length t) in *.
  destruct (primary_throw_rises expr 1 (S q) _ (primary_at_end_throws expr 0 _ E))
    as (Xe & Xt & _).
  apply evaluate_throws with (fuel := 5).
  rewrite list_ascii_of_string_app. cbn [list_ascii_of_string]. fold t expr.
  rewrite <- length_list_ascii_of_string. fold t.
  change (S (length t)) with (S q).
  unfold parse. unfold bind at 1. rewrite parseExpression_S. unfold bind at 1.
  rewrite parseTerm_S. unfold bind at 1.
  simpl in Hop. destruct Hop as [<-|[<-|[<-|[<-|[<-|[]]]]]].
  - rewrite (parseExponent_hat expr 2 0 va q P Eop). unfold bind at 1.
    now rewrite Xe.
  - rewrite (parseExponent_end expr 2 0 va q P)
      by (unfold significant; rewrite Eop; reflexivity || discriminate).
    rewrite (parseTerm_loop_times expr 2 va q Eop). unfold bind at 1.
    now rewrite Xe.
  - rewrite (parseExponent_end expr 2 0 va q P)
      by (unfold significant; rewrite Eop; reflexivity || discriminate).
    rewrite (parseTerm_loop_over expr 2 va q Eop). unfold bind at 1.
    now rewrite Xe.
  - rewrite (parseExponent_end expr 2 0 va q P)
      by (unfold significant; rewrite Eop; reflexivity || discriminate).
    rewrite parseTerm_loop_end
      by (try (unfold significant); rewrite Eop; reflexivity || discriminate).
    rewrite (parseExpression_loop_plus expr 3 va q Eop). unfold bind at 1.
    now rewrite Xt.
  - rewrite (parseExponent_end expr 2 0 va q P)
      by (unfold significant; rewrite Eop; reflexivity || discriminate).
    rewrite parseTerm_loop_end
      by (try (unfold significant); rewrite Eop; reflexivity || discriminate).
    rewrite (parseExpression_loop_minus expr 3 va q Eop). unfold bind at 1.
    now rewrite Xt.
Qed.

(** The lexing loop throws on a decimal point behind a run that holds one
    already. *)
Lemma scanNumber_second_point (expr rest : list ascii) (t : list ascii) :
  forall n seen pos,
    skipn pos expr = t ++ "."%char :: rest ->
    forallb is_numeric t = true ->
    (seen = true \/ existsb is_point t = true) ->
    length (filter is_point t) + (if seen then 1 else 0) <= 1 ->
    length expr - pos <= n ->
    scanNumber expr n seen pos = Throw (MalformedNumber (pos + length t)).
Proof.
  induction t as [|d t IH]; intros n seen pos V Hnum Hpoint Hone Hn.
  - cbn [app] in V. pose proof (view_head expr pos _ _ V) as E.
    pose proof (nth_error_inside expr pos _ E) as Hin.
    destruct n as [|n]; [lia|]. simpl. rewrite E. simpl.
    destruct Hpoint as [-> | Hp]; [|discriminate].
    now rewrite Nat.add_0_r.
  - cbn [app forallb] in V, Hnum. apply andb_prop in Hnum as [Hd Hnum].
    pose proof (view_head expr pos _ _ V) as E.
    pose proof (nth_error_inside expr pos _ E) as Hin.
    destruct n as [|n]; [lia|]. simpl. rewrite E.
    unfold is_numeric in Hd. rewrite Hd.
    replace (pos + S (length t)) with (S pos + length t) by lia.
    simpl in Hone, Hpoint. destruct (is_point d); simpl in Hone, Hpoint.
    + destruct seen; [lia|].
      apply IH; [exact (view_tail expr pos _ _ V)|assumption|now left|lia|lia].
    + apply IH; [exact (view_tail expr pos _ _ V)|assumption|assumption
                |lia|lia].
Qed.

(** X20: a literal that holds a decimal point, followed by another
    decimal point, throws the malformed-number error at that second
    point, whatever follows it. *)
Theorem second_point_malformed (a rest : string) :
  literal a = true ->
  existsb is_point (list_ascii_of_string a) = true ->
  evaluate (a ++ String "." rest) = Throw (MalformedNumber (String.length a)).
Proof.
  intros Ha Hpoint. set (t := list_ascii_of_string a) in *.
  set (expr := t ++ "."%char :: list_ascii_of_string rest).
  unfold literal, literal_chars in Ha. fold t in Ha.
  destruct t as [|d t'] eqn:Et; [discriminate|].
  apply andb_prop in Ha as [Hnum Hone]. apply Nat.leb_le in Hone.
  assert (skipn 0 expr = (d :: t') ++ "."%char :: list_ascii_of_string rest)
    as V by reflexivity.
  pose proof (view_head expr 0 _ _ V) as E.
  assert (is_numeric d = true) as Hd
      by (simpl in Hnum; now apply andb_prop in Hnum).
  destruct (numeric_char d Hd) as (Hs & Hplus & Hminus & Hparen).
  assert (significant expr 0) as Hsig by (unfold significant; now rewrite E).
  assert (parsePrimary expr 1 0
          = Throw (MalformedNumber (0 + length (d :: t')))) as P.
  { simpl parsePrimary. rewrite bind_skip by assumption.
    rewrite !bind_match_miss by (trivial; rewrite E; congruence).
    unfold parseNumber. rewrite bind_skip by assumption.
    now rewrite (scanNumber_second_point expr _ (d :: t') _ false 0 V Hnum
                   (or_intror Hpoint)) by lia. }
  apply evaluate_throws with (fuel := 4).
  rewrite list_ascii_of_string_app. cbn [list_ascii_of_string].
  rewrite <- length_list_ascii_of_string. fold t. rewrite Et. fold expr.
  now apply primary_throw_is_answer.
Qed.

(** X21: an opening parenthesis in front of a complete expression, with
    no closing one, throws the unmatched-parenthesis error at the end of
    the input. *)
Theorem open_parenthesis_unmatched (expression : string) (v : double) :
  evaluate expression = Ok v ->
  evaluate ("(" ++ expression)
  = Throw (UnmatchedParenthesis (S (String.length expression))).
Proof.
  intros Hv. destruct (evaluate_returns_inv expression v Hv)
    as (p & Hx & _ & Hskip).
  rewrite <- length_list_ascii_of_string in Hx, Hskip |- *.
  set (expr := list_ascii_of_string expression) in *.
  set (F := enough (length expr)) in *.
  set (full := "("%char :: expr).
  assert (parseExpression full F 1 = Ok (v, 1 + p)) as X.
  { pose proof (shifted_levels ["("%char] expr F Expression 0) as L.
    cbn [run_level] in L. simpl in L. unfold full. rewrite L.
    now rewrite Hx. }
  assert (skipWhitespace_pos full (1 + p) = 1 + length expr) as Hq.
  { pose proof (skipWhitespace_behind ["("%char] expr p) as S1.
    simpl in S1. unfold full. change (1 + p) with (S p).
    rewrite S1. now rewrite Hskip. }
  assert (nth_error full (1 + length expr) = None) as E
      by (apply nth_error_None; unfold full; simpl; lia).
  assert (parsePrimary full (S F) 0
          = Throw (UnmatchedParenthesis (1 + length expr))) as P.
  { rewrite (parsePrimary_paren full F 0 eq_refl). unfold bind at 1.
    rewrite X. rewrite bind_skip_eq, Hq.
    rewrite bind_match_miss
      by (try (now apply at_end_significant); rewrite E; discriminate).
    reflexivity. }
  apply evaluate_throws with (fuel := S (S (S (S F)))).
  cbn [String.append list_ascii_of_string]. fold expr full.
  now apply primary_throw_is_answer.
Qed.

End Throwing.

(** ** Division by a spelling of zero *)

Section Zero.

Context `{Libm}.

Lemma mantissa_of_zeros (ds : list ascii) :
  Forall (fun c => c = "0"%char) ds ->
  fold_left (fun m c => 10 * m + Stod.digit_value c)%Z ds 0%Z = 0%Z.
Proof.
  induction 1 as [|c ds -> _ IH]; [reflexivity|exact IH].
Qed.

Lemma nearest_zero (k : nat) : Stod.nearest 0 k = S754_zero false.
Proof.
  unfold Stod.nearest.
  assert (0 < 10 ^ Z.of_nat k)%Z as Hpos by (apply Z.pow_pos_nonneg; lia).
  destruct (10 ^ Z.of_nat k)%Z as [|p|p]; [lia|reflexivity|lia].
Qed.

Lemma zero_literal_value (b : string) :
  zero_literal b = true ->
  literal b = true /\ literal_value b = Some 0%float.
Proof.
  unfold zero_literal. intros Hb.
  apply andb_prop in Hb as [Hb Hzeros]. apply andb_prop in Hb as [Hlit Hdigit].
  split; [exact Hlit|]. unfold literal_value, stod.
  set (t := list_ascii_of_string b) in *.
  assert (Stod.mantissa t = 0%Z) as Hm.
  { apply mantissa_of_zeros. apply Forall_forall. intros c Hc.
    apply filter_In in Hc as [Hin Hd]. rewrite forallb_forall in Hzeros.
    specialize (Hzeros c Hin). apply orb_prop in Hzeros as [Hp|Hz].
    - apply Ascii.eqb_eq in Hp. subst c. discriminate.
    - now apply Ascii.eqb_eq in Hz. }
  apply existsb_exists in Hdigit as (c & Hin & Hd).
  assert (In c (Stod.digits t)) as Hc by (apply filter_In; now split).
  destruct (Stod.digits t) as [|c0 ds]; [contradiction|].
  rewrite Hm, nearest_zero. reflexivity.
Qed.

(** X22: a literal divided by any spelling of zero (digits that are all
    0, with or without a decimal point) throws the division-by-zero error
    at the end of the input. *)
Theorem division_by_zero_literal (a b : string) (va : double) :
  literal a = true -> literal_value a = Some va -> zero_literal b = true ->
  evaluate (a ++ "/" ++ b)
  = Throw (DivisionByZero (String.length (a ++ "/" ++ b))).
Proof.
  intros Ha Hva Hb. destruct (zero_literal_value b Hb) as [Hlit Hvb].
  apply evaluate_throws with (fuel := 5).
  rewrite <- length_list_ascii_of_string. to_chars.
  now apply quotient_by_zero_parse with (va := va) (vb := 0%float).
Qed.

End Zero.

(** ** The interactive loop *)

Section Session.

Context `{Libm}.

Lemma evaluate_answers (input : string) : exists o, answers input o.
Proof.
  unfold answers, evaluate.
  pose proof (parse_never_exhausted (list_ascii_of_string input)) as Hrun.
  destruct (parse _ _ 0) as [[v p]|e|]; [eauto..|now elim Hrun].
Qed.

(** X23: when the input holds the line "exit", [main] ends: it prints the
    banner, then answers every line in front of the first "exit" in
    order, one prompt and one result or error message each, whether the
    line evaluates or throws, then prompts once more and says goodbye;
    the lines behind that "exit" are not read. *)
Theorem main_answers_until_exit (before behind : list string) :
  ~ In "exit"%string before ->
  exists os,
    main (before ++ "exit"%string :: behind)
    = Some (Banner :: prompted os ++ [Prompt; Goodbye])
    /\ Forall2 answers before os.
Proof.
  intros Hno. unfold main.
  assert (exists os,
             loop (before ++ "exit"%string :: behind)
             = Some (prompted os ++ [Prompt; Goodbye])
             /\ Forall2 answers before os) as (os & -> & Hos).
  { induction before as [|input rest IH].
    - exists []. split; [reflexivity|constructor].
    - destruct IH as (os & IH & Hos); [intros Hin; apply Hno; now right|].
      assert (String.eqb input "exit" = false) as Hne
          by (apply String.eqb_neq; intros ->; apply Hno; now left).
      destruct (evaluate_answers input) as [o Ho].
      exists (o :: os). split; [|now constructor].
      cbn [app loop]. rewrite Hne, IH. unfold answers in Ho.
      destruct (evaluate input) as [v|e|]; [subst o; reflexivity..|contradiction]. }
  exists os. split; [reflexivity|exact Hos].
Qed.

End Session.

(** * Division by zero: where it is thrown and what it reports *)

(** ** A division by zero behind a complete expression *)

Section Divided.

Context `{Libm}.
Variables expr rest : list ascii.
Variable at_zero : nat.
Hypothesis divisor_zero :
  forall fuel,
    parseExponent (expr ++ "/"%char :: rest) fuel (S (length expr)) = OutOfFuel
    \/ exists rhs,
        parseExponent (expr ++ "/"%char :: rest) fuel (S (length expr))
        = Ok (rhs, at_zero)
        /\ (rhs =? 0)%float = true.

Lemma divided_bind {A B} (c c' : Parser A) (k k' : A -> Parser B) :
  divided (length expr) at_zero c c' -> keeps_cursor expr c ->
  (forall a, divided (length expr) at_zero (k a) (k' a)) ->
  divided (length expr) at_zero (bind c k) (bind c' k').
Proof.
  intros Hc Hkeep Hk pos b p Hpos. unfold bind.
  specialize (Hkeep pos Hpos). specialize (Hc pos).
  destruct (c pos) as [[a q]|e|]; [|discriminate..].
  intros Hr. simpl in Hkeep.
  destruct (Hc a q Hpos eq_refl) as [-> | [-> | ->]].
  - now left.
  - apply Hk; [lia|exact Hr].
  - now right; right.
Qed.

Lemma divided_same {A} (c c' : Parser A) :
  (forall pos, pos <= length expr -> c' pos = c pos) ->
  divided (length expr) at_zero c c'.
Proof. intros Heq pos a p Hpos Hr. right; left. now rewrite Heq. Qed.

Lemma divided_nothing {A} (c c' : Parser A) :
  (forall pos a p, c pos <> Ok (a, p)) ->
  divided (length expr) at_zero c c'.
Proof. intros Hno pos a p _ Hr. now elim (Hno pos a p). Qed.

(** Behind the division sign that continues the input the divisor is 0. *)
Lemma division_reached (fuel : nat) (k : double -> Parser double) :
  bind (parseExponent (expr ++ "/"%char :: rest) fuel)
    (fun rhs => if (rhs =? 0)%float then throw DivisionByZero else k rhs)
    (S (length expr)) = OutOfFuel
  \/ bind (parseExponent (expr ++ "/"%char :: rest) fuel)
       (fun rhs => if (rhs =? 0)%float then throw DivisionByZero else k rhs)
       (S (length expr)) = Throw (DivisionByZero at_zero).
Proof.
  unfold bind. destruct (divisor_zero fuel) as [-> | (rhs & -> & ->)];
    [now left|now right].
Qed.

(** The match of the division sign: inside the input it does what it did,
    and at the end of the input it finds the sign that continues it. *)
Lemma divided_over {B} (hit hit' miss miss' : Parser B) :
  hit' (S (length expr)) = OutOfFuel
  \/ hit' (S (length expr)) = Throw (DivisionByZero at_zero) ->
  divided (length expr) at_zero hit hit' ->
  divided (length expr) at_zero miss miss' ->
  divided (length expr) at_zero
    (bind (match_ expr "/") (fun b : bool => if b then hit else miss))
    (bind (match_ (expr ++ "/"%char :: rest) "/")
       (fun b : bool => if b then hit' else miss')).
Proof.
  intros Hend Hhit Hmiss pos b p Hpos. unfold bind.
  rewrite !match_unfold. cbv zeta.
  rewrite (skipWhitespace_continued expr rest "/" eq_refl) by assumption.
  pose proof (skipWhitespace_loop_within expr (length expr - pos) pos Hpos)
    as Hin.
  fold (skipWhitespace_pos expr pos) in Hin.
  set (q := skipWhitespace_pos expr pos) in *.
  destruct (nth_error expr q) as [c|] eqn:E.
  - pose proof (nth_error_inside expr q c E) as Hq.
    rewrite nth_error_inside_continued, E by lia.
    destruct (Ascii.eqb c "/"); [apply Hhit|apply Hmiss]; lia.
  - apply nth_error_None in E. assert (q = length expr) as -> by lia.
    rewrite nth_error_closer. cbn [Ascii.eqb Bool.eqb]. intros _.
    destruct Hend as [-> | ->]; [now left|now right; right].
Qed.

End Divided.

Ltac divided_step Hzero :=
  match goal with
  | |- divided _ _ (bind (match_ _ "/"%char) _) _ =>
      apply divided_over; [apply (division_reached _ _ _ Hzero)| |]
  | |- divided _ _ (bind _ _) (bind _ _) =>
      apply divided_bind;
      [|solve [repeat keeps_step | keeps_level]|intros ?]
  | |- divided _ _ (if ?b then _ else _) _ => destruct b
  | |- divided _ _ (ret _) _ => apply divided_same; reflexivity
  | |- divided _ _ (throw _) _ =>
      apply divided_nothing; intros ? ? ?; discriminate
  | |- divided _ _ (skipWhitespace _) _ =>
      apply divided_same; intros ? ?; unfold skipWhitespace;
      now rewrite (skipWhitespace_continued _ _ "/"%char eq_refl)
  | |- divided _ _ (match_ _ _) _ =>
      apply divided_same; intros ? ?;
      apply (match_continued _ _ "/"%char eq_refl);
      [discriminate|assumption]
  | |- divided _ _ (parseNumber _) _ =>
      apply divided_same; intros ? ?;
      now apply (parseNumber_continued _ _ "/"%char eq_refl eq_refl)
  end.

Section DividedLevels.

Context `{Libm}.
Variables expr rest : list ascii.
Variable at_zero : nat.
Hypothesis divisor_zero :
  forall fuel,
    parseExponent (expr ++ "/"%char :: rest) fuel (S (length expr)) = OutOfFuel
    \/ exists rhs,
        parseExponent (expr ++ "/"%char :: rest) fuel (S (length expr))
        = Ok (rhs, at_zero)
        /\ (rhs =? 0)%float = true.

Lemma divided_levels (fuel : nat) (l : level) :
  divided (length expr) at_zero
    (run_level expr l fuel) (run_level (expr ++ "/"%char :: rest) l fuel).
Proof.
  revert l. induction fuel as [|fuel IH]; intros l.
  - destruct l; intros pos v p _; discriminate.
  - destruct l; simpl; repeat (divided_step divisor_zero || by_level IH).
Qed.

End DividedLevels.

(** ** Every division-by-zero error comes from a divisor of value 0 *)

Section ZeroDivisor.

Context `{Libm}.
Variable expr : list ascii.

Lemma only_bind {A B} (c : Parser A) (k : A -> Parser B) :
  divides_by_zero_only expr c ->
  (forall a, divides_by_zero_only expr (k a)) ->
  divides_by_zero_only expr (bind c k).
Proof.
  intros Hc Hk pos. unfold bind. specialize (Hc pos).
  destruct (c pos) as [[a p]|e|]; [apply Hk|exact Hc|exact I].
Qed.

Lemma only_returns {A} (c : Parser A) :
  (forall pos, exists a p, c pos = Ok (a, p)) ->
  divides_by_zero_only expr c.
Proof. intros Hc pos. destruct (Hc pos) as (a & p & ->). exact I. Qed.

Lemma only_match (expected : ascii) :
  divides_by_zero_only expr (match_ expr expected).
Proof.
  apply only_returns. intros pos. rewrite match_unfold. cbv zeta.
  destruct (nth_error expr (skipWhitespace_pos expr pos)) as [c|]; [|eauto].
  destruct (Ascii.eqb c expected); eauto.
Qed.

Lemma only_parseNumber : divides_by_zero_only expr (parseNumber expr).
Proof.
  intros pos. unfold parseNumber. rewrite bind_skip_eq.
  set (start := skipWhitespace_pos expr pos).
  pose proof (scanNumber_cases expr (length expr - start) false start
                (Nat.le_refl _)) as Hs.
  destruct (scanNumber expr (length expr - start) false start) as [p|e|];
    [|destruct Hs as (p & -> & _); exact I|exact I].
  destruct (start =? p); [exact I|].
  destruct (stod (substr expr start (p - start))); exact I.
Qed.

(** The division branch of the loop of [parseTerm]. *)
Lemma only_over (fuel : nat) (k : double -> Parser double)
      (miss : Parser double) :
  divides_by_zero_only expr (parseExponent expr fuel) ->
  (forall rhs, divides_by_zero_only expr (k rhs)) ->
  divides_by_zero_only expr miss ->
  divides_by_zero_only expr
    (bind (match_ expr "/")
       (fun over : bool =>
          if over then
            bind (parseExponent expr fuel)
              (fun rhs => if (rhs =? 0)%float then throw DivisionByZero
                          else k rhs)
          else miss)).
Proof.
  intros Hexp Hk Hmiss pos. apply match_cases; [|intros _; apply Hmiss].
  intros Eover. set (q := skipWhitespace_pos expr pos) in *.
  unfold bind. specialize (Hexp (S q)).
  destruct (parseExponent expr fuel (S q)) as [[rhs p]|e|] eqn:E;
    [|exact Hexp|exact I].
  destruct (rhs =? 0)%float eqn:Hzero; [|apply Hk].
  exists q, fuel, rhs. auto.
Qed.

End ZeroDivisor.

Ltac only_step :=
  match goal with
  | |- divides_by_zero_only _ (bind (match_ _ "/"%char) _) => apply only_over
  | |- divides_by_zero_only _ (bind _ _) => apply only_bind; [|intros ?]
  | |- divides_by_zero_only _ (if ?b then _ else _) => destruct b
  | |- divides_by_zero_only _ (ret _) =>
      apply only_returns; intros ?; unfold ret; eauto
  | |- divides_by_zero_only _ (throw _) => intros ?; exact I
  | |- divides_by_zero_only _ (skipWhitespace _) =>
      apply only_returns; intros ?; unfold skipWhitespace; eauto
  | |- divides_by_zero_only _ (match_ _ _) => apply only_match
  | |- divides_by_zero_only _ (parseNumber _) => apply only_parseNumber
  | |- forall _ : double, divides_by_zero_only _ _ => intros ?
  end.

Section ZeroDivisorLevels.

Context `{Libm}.
Variable expr : list ascii.

Lemma only_levels (fuel : nat) (l : level) :
  divides_by_zero_only expr (run_level expr l fuel).
Proof.
  revert l. induction fuel as [|fuel IH]; intros l.
  - destruct l; intros pos; exact I.
  - destruct l; simpl; repeat (only_step || by_level IH).
Qed.

Lemma only_parse (fuel : nat) : divides_by_zero_only expr (parse expr fuel).
Proof.
  unfold parse. apply only_bind; [exact (only_levels fuel Expression)|].
  intros result pos. unfold bind, skipWhitespace.
  destruct (negb _); exact I.
Qed.

End ZeroDivisorLevels.

Section DivisionByZero.

Context `{Libm}.

(** The divisor that continues the input, at any fuel. *)
Lemma divisor_at_any_fuel (expr rest : list ascii) (fuel : nat) (vb : double)
      (p : nat) :
  parseExponent rest fuel 0 = Ok (vb, p) -> (vb =? 0)%float = true ->
  forall f,
    parseExponent (expr ++ "/"%char :: rest) f (S (length expr)) = OutOfFuel
    \/ exists rhs,
        parseExponent (expr ++ "/"%char :: rest) f (S (length expr))
        = Ok (rhs, S (length expr) + p)
        /\ (rhs =? 0)%float = true.
Proof.
  intros Hb Hzero f.
  pose proof (shifted_levels (expr ++ ["/"%char]) rest f Exponent 0) as L.
  rewrite <- app_assoc, length_app, Nat.add_0_r in L.
  cbn [app length run_level] in L.
  replace (length expr + 1) with (S (length expr)) in L by lia.
  rewrite L.
  assert (parseExponent rest f 0 = OutOfFuel
          \/ parseExponent rest f 0 = Ok (vb, p)) as [-> | ->].
  { destruct (Nat.le_ge_cases f fuel) as [Hle|Hle].
    - pose proof (extends_levels rest f fuel Exponent Hle 0) as Hmore.
      cbn [run_level] in Hmore.
      destruct (parseExponent rest f 0) as [[v q]|e|] eqn:R; [| |now left];
        right; rewrite <- Hb; symmetry; apply Hmore; discriminate.
    - pose proof (extends_levels rest fuel f Exponent Hle 0) as Hmore.
      cbn [run_level] in Hmore. right. rewrite Hmore; [exact Hb|].
      rewrite Hb. discriminate. }
  - now left.
  - right. exists vb. split; [reflexivity|exact Hzero].
Qed.

(** Where a divisor begins and where its exponent expression ends. *)
Lemma divisor_bounds (expr : list ascii) (fuel pos : nat) (rhs : double)
      (p : nat) :
  pos <= length expr ->
  parseExponent expr fuel pos = Ok (rhs, p) ->
  skipWhitespace_pos expr pos < p <= length expr /\ significant expr p.
Proof.
  intros Hpos Hrhs.
  pose proof (skipWhitespace_loop_within expr (length expr - pos) pos Hpos)
    as Hin.
  fold (skipWhitespace_pos expr pos) in Hin.
  pose proof (levels_skip_first expr Exponent fuel pos) as Hfirst.
  cbn [run_level] in Hfirst. rewrite Hrhs in Hfirst. symmetry in Hfirst.
  pose proof (consumes_parseExponent expr fuel _ rhs p (proj2 Hin) Hfirst)
    as Hmoved.
  pose proof (keeps_levels expr fuel Exponent pos Hpos) as Hk.
  cbn [run_level] in Hk. rewrite Hrhs in Hk. simpl in Hk.
  pose proof (returns_settled_levels expr fuel Exponent pos I) as Hs.
  cbn [run_level] in Hs. rewrite Hrhs in Hs.
  split; [lia|exact (proj1 Hs)].
Qed.

(** A complete expression followed by a division sign and a divisor 0. *)
Lemma division_behind_expression (expr rest : list ascii) (va vb : double)
      (p0 p fuel : nat) :
  parseExpression expr (enough (length expr)) 0 = Ok (va, p0) ->
  skipWhitespace_pos expr p0 = length expr ->
  parseExponent rest fuel 0 = Ok (vb, p) -> (vb =? 0)%float = true ->
  parse (expr ++ "/"%char :: rest)
    (enough (length (expr ++ "/"%char :: rest))) 0
  = Throw (DivisionByZero (S (length expr) + p)).
Proof.
  intros Hx Hskip Hb Hzero.
  set (full := expr ++ "/"%char :: rest).
  set (F := enough (length full)).
  assert (enough (length expr) <= F) as Hfuel
      by (unfold F, full, enough; rewrite length_app; lia).
  assert (p0 <= length expr) as Hp0.
  { pose proof (keeps_levels expr (enough (length expr)) Expression 0
                  (Nat.le_0_l _)) as Hk.
    cbn [run_level] in Hk. rewrite Hx in Hk. simpl in Hk. lia. }
  assert (parseExpression expr F 0 = Ok (va, p0)) as Hx'.
  { pose proof (extends_levels expr _ F Expression Hfuel 0) as Hmore.
    cbn [run_level] in Hmore.
    rewrite Hmore; [exact Hx|rewrite Hx; discriminate]. }
  pose proof (divided_levels expr rest _
                (divisor_at_any_fuel expr rest fuel vb p Hb Hzero)
                F Expression 0 va p0 (Nat.le_0_l _) Hx') as D.
  cbn [run_level] in D. fold full in D.
  unfold parse. unfold bind at 1.
  destruct D as [D | [D | D]]; rewrite D; [| |reflexivity].
  - elim (runs_levels full F Expression 0 (Nat.le_0_l _)).
    + unfold F, enough. simpl. lia.
    + exact D.
  - pose proof (returns_settled_levels full F Expression 0 I) as Hs.
    cbn [run_level] in Hs. rewrite D in Hs. destruct Hs as [Hsig Hops].
    destruct (Nat.eq_dec p0 (length expr)) as [Hend|Hin].
    + elim (Hops "/"%char); [simpl; tauto|].
      rewrite Hend. apply nth_error_closer.
    + destruct (skipWhitespace_loop_skipped expr (length expr - p0) p0 p0)
        as (c & Ec & Hc).
      { fold (skipWhitespace_pos expr p0). lia. }
      unfold significant, full in Hsig.
      rewrite nth_error_inside_continued, Ec in Hsig by lia. congruence.
Qed.

(** C1 (as amended): when the right operand of a division is exactly 0 the
    evaluation throws the division-by-zero error, and the position it
    reports is the cursor after the divisor operand, an exponent
    expression, has been parsed and the whitespace behind it skipped.
    That position lies strictly behind the first character of the divisor
    and at most at the end of the input.  The loop of [parseTerm] throws
    so from any cursor whose next significant character is the division
    sign; [evaluate] throws so for any dividend that evaluates, followed
    by the division sign and any text that begins with an exponent
    expression of value 0; for a quotient of two literals the position is
    the end of the input; and whenever [evaluate] throws the error, the
    position it reports is the end of an exponent expression of value 0
    behind a division sign, strictly behind that expression's first
    character; for "5/0" it is 3 and for "5/ 0" it is 4. *)
Theorem division_by_zero_reports_cursor :
  (forall expr fuel value pos rhs p,
      nth_error expr (skipWhitespace_pos expr pos) = Some "/"%char ->
      parseExponent expr fuel (S (skipWhitespace_pos expr pos)) = Ok (rhs, p) ->
      (rhs =? 0)%float = true ->
      parseTerm_loop expr (S fuel) value pos = Throw (DivisionByZero p)
      /\ skipWhitespace_pos expr (S (skipWhitespace_pos expr pos)) < p
         <= length expr
      /\ significant expr p) /\
  (forall a b va vb p fuel,
      evaluate a = Ok va ->
      parseExponent (list_ascii_of_string b) fuel 0 = Ok (vb, p) ->
      (vb =? 0)%float = true ->
      evaluate (a ++ "/" ++ b)
      = Throw (DivisionByZero (String.length a + 1 + p))
      /\ skipWhitespace_pos (list_ascii_of_string b) 0 < p
         <= String.length b) /\
  (forall a b va vb,
      literal a = true -> literal b = true ->
      literal_value a = Some va -> literal_value b = Some vb ->
      (vb =? 0)%float = true ->
      evaluate (a ++ "/" ++ b)
      = Throw (DivisionByZero (String.length (a ++ "/" ++ b)))) /\
  (forall expression p,
      evaluate expression = Throw (DivisionByZero p) ->
      exists q fuel rhs,
        nth_error (list_ascii_of_string expression) q = Some "/"%char
        /\ parseExponent (list_ascii_of_string expression) fuel (S q)
           = Ok (rhs, p)
        /\ (rhs =? 0)%float = true
        /\ skipWhitespace_pos (list_ascii_of_string expression) (S q) < p
           <= String.length expression
        /\ significant (list_ascii_of_string expression) p) /\
  evaluate "5/0" = Throw (DivisionByZero 3) /\
  evaluate "5/ 0" = Throw (DivisionByZero 4) /\
  what (DivisionByZero 3) = "Division by zero at position 3"%string.
Proof.
  split; [|split; [|split; [|split; [|repeat split; reflexivity]]]].
  - intros expr fuel value pos rhs p Eover Hrhs Hzero.
    set (q := skipWhitespace_pos expr pos) in *.
    pose proof (nth_error_inside expr q _ Eover) as Hq.
    split; [|exact (divisor_bounds expr fuel (S q) rhs p Hq Hrhs)].
    pose proof (levels_skip_first expr (TermLoop value) (S fuel) pos) as Hfirst.
    cbn [run_level] in Hfirst. fold q in Hfirst. rewrite Hfirst.
    rewrite (parseTerm_loop_over expr fuel value q Eover).
    unfold bind. now rewrite Hrhs, Hzero.
  - intros a b va vb p fuel Ha Hb Hzero.
    destruct (evaluate_returns_inv a va Ha) as (p0 & Hx & _ & Hskip).
    rewrite <- length_list_ascii_of_string in Hx, Hskip.
    split.
    + apply evaluate_throws
        with (fuel := enough (length (list_ascii_of_string a
                                        ++ "/"%char :: list_ascii_of_string b))).
      to_chars.
      rewrite (division_behind_expression _ _ va vb p0 p fuel Hx Hskip Hb Hzero).
      rewrite length_list_ascii_of_string. do 2 f_equal. lia.
    + rewrite <- length_list_ascii_of_string.
      exact (proj1 (divisor_bounds _ fuel 0 vb p (Nat.le_0_l _) Hb)).
  - intros a b va vb Ha Hb Hva Hvb Hzero.
    apply evaluate_throws with (fuel := 5).
    rewrite <- length_list_ascii_of_string. to_chars.
    now apply quotient_by_zero_parse with (va := va) (vb := vb).
  - intros expression p. unfold evaluate.
    rewrite <- length_list_ascii_of_string.
    set (expr := list_ascii_of_string expression).
    pose proof (only_parse expr (enough (length expr)) 0) as Hz.
    destruct (parse expr (enough (length expr)) 0) as [[v p']|e|];
      [discriminate| |discriminate].
    intros [= ->]. destruct Hz as (q & fuel & rhs & Eover & Hrhs & Hzero).
    exists q, fuel, rhs. repeat split; trivial;
      apply (divisor_bounds expr fuel (S q) rhs p
               (nth_error_inside expr q _ Eover) Hrhs).
Qed.

End DivisionByZero.

(** On "5/0" the divisor begins at index 2 and the error reports 3. *)
Lemma division_by_zero_position_counterexample :
  nth_error (list_ascii_of_string "5/0") 2 = Some "0"%char /\
  @evaluate Sample.libm "5/0" = Throw (DivisionByZero 3).
Proof. split; reflexivity. Qed.

(** On "2*5/ (1-1)+3" the divisor begins at index 5, its exponent
    expression ends before the '+' at index 10, and the error reports 10. *)
Lemma division_by_zero_reports_cursor_witness :
  @evaluate Sample.libm "2*5/ (1-1)+3" = Throw (DivisionByZero 10)
  /\ skipWhitespace_pos (list_ascii_of_string " (1-1)+3") 0 < 6 <= 8.
Proof.
  exact (proj1 (proj2 (@division_by_zero_reports_cursor Sample.libm))
           "2*5"%string " (1-1)+3"%string 10%float 0%float 6 20
           eq_refl eq_refl eq_refl).
Defined.

(** ** The further properties at concrete inputs *)

Lemma expected_number_explained_witness :
  2 <= String.length "2+"
  /\ significant (list_ascii_of_string "2+") 2
  /\ forall c, nth_error (list_ascii_of_string "2+") 2 = Some c ->
               is_numeric c = false
               /\ c <> "+"%char /\ c <> "-"%char /\ c <> "("%char.
Proof.
  exact (@expected_number_explained Sample.libm "2+"%string 2 eq_refl).
Defined.

Lemma malformed_number_explained_witness :
  nth_error (list_ascii_of_string "1.2.3") 3 = Some "."%char
  /\ exists q,
      q < 3
      /\ nth_error (list_ascii_of_string "1.2.3") q = Some "."%char
      /\ forall i, q <= i < 3 -> numeric_at (list_ascii_of_string "1.2.3") i.
Proof.
  exact (@malformed_number_explained Sample.libm "1.2.3"%string 3 eq_refl).
Defined.

Lemma conversion_error_explained_witness :
  exists n,
    0 < n
    /\ @stod Sample.libm (substr (list_ascii_of_string "2+.") 2 n) = None
    /\ forall i, 2 <= i < 2 + n -> numeric_at (list_ascii_of_string "2+.") i.
Proof.
  exact (@conversion_error_explained Sample.libm "2+."%string 2 eq_refl).
Defined.

Lemma unmatched_parenthesis_explained_witness :
  significant (list_ascii_of_string "(1+2") 4
  /\ nth_error (list_ascii_of_string "(1+2") 4 <> Some ")"%char
  /\ exists q,
      q < 4 /\ nth_error (list_ascii_of_string "(1+2") q = Some "("%char.
Proof.
  exact (@unmatched_parenthesis_explained Sample.libm "(1+2"%string 4 eq_refl).
Defined.

Lemma division_by_zero_explained_witness :
  5 <= String.length "2*5/0"
  /\ exists q,
      S q < 5 /\ nth_error (list_ascii_of_string "2*5/0") q = Some "/"%char.
Proof.
  exact (@division_by_zero_explained Sample.libm "2*5/0"%string 5 eq_refl).
Defined.

Lemma unexpected_token_explained_witness :
  nth_error (list_ascii_of_string "2 3") 2 = Some "3"%char
  /\ isspace "3" = false
  /\ ~ In "3"%char operator_chars.
Proof.
  exact (@unexpected_token_explained Sample.libm "2 3"%string 2 "3"%char
           eq_refl).
Defined.

Lemma no_operand_expected_number_witness :
  @evaluate Sample.libm "   " = Throw (ExpectedNumber 3)
  /\ @evaluate Sample.libm " *2" = Throw (ExpectedNumber 1).
Proof.
  split.
  - exact (proj2 (@no_operand_expected_number Sample.libm "   "%string)
             eq_refl).
  - apply (proj1 (@no_operand_expected_number Sample.libm " *2"%string)).
    intros c [= <-]. repeat split; reflexivity || discriminate.
Defined.

Lemma literal_evaluates_to_stod_witness :
  @evaluate Sample.libm "3.5" = Ok 3.5%float
  /\ @evaluate Sample.libm "." = Throw (NumberConversionError 0).
Proof.
  split.
  - exact (@literal_evaluates_to_stod Sample.libm "3.5"%string eq_refl).
  - exact (@literal_evaluates_to_stod Sample.libm "."%string eq_refl).
Defined.

Lemma signs_negate_witness : @evaluate Sample.libm "-+-2.5" = Ok 2.5%float.
Proof.
  exact (@signs_negate Sample.libm "-+-"%string "2.5"%string 2.5%float
           eq_refl eq_refl eq_refl).
Defined.

Lemma leading_whitespace_ignored_witness :
  @evaluate Sample.libm "  2+" = Throw (ExpectedNumber 4)
  /\ @evaluate Sample.libm "  2+3" = Ok 5%float.
Proof.
  split.
  - exact (@leading_whitespace_ignored Sample.libm "  "%string "2+"%string
             eq_refl).
  - exact (@leading_whitespace_ignored Sample.libm "  "%string "2+3"%string
             eq_refl).
Defined.

Lemma closer_after_expression_unexpected_witness :
  @evaluate Sample.libm "2+3)*4" = Throw (UnexpectedToken 3 ")").
Proof.
  exact (@closer_after_expression_unexpected Sample.libm "2+3"%string
           "*4"%string 5%float ")"%char eq_refl eq_refl).
Defined.

Lemma parentheses_keep_value_witness :
  @evaluate Sample.libm "(2+3)" = Ok 5%float
  /\ @evaluate Sample.libm "-(2+3)" = Ok (-5)%float.
Proof.
  exact (@parentheses_keep_value Sample.libm "2+3"%string 5%float eq_refl).
Defined.

Lemma grouped_operands_compose_witness :
  @evaluate Sample.libm "(1+2)*(4-1)" = Ok 9%float
  /\ @evaluate Sample.libm "(1+2)/(4-4)" = Throw (DivisionByZero 11).
Proof.
  pose proof (@grouped_operands_compose Sample.libm "1+2"%string "4-1"%string
                3%float 3%float eq_refl eq_refl) as W.
  pose proof (@grouped_operands_compose Sample.libm "1+2"%string "4-4"%string
                3%float 0%float eq_refl eq_refl) as Z.
  split.
  - exact (proj1 (proj2 (proj2 W))).
  - exact (proj2 (proj2 (proj2 (proj2 Z)))).
Defined.

Lemma trailing_whitespace_ignored_witness :
  @evaluate Sample.libm "2+3  " = Ok 5%float.
Proof.
  exact (@trailing_whitespace_ignored Sample.libm "2+3"%string "  "%string
           5%float eq_refl eq_refl).
Defined.

Lemma sum_accumulates_left_witness :
  @evaluate Sample.libm "10-3-2+1" = Ok 6%float.
Proof.
  apply (@sum_accumulates_left Sample.libm "10"%string
           [("-"%char, "3"%string); ("-"%char, "2"%string);
            ("+"%char, "1"%string)] 10%float 6%float);
    try reflexivity.
  repeat constructor.
Defined.

Lemma product_accumulates_left_witness :
  @evaluate Sample.libm "8/4/2*3" = Ok 3%float.
Proof.
  apply (@product_accumulates_left Sample.libm "8"%string
           [("/"%char, "4"%string); ("/"%char, "2"%string);
            ("*"%char, "3"%string)] 8%float 3%float);
    try reflexivity.
  repeat constructor.
Defined.

Lemma tower_associates_right_witness :
  @evaluate Sample.libm "2^3^2^1" = Ok 512%float.
Proof.
  apply (@tower_associates_right Sample.libm "2"%string
           ["3"; "2"; "1"]%string 512%float);
    [repeat constructor|reflexivity].
Defined.

Lemma dangling_operator_expected_number_witness :
  @evaluate Sample.libm "2.5*" = Throw (ExpectedNumber 4).
Proof.
  apply (@dangling_operator_expected_number Sample.libm "2.5"%string
           2.5%float "*"%char); try reflexivity.
  right. left. reflexivity.
Defined.

Lemma second_point_malformed_witness :
  @evaluate Sample.libm "1.2.3" = Throw (MalformedNumber 3).
Proof.
  exact (@second_point_malformed Sample.libm "1.2"%string "3"%string
           eq_refl eq_refl).
Defined.

Lemma open_parenthesis_unmatched_witness :
  @evaluate Sample.libm "(1+2" = Throw (UnmatchedParenthesis 4).
Proof.
  exact (@open_parenthesis_unmatched Sample.libm "1+2"%string 3%float eq_refl).
Defined.

Lemma division_by_zero_literal_witness :
  @evaluate Sample.libm "5/0.00" = Throw (DivisionByZero 6).
Proof.
  exact (@division_by_zero_literal Sample.libm "5"%string "0.00"%string
           5%float eq_refl eq_refl eq_refl).
Defined.

Lemma main_answers_until_exit_witness :
  exists os,
    @main Sample.libm ["2+3"; "5/0"; "exit"; "1"]%string
    = Some (Banner :: prompted os ++ [Prompt; Goodbye])
    /\ Forall2 (@answers Sample.libm) ["2+3"; "5/0"]%string os.
Proof.
  apply (@main_answers_until_exit Sample.libm ["2+3"; "5/0"]%string
           ["1"%string]).
  intros [C|[C|[]]]; discriminate C.
Defined.
